(** * Technical-indicator engine of the stock analytics dashboard

    A shallow embedding of the calculation functions of
    [src/pages/IndicatorsPage.jsx] (SMA, EMA, RSI, MACD, Bollinger Bands,
    the display resampler, Fibonacci retracement, the divergence pivot
    tests, the golden/death cross detector and the weekly period key),
    followed by the properties the specification states about them.  After
    them come further functions of the page (RSI smoothing, divergences,
    peak markers, the zoom window), of the chart components
    ([HorizontalNavigator], [MacdHistogramChart]) and of the backend
    ([Backend/index.js]: the cache, the circuit breaker, the ticker check,
    the rate and price look-ups), with properties read off the code.

    Numbers.  A JavaScript number is a binary64 value.  Most functions are
    modelled over exact rationals ([Q]); what is stated about them there is
    either the very expression that the code evaluates or a comparison that
    rounding to binary64 preserves, and [==] ([Qeq]) is used where the
    source compares values, [=] where the code stores the very same value
    (a lemma that holds in exact arithmetic only says so).
    Where the rounding decides (the running sum of calculateSMA, the width
    and the middle of the Bollinger bands) the functions are modelled on
    binary64 itself, in [Binary64], with Rocq's primitive floats.

    Dates.  A [Date] is modelled by its [getTime()] value, an integer count
    of milliseconds since the epoch ([Z]).  A [Map] keyed by [getTime()] is a
    [gmap Z _]; [new Map(pairs)] inserts the pairs from left to right, so a
    later pair overrides an earlier one with the same key.  The local-time
    getters of [Date] depend on the host's time zone, which is a parameter
    (a fixed offset from UTC).

    Bars.  A bar is modelled by its [date] and [close] ([PricePoint]); the
    functions that read the optional [high] and [low] take a [Candle], in
    which a missing field is [None].

    Strings.  A string is modelled by [string]; the ticker check reads its
    characters as code units below 256.

    Clocks.  [Date.now()] is a parameter of the functions that read it. *)

From Stdlib Require Import ZArith QArith Qminmax Qround Qabs Lia Lqa List Bool
  Ascii String Sorted Floats.
From stdpp Require Import base option list gmap strings.

Local Open Scope nat_scope.

(** Decimal literals of binary64 numbers are rounded to the nearest value,
    as JavaScript reads them. *)
Set Warnings "-inexact-float".

(** ** Data model *)

Record PricePoint := mkPricePoint {
  date : Z;
  close : Q
}.

Record IndicatorPoint := mkIndicatorPoint {
  ip_date : Z;
  value : Q
}.

(** [data[i]] for an index the code keeps in range. *)
Definition point0 : PricePoint := mkPricePoint 0 0.
Definition at_index (data : list PricePoint) (i : nat) : PricePoint :=
  nth i data point0.

(** A loop counter or a period used as a number.  Periods are counts of
    bars, at least 1 at every call site; with a period of 0 the source
    divides by zero or reads [data[-1]], and the statements below are about
    periods of at least one bar. *)
Definition Qnat (n : nat) : Q := inject_Z (Z.of_nat n).

(** [arr.reduce((s, v) => s + v, 0)] *)
Definition Qsum (l : list Q) : Q := fold_left Qplus l 0%Q.

(** [data.slice(i - period + 1, i + 1).map(d => d.close)], for
    [i >= period - 1]. *)
Definition window (data : list PricePoint) (period i : nat) : list Q :=
  map close (firstn period (skipn (i + 1 - period) data)).

(** ** calculateSMA: sliding-window simple moving average *)

(** One iteration of the [for] loop; the state is the running [sum] and the
    output array [out]. *)
Definition sma_step (data : list PricePoint) (period : nat)
    (st : Q * list IndicatorPoint) (i : nat) : Q * list IndicatorPoint :=
  let '(sum, out) := st in
  let sum := (sum + close (at_index data i))%Q in
  let sum := if period <=? i
             then (sum - close (at_index data (i - period)))%Q else sum in
  if period - 1 <=? i
  then (sum, out ++ [mkIndicatorPoint (date (at_index data i)) (sum / Qnat period)])
  else (sum, out).

(** [null] is [None]. *)
Definition calculateSMA (data : list PricePoint) (period : nat)
    : option (list IndicatorPoint) :=
  if length data <? period then None
  else Some (snd (fold_left (sma_step data period) (seq 0 (length data)) (0%Q, []))).

(** ** calculateEMA: exponential moving average *)

(** One iteration of the loop over [i = period - 1 .. data.length - 1]; the
    state is the running [ema] and the output array. *)
Definition ema_step (data : list PricePoint) (period : nat) (k : Q)
    (st : Q * list IndicatorPoint) (i : nat) : Q * list IndicatorPoint :=
  let '(ema, out) := st in
  let ema := if period - 1 <? i
             then (close (at_index data i) * k + ema * (1 - k))%Q else ema in
  (ema, out ++ [mkIndicatorPoint (date (at_index data i)) ema]).

(** The function is embedded for [period >= 1].  With [period = 0] the
    source reads [data[period - 1].date] of a bar that does not exist and
    throws; a throw has no value here, and every property of calculateEMA
    below is for a period of at least one bar. *)
Definition calculateEMA (data : list PricePoint) (period : nat)
    : option (list IndicatorPoint) :=
  if length data <? period then None
  else
    let k := (2 / (Qnat period + 1))%Q in
    let ema := (Qsum (map close (firstn period data)) / Qnat period)%Q in
    Some (snd (fold_left (ema_step data period k)
                 (seq (period - 1) (length data - (period - 1))) (ema, []))).

(** ** calculateRSI: Wilder-smoothed relative strength index *)

(** [a > b], [a <= b] and [a === b] on numbers. *)
Definition Qltb (a b : Q) : bool :=
  match (a ?= b)%Q with Lt => true | _ => false end.
Definition Qleb (a b : Q) : bool := Qle_bool a b.
Definition Qeqb (a b : Q) : bool := Qeq_bool a b.

(** [changes[i-1] = data[i].close - data[i-1].close] for [1 <= i < n]. *)
Definition price_changes (data : list PricePoint) : list Q :=
  map (fun i => (close (at_index data i) - close (at_index data (i - 1)))%Q)
      (seq 1 (length data - 1)).

(** The seeding loop over the first [period] changes: state [(gains, losses)]. *)
Definition rsi_seed_step (changes : list Q) (st : Q * Q) (i : nat) : Q * Q :=
  let '(gains, losses) := st in
  let c := nth i changes 0%Q in
  if Qltb 0 c then ((gains + c)%Q, losses) else (gains, (losses + - c)%Q).

(** The two [const] lines that turn the running averages into the value. *)
Definition rsi_value (avgGain avgLoss : Q) : Q :=
  let rs := if Qeqb avgLoss 0 then 100%Q else (avgGain / avgLoss)%Q in
  (100 - 100 / (1 + rs))%Q.

Record RsiState := mkRsiState {
  avgGain : Q;
  avgLoss : Q;
  rsi_out : list IndicatorPoint
}.

(** One iteration of the smoothing loop. *)
Definition rsi_step (data : list PricePoint) (changes : list Q) (period : nat)
    (st : RsiState) (i : nat) : RsiState :=
  let change := nth i changes 0%Q in
  let p := Qnat period in
  let p1 := Qnat (period - 1) in
  let '(g, l) :=
    if Qltb 0 change
    then (((avgGain st * p1 + change) / p)%Q, ((avgLoss st * p1) / p)%Q)
    else (((avgGain st * p1) / p)%Q, ((avgLoss st * p1 - change) / p)%Q) in
  mkRsiState g l
    (rsi_out st ++ [mkIndicatorPoint (date (at_index data (i + 1))) (rsi_value g l)]).

Definition rsi_init (data : list PricePoint) (period : nat) : RsiState :=
  let '(gains, losses) :=
    fold_left (rsi_seed_step (price_changes data)) (seq 0 period) (0%Q, 0%Q) in
  mkRsiState (gains / Qnat period) (losses / Qnat period) [].

(** The loop state after the first [m] iterations of the smoothing loop
    ([i = period, ..., period + m - 1]). *)
Definition rsi_state_after (data : list PricePoint) (period m : nat) : RsiState :=
  fold_left (rsi_step data (price_changes data) period) (seq period m)
            (rsi_init data period).

Definition calculateRSI (data : list PricePoint) (period : nat)
    : option (list IndicatorPoint) :=
  if length data <? period + 1 then None
  else Some (rsi_out (rsi_state_after data period
                        (length (price_changes data) - period))).

(** ** calculateMACD *)

(** [new Map(pairs)]: pairs are inserted from left to right. *)
Definition js_map_of {V : Type} (pairs : list (Z * V)) : gmap Z V :=
  fold_left (fun m p => <[p.1 := p.2]> m) pairs ∅.

(** [new Map(xs.map(e => [e.date.getTime(), e.value]))] *)
Definition value_map (xs : list IndicatorPoint) : gmap Z Q :=
  js_map_of (map (fun e => (ip_date e, value e)) xs).

Record MacdResult := mkMacdResult {
  macdLine : list IndicatorPoint;
  signalLine : list IndicatorPoint;
  histogram : list IndicatorPoint
}.

(** [macdLine.map(m => ({ ...m, close: m.value }))] *)
Definition as_price (m : IndicatorPoint) : PricePoint :=
  mkPricePoint (ip_date m) (value m).

(** The function is embedded for [fast], [slow] and [sig] of at least one
    bar: with a period of 0 the call of calculateEMA throws in the source
    (see above). *)
Definition calculateMACD (data : list PricePoint) (fast slow sig : nat)
    : option MacdResult :=
  if length data <? slow + sig then None
  else
    match calculateEMA data fast, calculateEMA data slow with
    | Some emaFast, Some emaSlow =>
        let macdMap := value_map emaFast in
        let slowMap := value_map emaSlow in
        let macd :=
          map (fun i =>
                 let ts := date (at_index data i) in
                 mkIndicatorPoint ts
                   (default 0%Q (macdMap !! ts) - default 0%Q (slowMap !! ts))%Q)
              (seq (slow - 1) (length data - (slow - 1))) in
        match calculateEMA (map as_price macd) sig with
        | Some signal =>
            let sigMap := value_map signal in
            let hist :=
              map (fun ml =>
                     mkIndicatorPoint (ip_date ml)
                       (value ml - default 0%Q (sigMap !! ip_date ml))%Q) macd in
            Some (mkMacdResult macd signal hist)
        | None => None
        end
    | _, _ => None
    end.

(** ** calculateBollingerBands *)

Record BandPoint := mkBandPoint {
  bb_date : Z;
  upper : Q;
  middle : Q;
  lower : Q
}.

Section Bollinger.
(** [Math.sqrt]: the rationals are not closed under square roots, so the
    root function of the host is a parameter of the embedding. *)
Variable Math_sqrt : Q -> Q.

Definition calculateSD (arr : list Q) : Q :=
  let mean := (Qsum arr / Qnat (length arr))%Q in
  Math_sqrt (fold_left (fun s v => (s + (v - mean) ^ 2)%Q) arr 0%Q
             / Qnat (length arr))%Q.

Definition calculateBollingerBands (data : list PricePoint) (period : nat)
    (devs : Q) : option (list BandPoint) :=
  if length data <? period then None
  else Some (map (fun i =>
                    let slice := window data period i in
                    let middle := (Qsum slice / Qnat period)%Q in
                    let sd := calculateSD slice in
                    mkBandPoint (date (at_index data i))
                      (middle + devs * sd)%Q middle (middle - devs * sd)%Q)
                 (seq (period - 1) (length data - (period - 1)))).
End Bollinger.

(** ** resampleData *)

(** [Math.ceil(n / m)] on counts. *)
Definition ceil_div (n m : nat) : nat := (n + m - 1) / m.

(** [arr.filter((_, i) => keep(i))], the index of the head being [i]. *)
Fixpoint filter_index {A : Type} (keep : nat -> bool) (i : nat) (l : list A)
    : list A :=
  match l with
  | [] => []
  | x :: l' =>
      if keep i then x :: filter_index keep (S i) l'
      else filter_index keep (S i) l'
  end.

Definition resampleData {A : Type} (data : list A) (maxPoints : nat) : list A :=
  if length data <=? maxPoints then data
  else
    let step := ceil_div (length data) maxPoints in
    filter_index (fun i => (i mod step =? 0) || (i =? length data - 1)) 0 data.

(** ** calculateFibonacci *)

Record FibLevel := mkFibLevel {
  level : string;
  fib_value : Q;
  color : string
}.

Record FibonacciResult := mkFibonacciResult {
  fib_high : Q;
  fib_low : Q;
  levels : list FibLevel
}.

(** [Math.max(c, ...cs)] and [Math.min(c, ...cs)] of a non-empty argument
    list. *)
Definition Math_max (c : Q) (cs : list Q) : Q := fold_left Qmax cs c.
Definition Math_min (c : Q) (cs : list Q) : Q := fold_left Qmin cs c.

(** [.filter(v => typeof v === 'number')]: a close that is not a number is
    [None]. *)
Definition numeric_closes (raw : list (option Q)) : list Q :=
  omap (fun v => v) raw.

(** The argument is [data.map(d => d.close)], where an entry of the fetched
    history whose [close] is not a number is [None]. *)
Definition calculateFibonacci (raw : list (option Q)) : option FibonacciResult :=
  if length raw <? 2 then None
  else
    match numeric_closes raw with
    | c0 :: c1 :: rest =>
        let high := Math_max c0 (c1 :: rest) in
        let low := Math_min c0 (c1 :: rest) in
        let diff := (high - low)%Q in
        Some (mkFibonacciResult high low
          [ mkFibLevel "100% (Low)"%string low "#ff5252"%string;
            mkFibLevel "78.6%"%string (high - diff * (786 # 1000))%Q "#ffb74d"%string;
            mkFibLevel "61.8%"%string (high - diff * (618 # 1000))%Q "#ffd740"%string;
            mkFibLevel "50%"%string (high - diff * (5 # 10))%Q "#aeea00"%string;
            mkFibLevel "38.2%"%string (high - diff * (382 # 1000))%Q "#ffd740"%string;
            mkFibLevel "23.6%"%string (high - diff * (236 # 1000))%Q "#ffb74d"%string;
            mkFibLevel "0% (High)"%string high "#448aff"%string ])
    | _ => None
    end.

(** ** Pivot tests of calculateDivergence *)

(** [arr[i]] of an array of numbers. *)
Definition num_at (arr : list Q) (i : nat) : Q := nth i arr 0%Q.

(** [for (let j = 1; j <= lb; j++) if (bad(j)) return false;] falls through
    exactly when no [j] is bad. *)
Definition none_bad (lb : nat) (bad : nat -> bool) : bool :=
  forallb (fun j => negb (bad j)) (seq 1 lb).

Definition isPivotLow (arr : list Q) (i lbL lbR : nat) : bool :=
  if (i <? lbL) || (length arr - lbR <=? i) then false
  else
    let val := num_at arr i in
    none_bad lbL (fun j => Qltb (num_at arr (i - j)) val)
    && none_bad lbR (fun j => Qleb (num_at arr (i + j)) val).

Definition isPivotHigh (arr : list Q) (i lbL lbR : nat) : bool :=
  if (i <? lbL) || (length arr - lbR <=? i) then false
  else
    let val := num_at arr i in
    none_bad lbL (fun j => Qltb val (num_at arr (i - j)))
    && none_bad lbR (fun j => Qleb val (num_at arr (i + j))).

(** ** calculateGoldenDeathCross *)

Inductive CrossKind := golden | death.

Record Signal := mkSignal {
  sig_date : Z;
  sig_type : CrossKind;
  price : Q
}.

(** The [type] of a zone is the value of [currentZoneType], which starts as
    [null]. *)
Record Zone := mkZone {
  z_start : Z;
  z_end : Z;
  z_type : option CrossKind
}.

Record CrossState := mkCrossState {
  signals : list Signal;
  zones : list Zone;
  zoneStart : option Z;
  currentZoneType : option CrossKind
}.

Record CrossResult := mkCrossResult {
  res_signals : list Signal;
  res_zones : list Zone
}.

(** One iteration of the loop over [i = 1 .. data.length - 1]. *)
Definition cross_step (data : list PricePoint) (sma50Map sma200Map : gmap Z Q)
    (st : CrossState) (i : nat) : CrossState :=
  let ts := date (at_index data i) in
  let prevTs := date (at_index data (i - 1)) in
  match sma50Map !! ts, sma200Map !! ts, sma50Map !! prevTs, sma200Map !! prevTs with
  | Some sma50, Some sma200, Some prevSma50, Some prevSma200 =>
      let isGolden := Qltb sma200 sma50 in
      let signalType :=
        if Qleb prevSma50 prevSma200 && Qltb sma200 sma50 then Some golden
        else if Qleb prevSma200 prevSma50 && Qltb sma50 sma200 then Some death
        else None in
      match signalType with
      | Some k =>
          let zones' :=
            match zoneStart st with
            | Some s => zones st ++ [mkZone s ts (currentZoneType st)]
            | None => zones st
            end in
          mkCrossState (signals st ++ [mkSignal ts k (close (at_index data i))])
                       zones' (Some ts) (Some k)
      | None =>
          match zoneStart st with
          | Some _ => st
          | None =>
              mkCrossState (signals st) (zones st) (Some ts)
                           (Some (if isGolden then golden else death))
          end
      end
  | _, _, _, _ => st
  end.

(** The two moving-average arguments may be [null] ([None]). *)
Definition calculateGoldenDeathCross (data : list PricePoint)
    (sma50List sma200List : option (list IndicatorPoint)) : CrossResult :=
  match sma50List, sma200List with
  | Some l50, Some l200 =>
      let st := fold_left (cross_step data (value_map l50) (value_map l200))
                          (seq 1 (length data - 1))
                          (mkCrossState [] [] None None) in
      let zones' :=
        match zoneStart st with
        | Some s =>
            if 0 <? length data
            then zones st ++ [mkZone s (date (at_index data (length data - 1)))
                                     (currentZoneType st)]
            else zones st
        | None => zones st
        end in
      mkCrossResult (signals st) zones'
  | _, _ => mkCrossResult [] []
  end.

(** ** getPeriodKey and the grouping of calculatePeakPoints *)

(** The calendar of the host: the proleptic Gregorian calendar over day
    numbers (days since 1970-01-01, a Thursday). *)
Module Calendar.
Local Open Scope Z_scope.

Definition ms_per_day : Z := 86400000.

(** Day number of the civil date [y-m-d]. *)
Definition days_from_civil (y m d : Z) : Z :=
  let y' := if m <=? 2 then y - 1 else y in
  let era := y' / 400 in
  let yoe := y' - era * 400 in
  let mp := if 2 <? m then m - 3 else m + 9 in
  let doy := (153 * mp + 2) / 5 + d - 1 in
  let doe := yoe * 365 + yoe / 4 - yoe / 100 + doy in
  era * 146097 + doe - 719468.

(** Civil date (year, month 1..12, day) of the day number [dn]. *)
Definition civil_from_days (dn : Z) : Z * Z * Z :=
  let z := dn + 719468 in
  let era := z / 146097 in
  let doe := z - era * 146097 in
  let yoe := (doe - doe / 1460 + doe / 36524 - doe / 146096) / 365 in
  let doy := doe - (365 * yoe + yoe / 4 - yoe / 100) in
  let mp := (5 * doy + 2) / 153 in
  let d := doy - (153 * mp + 2) / 5 + 1 in
  let m := if mp <? 10 then mp + 3 else mp - 9 in
  (if m <=? 2 then yoe + era * 400 + 1 else yoe + era * 400, m, d).

(** [getDay()]: 0 is Sunday. *)
Definition weekday (dn : Z) : Z := (dn + 4) mod 7.

(** [Math.ceil(a / b)] for integers [a] and [b > 0]. *)
Definition ceil_quot (a b : Z) : Z := - ((- a) / b).
End Calendar.

Inductive PeriodType := week | month | year | other_period.

(** The key strings, by what they print: [`${y}-W${w}`], [`${y}-${m}`],
    [`${y}`] and ['']. Within one call all keys have the same shape, and
    each shape prints its numbers injectively. *)
Inductive PeriodKey :=
| WeekKey (y w : Z)
| MonthKey (y m : Z)
| YearKey (y : Z)
| EmptyKey.

#[global] Instance PeriodKey_eq_dec : EqDecision PeriodKey.
Proof. solve_decision. Defined.

Section PeriodKey.
Import Calendar.
Local Open Scope Z_scope.

(** Offset of the host's local time from UTC in milliseconds (a fixed
    offset: no daylight-saving changes). *)
Variable tz_offset : Z.

Definition local_ms (t : Z) : Z := t + tz_offset.
Definition local_day (t : Z) : Z := local_ms t / ms_per_day.

(** [d.getFullYear()] and [d.getMonth()] (0 is January). *)
Definition getFullYear (t : Z) : Z := (civil_from_days (local_day t)).1.1.
Definition getMonth (t : Z) : Z := (civil_from_days (local_day t)).1.2 - 1.

(** [new Date(d.getFullYear(), 0, 1)]: local midnight of 1 January. *)
Definition onejan_day (t : Z) : Z := days_from_civil (getFullYear t) 1 1.
Definition onejan (t : Z) : Z := onejan_day t * ms_per_day - tz_offset.

(** The number after [W] in the weekly key:
    [Math.ceil(((millis / 86400000) + onejan.getDay() + 1) / 7)]. *)
Definition week_number (t : Z) : Z :=
  let millis := t - onejan t in
  ceil_quot (millis + (weekday (onejan_day t) + 1) * ms_per_day)
            (7 * ms_per_day).

Definition getPeriodKey (periodType : PeriodType) (t : Z) : PeriodKey :=
  match periodType with
  | week => WeekKey (getFullYear t) (week_number t)
  | month => MonthKey (getFullYear t) (getMonth t + 1)
  | year => YearKey (getFullYear t)
  | other_period => EmptyKey
  end.

(** [if (!groups.has(key)) groups.set(key, []); groups.get(key).push(item);]
    on a [Map], which keeps its keys in insertion order. *)
Fixpoint groups_push (key : PeriodKey) (item : PricePoint)
    (groups : list (PeriodKey * list PricePoint))
    : list (PeriodKey * list PricePoint) :=
  match groups with
  | [] => [(key, [item])]
  | (k, items) :: rest =>
      if decide (k = key) then (k, items ++ [item]) :: rest
      else (k, items) :: groups_push key item rest
  end.

(** The [groups] map of calculatePeakPoints after the [forEach]. *)
Definition group_by_period (periodType : PeriodType) (data : list PricePoint)
    : list (PeriodKey * list PricePoint) :=
  fold_left (fun groups item =>
               groups_push (getPeriodKey periodType (date item)) item groups)
            data [].



(** The ISO 8601 week key, in the words of the specification: the ISO
    week-numbering year and the week number of the local civil date, weeks
    running from Monday to Sunday. *)
Definition iso_weeks_in_year (y : Z) : Z :=
  let p := fun y => (y + y / 4 - y / 100 + y / 400) mod 7 in
  if (p y =? 4) || (p (y - 1) =? 3) then 53 else 52.

Definition iso_week_key (t : Z) : Z * Z :=
  let dn := local_day t in
  let y := getFullYear t in
  let ordinal := dn - onejan_day t + 1 in
  let wd := (dn + 3) mod 7 + 1 in
  let w := (ordinal - wd + 10) / 7 in
  if w <? 1 then (y - 1, iso_weeks_in_year (y - 1))
  else if iso_weeks_in_year y <? w then (y + 1, 1)
  else (y, w).
End PeriodKey.

(** ** The moving average and the bands in binary64 *)

(** JavaScript numbers are IEEE 754 binary64 values, which are Rocq's
    primitive floats: the same rounding after every operation.  The two
    functions below are calculateSMA and calculateBollingerBands once more,
    on such numbers; a decimal literal denotes the nearest binary64 value, as
    it does in JavaScript. *)
Module Binary64.

Record PricePoint := mkPricePoint {
  date : Z;
  close : float
}.

Record IndicatorPoint := mkIndicatorPoint {
  ip_date : Z;
  value : float
}.

Definition point0 : PricePoint := mkPricePoint 0 0%float.
Definition at_index (data : list PricePoint) (i : nat) : PricePoint :=
  nth i data point0.

(** A period (a count of bars, below [2^53]) used as a number. *)
Definition of_nat (n : nat) : float :=
  PrimFloat.of_uint63 (Uint63.of_Z (Z.of_nat n)).

(** [arr.reduce((s, v) => s + v, 0)] *)
Definition sum (l : list float) : float := fold_left PrimFloat.add l 0%float.

(** [data.slice(i - period + 1, i + 1).map(d => d.close)] *)
Definition window (data : list PricePoint) (period i : nat) : list float :=
  map close (firstn period (skipn (i + 1 - period) data)).

(** One iteration of the [for] loop of calculateSMA. *)
Definition sma_step (data : list PricePoint) (period : nat)
    (st : float * list IndicatorPoint) (i : nat) : float * list IndicatorPoint :=
  let '(sum, out) := st in
  let sum := (sum + close (at_index data i))%float in
  let sum := if period <=? i
             then (sum - close (at_index data (i - period)))%float else sum in
  if period - 1 <=? i
  then (sum, out ++ [mkIndicatorPoint (date (at_index data i))
                       (sum / of_nat period)%float])
  else (sum, out).

Definition calculateSMA (data : list PricePoint) (period : nat)
    : option (list IndicatorPoint) :=
  if length data <? period then None
  else Some (snd (fold_left (sma_step data period) (seq 0 (length data))
                            (0%float, []))).

Record BandPoint := mkBandPoint {
  bb_date : Z;
  upper : float;
  middle : float;
  lower : float
}.

(** The helper of calculateBollingerBands; [(v - mean) ** 2] is the rounded
    product of [v - mean] with itself, and [Math.sqrt] the correctly rounded
    root. *)
Definition calculateSD (arr : list float) : float :=
  let mean := (sum arr / of_nat (length arr))%float in
  PrimFloat.sqrt
    (fold_left (fun s v => (s + (v - mean) * (v - mean))%float) arr 0%float
     / of_nat (length arr))%float.

Definition calculateBollingerBands (data : list PricePoint) (period : nat)
    (devs : float) : option (list BandPoint) :=
  if length data <? period then None
  else Some (map (fun i =>
                    let slice := window data period i in
                    let middle := (sum slice / of_nat period)%float in
                    let sd := calculateSD slice in
                    mkBandPoint (date (at_index data i))
                      (middle + devs * sd)%float middle
                      (middle - devs * sd)%float)
                 (seq (period - 1) (length data - (period - 1)))).

(** The running [sum] of calculateSMA when it emits its point number [j]
    (for bar [period - 1 + j]): the sum of the first [period] closes, added
    up from 0 in order, and then for each further bar the close that enters
    the window added and the close that leaves it subtracted. *)
Fixpoint running_sum (data : list PricePoint) (period j : nat) : float :=
  match j with
  | 0 => sum (map close (firstn period data))
  | S j' =>
      (running_sum data period j' + close (at_index data (period + j'))
       - close (at_index data j'))%float
  end.

(** Daily bars with the given closes, the first at day 0. *)
Definition bars (closes : list float) : list PricePoint :=
  imap (fun i c => mkPricePoint (Z.of_nat i * 86400000) c) closes.

End Binary64.

(** ** Notions used in the statements *)

(** Prefix sums of the closes: the sum of the first [m] closes. *)
Definition prefix_sum (data : list PricePoint) (m : nat) : Q :=
  Qsum (map close (firstn m data)).

(** What one point of a moving average has to be: the date of bar [i] and
    the mean of the [period] closes that end at bar [i]. *)
Definition is_window_mean (data : list PricePoint) (period : nat)
    (pt : IndicatorPoint) (i : nat) : Prop :=
  ip_date pt = date (at_index data i)
  /\ (value pt == Qsum (window data period i) / Qnat period)%Q.

(** The population standard deviation in the words of the specification:
    the root of the mean squared distance from the mean. *)
Definition mean (l : list Q) : Q := (Qsum l / Qnat (length l))%Q.
Definition population_variance (l : list Q) : Q :=
  (Qsum (map (fun x => (x - mean l) ^ 2) l) / Qnat (length l))%Q.
Definition population_sd (sqrt : Q -> Q) (l : list Q) : Q :=
  sqrt (population_variance l).

(** Zones that follow one another: each zone starts before it ends and ends
    where the next one starts; the last one ends at [s]. *)
Fixpoint zone_chain (zs : list Zone) (s : Z) : Prop :=
  match zs with
  | [] => True
  | z :: zs' =>
      (z_start z < z_end z)%Z
      /\ z_end z = match zs' with [] => s | z' :: _ => z_start z' end
      /\ zone_chain zs' s
  end.

(** The invariant of the crossover loop after the bars [1 .. m]. *)
Definition cross_inv (data : list PricePoint) (m : nat) (st : CrossState) : Prop :=
  match zoneStart st with
  | None => zones st = []
  | Some s =>
      (exists j, 1 <= j <= m /\ s = date (at_index data j))
      /\ zone_chain (zones st) s
  end.

(** A finished list of zones: every zone is well oriented, and each next
    zone starts, strictly later, where the previous one ends. *)
Fixpoint back_to_back (zs : list Zone) : Prop :=
  match zs with
  | [] => True
  | z :: zs' =>
      (z_start z <= z_end z)%Z
      /\ match zs' with
         | [] => True
         | z' :: _ => z_end z = z_start z' /\ (z_start z < z_start z')%Z
         end
      /\ back_to_back zs'
  end.


(** Extrema of a list of numbers. *)
Definition is_maximum (v : Q) (l : list Q) : Prop :=
  In v l /\ forall x, In x l -> (x <= v)%Q.
Definition is_minimum (v : Q) (l : list Q) : Prop :=
  In v l /\ forall x, In x l -> (v <= x)%Q.

(** The invariant of the RSI loops: non-negative running averages and
    every emitted value in [[0,100]]. *)
Definition rsi_state_ok (st : RsiState) : Prop :=
  (0 <= avgGain st)%Q /\ (0 <= avgLoss st)%Q
  /\ Forall (fun pt => (0 <= value pt <= 100)%Q) (rsi_out st).

(** ** Concrete inputs *)

(** A stand-in for [Math.sqrt] on concrete inputs: the square root rounded
    down to six decimals. *)
Definition sqrt_6_decimals (q : Q) : Q :=
  (Z.sqrt (Qnum q * 10 ^ 12 / Zpos (Qden q)) # 10 ^ 6)%Z.

(** Daily bars with the given integer closes, dated day 0, 1, 2, ... (in
    days, as timestamps [0], [86400000], ...). *)
Definition bars (closes : list Z) : list PricePoint :=
  map (fun p => mkPricePoint (Z.of_nat p.1 * 86400000) (inject_Z p.2))
      (combine (seq 0 (length closes)) closes).

(** Three rising closes. *)
Definition bars_rising : list PricePoint := bars [1; 2; 3]%Z.

(** Closes 1, a non-number, 3. *)
Definition closes_1_x_3 : list (option Q) := [Some 1%Q; None; Some 3%Q].

(** Midnight UTC of a civil date as a timestamp, and the offset of
    Bangkok local time (UTC+7). *)
Definition utc_midnight (y m d : Z) : Z :=
  (Calendar.days_from_civil y m d * Calendar.ms_per_day)%Z.
Definition bangkok : Z := (7 * 3600000)%Z.

(** Daily bars around the turn of the year 2024/2025 and around a weekend
    in June 2024, stamped at midnight UTC. *)
Definition bar_mon_2024_12_30 : PricePoint := mkPricePoint (utc_midnight 2024 12 30) 10.
Definition bar_thu_2025_01_02 : PricePoint := mkPricePoint (utc_midnight 2025 1 2) 11.

Definition bars_zigzag : list PricePoint := bars [1; 2; 3; 2; 1; 2; 3]%Z.

Definition bars_1_to_4 : list PricePoint := bars [1; 2; 3; 4]%Z.

(** The series [close = 1, 2, 3, 4, 5] of the specification. *)
Definition bars_1_to_5 : list PricePoint := bars [1; 2; 3; 4; 5]%Z.

(** Inputs for the binary64 functions: a constant series, a series that
    starts with a large close, and five closes a tenth apart. *)
Definition closes_constant : list float := [0.7; 0.7; 0.7; 0.7]%float.
Definition closes_large_first : list float := [1e16; 1; 1; 1; 1]%float.

(** Four closes that only rise, and the same with one small fall. *)
Definition bars_no_loss : list PricePoint := bars [1000; 1100; 1101; 1200]%Z.
Definition bars_one_loss : list PricePoint := bars [1000; 1100; 1099; 1200]%Z.

(** * Further notions *)

(** The values that the EMA loop emits for the bars [l], starting from the
    running value [ema]: the loop of calculateEMA, read from the front. *)
Fixpoint ema_trace (data : list PricePoint) (period : nat) (k : Q)
    (ema : Q) (l : list nat) : list IndicatorPoint :=
  match l with
  | [] => []
  | i :: l' =>
      let ema' := if period - 1 <? i
                  then (close (at_index data i) * k + ema * (1 - k))%Q else ema in
      mkIndicatorPoint (date (at_index data i)) ema' :: ema_trace data period k ema' l'
  end.

(** Every close is strictly below the close of the bar before. *)
Definition strictly_falling (data : list PricePoint) : Prop :=
  forall i, 1 <= i < length data ->
    (close (at_index data i) < close (at_index data (i - 1)))%Q.

(** Five falling closes. *)
Definition bars_falling : list PricePoint := bars [9; 7; 6; 4; 1]%Z.

(** * Further functions of the page and of the backend *)

(** ** calculateStDev and calculateRSISmoothing *)

(** The smoothing types ['SMA'], ['EMA'], ['SMA + Bollinger Bands'], and any
    other string. *)
Inductive SmoothingType := SMA | EMA | SMA_BB | other_smoothing.

(** An RSI point with the attached fields; a field that is [null] or absent
    is [None]. *)
Record SmoothedPoint := mkSmoothed {
  sp_date : Z;
  sp_value : Q;
  smoothing : option Q;
  smoothingUpper : option Q;
  smoothingLower : option Q
}.

(** [values.slice(i - length + 1, i + 1)], for [i >= length - 1]. *)
Definition value_slice (values : list Q) (len i : nat) : list Q :=
  firstn len (skipn (i + 1 - len) values).

(** The [maValues] of the two SMA types. *)
Definition smoothing_sma_values (values : list Q) (len : nat) : list (option Q) :=
  map (fun i => if i <? len - 1 then None
                else Some (Qsum (value_slice values len i) / Qnat len)%Q)
      (seq 0 (length values)).

(** One iteration of the EMA loop: the state is the running [ema] and
    [maValues]. *)
Definition smoothing_ema_step (values : list Q) (len : nat) (k : Q)
    (st : Q * list (option Q)) (i : nat) : Q * list (option Q) :=
  let '(ema, maValues) := st in
  if i <? len - 1 then (ema, maValues ++ [None])
  else if i =? len - 1 then (ema, maValues ++ [Some ema])
  else
    let ema' := (num_at values i * k + ema * (1 - k))%Q in
    (ema', maValues ++ [Some ema']).

Definition smoothing_ema_values (values : list Q) (len : nat) : list (option Q) :=
  let k := (2 / (Qnat len + 1))%Q in
  let ema := (Qsum (firstn len values) / Qnat len)%Q in
  (fold_left (smoothing_ema_step values len k) (seq 0 (length values)) (ema, [])).2.

Section RsiSmoothing.
(** [Math.sqrt], as for the Bollinger Bands. *)
Variable Math_sqrt : Q -> Q.

Definition calculateStDev (arr : list Q) : Q :=
  let mean := (Qsum arr / Qnat (length arr))%Q in
  Math_sqrt (fold_left (fun s v => (s + (v - mean) ^ 2)%Q) arr 0%Q
             / Qnat (length arr))%Q.

(** The callback of the final [rsiData.map((d, i) => ...)]. *)
Definition attach_smoothing (type : SmoothingType) (values : list Q)
    (len : nat) (mult : Q) (maValues : list (option Q))
    (i : nat) (d : IndicatorPoint) : SmoothedPoint :=
  let ma := nth i maValues None in
  match type, ma with
  | SMA_BB, Some m =>
      if len - 1 <=? i then
        let std := calculateStDev (value_slice values len i) in
        mkSmoothed (ip_date d) (value d) ma
                   (Some (m + std * mult)%Q) (Some (m - std * mult)%Q)
      else mkSmoothed (ip_date d) (value d) ma None None
  | _, _ => mkSmoothed (ip_date d) (value d) ma None None
  end.

(** [rsiData] may be [null]; a series shorter than [length] is returned as
    it is, without the smoothing fields. *)
Definition calculateRSISmoothing (rsiData : option (list IndicatorPoint))
    (type : SmoothingType) (len : nat) (mult : Q)
    : option (list SmoothedPoint) :=
  match rsiData with
  | None => None
  | Some rsi =>
      if length rsi <? len
      then Some (map (fun d => mkSmoothed (ip_date d) (value d) None None None) rsi)
      else
        let values := map value rsi in
        let maValues :=
          match type with
          | SMA | SMA_BB => smoothing_sma_values values len
          | EMA => smoothing_ema_values values len
          | other_smoothing => []
          end in
        Some (imap (attach_smoothing type values len mult maValues) rsi)
  end.
End RsiSmoothing.

(** The EMA loop of the smoothing, read from the front. *)
Fixpoint smoothing_ema_trace (values : list Q) (len : nat) (k : Q)
    (ema : Q) (l : list nat) : list (option Q) :=
  match l with
  | [] => []
  | i :: l' =>
      if i <? len - 1 then None :: smoothing_ema_trace values len k ema l'
      else if i =? len - 1 then Some ema :: smoothing_ema_trace values len k ema l'
      else
        let ema' := (num_at values i * k + ema * (1 - k))%Q in
        Some ema' :: smoothing_ema_trace values len k ema' l'
  end.

(** Four RSI points on consecutive days. *)
Definition rsi_sample : list IndicatorPoint :=
  [mkIndicatorPoint 0 30; mkIndicatorPoint 86400000 50;
   mkIndicatorPoint 172800000 70; mkIndicatorPoint 259200000 40].

(** ** calculateDivergence *)

(** A bar of the price history as the divergence and peak code read it:
    [high] and [low] are optional; a field that is absent ([undefined]) is
    [None].  (The history that the backend sends carries [date], [close] and
    [volume] only.) *)
Record Candle := mkCandle {
  c_date : Z;
  c_close : Q;
  c_high : option Q;
  c_low : option Q
}.

(** An RSI point joined with the bar of the same date. *)
Record CombinedPoint := mkCombined {
  cp_date : Z;
  cp_value : Q;
  priceHigh : option Q;
  priceLow : option Q;
  priceClose : Q
}.

Inductive DivergenceType := bull | bear.

Record Divergence := mkDivergence {
  dv_date : Z;
  dv_type : DivergenceType;
  dv_value : Q
}.

(** [lastPL] and [lastPH]: [{ index, rsi, price }]. *)
Record PivotRecord := mkPivotRecord {
  pv_index : nat;
  pv_rsi : Q;
  pv_price : option Q
}.

(** [a < b] where either side may be [undefined]: the comparison is then
    false. *)
Definition lt_defined (a b : option Q) : bool :=
  match a, b with
  | Some x, Some y => Qltb x y
  | _, _ => false
  end.

(** [rsiData.map(r => ...).filter(d => d.priceClose !== undefined)]: an RSI
    point without a bar of its date is dropped. *)
Definition combine_with_prices (rsiData : list IndicatorPoint)
    (priceData : list Candle) : list CombinedPoint :=
  let priceMap := js_map_of (map (fun p => (c_date p, p)) priceData) in
  omap (fun r =>
          match priceMap !! ip_date r with
          | Some p => Some (mkCombined (ip_date r) (value r)
                              (c_high p) (c_low p) (c_close p))
          | None => None
          end) rsiData.

Record DivergenceState := mkDivergenceState {
  divergences : list Divergence;
  lastPL : option PivotRecord;
  lastPH : option PivotRecord
}.

(** The first block of the loop body: [// Check Bullish (Pivot Low)]. *)
Definition check_bullish (combined : list CombinedPoint) (lbL lbR : nat)
    (st : DivergenceState) (i : nat) : DivergenceState :=
  let rsiVals := map cp_value combined in
  let lowVals := map priceLow combined in
  let date_i := nth i (map cp_date combined) 0%Z in
  let rsi_i := num_at rsiVals i in
  let low_i := nth i lowVals None in
  if isPivotLow rsiVals i lbL lbR then
    let ds :=
      match lastPL st with
      | Some pl =>
          if lt_defined low_i (pv_price pl) && Qltb (pv_rsi pl) rsi_i
          then divergences st ++ [mkDivergence date_i bull rsi_i]
          else divergences st
      | None => divergences st
      end in
    mkDivergenceState ds (Some (mkPivotRecord i rsi_i low_i)) (lastPH st)
  else st.

(** The second block: [// Check Bearish (Pivot High)]. *)
Definition check_bearish (combined : list CombinedPoint) (lbL lbR : nat)
    (st : DivergenceState) (i : nat) : DivergenceState :=
  let rsiVals := map cp_value combined in
  let highVals := map priceHigh combined in
  let date_i := nth i (map cp_date combined) 0%Z in
  let rsi_i := num_at rsiVals i in
  let high_i := nth i highVals None in
  if isPivotHigh rsiVals i lbL lbR then
    let ds :=
      match lastPH st with
      | Some ph =>
          if lt_defined (pv_price ph) high_i && Qltb rsi_i (pv_rsi ph)
          then divergences st ++ [mkDivergence date_i bear rsi_i]
          else divergences st
      | None => divergences st
      end in
    mkDivergenceState ds (lastPL st) (Some (mkPivotRecord i rsi_i high_i))
  else st.

(** One iteration of the loop of calculateDivergence. *)
Definition divergence_step (combined : list CombinedPoint) (lbL lbR : nat)
    (st : DivergenceState) (i : nat) : DivergenceState :=
  check_bearish combined lbL lbR (check_bullish combined lbL lbR st i) i.

(** [for (let i = lookbackL; i < combined.length - lookbackR; i++)], up to
    (not including) index [lookbackL + m]. *)
Definition divergence_state_after (combined : list CombinedPoint)
    (lbL lbR m : nat) : DivergenceState :=
  fold_left (divergence_step combined lbL lbR) (seq lbL m)
            (mkDivergenceState [] None None).

(** Either argument may be [null]. *)
Definition calculateDivergence (rsiData : option (list IndicatorPoint))
    (priceData : option (list Candle)) (lbL lbR : nat) : list Divergence :=
  match rsiData, priceData with
  | Some rsi, Some prices =>
      let combined := combine_with_prices rsi prices in
      divergences (divergence_state_after combined lbL lbR
                     (length combined - lbR - lbL))
  | _, _ => []
  end.

(** [j] is the most recent RSI pivot low (high) before index [i]. *)
Definition last_pivot_low_before (rsiVals : list Q) (lbL lbR i j : nat) : Prop :=
  j < i /\ isPivotLow rsiVals j lbL lbR = true
  /\ forall k, j < k < i -> isPivotLow rsiVals k lbL lbR = false.

Definition last_pivot_high_before (rsiVals : list Q) (lbL lbR i j : nat) : Prop :=
  j < i /\ isPivotHigh rsiVals j lbL lbR = true
  /\ forall k, j < k < i -> isPivotHigh rsiVals k lbL lbR = false.

(** A bullish divergence is due at index [i]: an RSI pivot low whose price
    low is below, and whose RSI is above, those of the pivot low before. *)
Definition bullish_at (combined : list CombinedPoint) (lbL lbR i : nat) : Prop :=
  let rsiVals := map cp_value combined in
  let lowVals := map priceLow combined in
  isPivotLow rsiVals i lbL lbR = true
  /\ exists j, last_pivot_low_before rsiVals lbL lbR i j
       /\ lt_defined (nth i lowVals None) (nth j lowVals None) = true
       /\ (num_at rsiVals j < num_at rsiVals i)%Q.

Definition bearish_at (combined : list CombinedPoint) (lbL lbR i : nat) : Prop :=
  let rsiVals := map cp_value combined in
  let highVals := map priceHigh combined in
  isPivotHigh rsiVals i lbL lbR = true
  /\ exists j, last_pivot_high_before rsiVals lbL lbR i j
       /\ lt_defined (nth j highVals None) (nth i highVals None) = true
       /\ (num_at rsiVals i < num_at rsiVals j)%Q.

(** The divergence record that the code writes for index [i]. *)
Definition divergence_at (combined : list CombinedPoint) (ty : DivergenceType)
    (i : nat) : Divergence :=
  mkDivergence (nth i (map cp_date combined) 0%Z) ty
               (num_at (map cp_value combined) i).

(** The invariants of the loop before index [i]: what [lastPL] ([lastPH])
    holds, and which bullish (bearish) divergences have been written. *)
Definition bullish_invariant (combined : list CombinedPoint) (lbL lbR i : nat)
    (st : DivergenceState) : Prop :=
  let rsiVals := map cp_value combined in
  match lastPL st with
  | None => forall k, k < i -> isPivotLow rsiVals k lbL lbR = false
  | Some pl =>
      last_pivot_low_before rsiVals lbL lbR i (pv_index pl)
      /\ pv_rsi pl = num_at rsiVals (pv_index pl)
      /\ pv_price pl = nth (pv_index pl) (map priceLow combined) None
  end
  /\ forall d, In d (divergences st) /\ dv_type d = bull
       <-> exists k, k < i /\ bullish_at combined lbL lbR k
                     /\ d = divergence_at combined bull k.

Definition bearish_invariant (combined : list CombinedPoint) (lbL lbR i : nat)
    (st : DivergenceState) : Prop :=
  let rsiVals := map cp_value combined in
  match lastPH st with
  | None => forall k, k < i -> isPivotHigh rsiVals k lbL lbR = false
  | Some ph =>
      last_pivot_high_before rsiVals lbL lbR i (pv_index ph)
      /\ pv_rsi ph = num_at rsiVals (pv_index ph)
      /\ pv_price ph = nth (pv_index ph) (map priceHigh combined) None
  end
  /\ forall d, In d (divergences st) /\ dv_type d = bear
       <-> exists k, k < i /\ bearish_at combined lbL lbR k
                     /\ d = divergence_at combined bear k.

(** Five days on which the RSI dips twice, the second dip less deep; bars
    whose low falls from the first dip to the second, and the same bars with
    date and close only. *)
Definition rsi_dip_twice : list IndicatorPoint :=
  map (fun '(d, v) => mkIndicatorPoint d v)
      [(1%Z, 50%Q); (2%Z, 30%Q); (3%Z, 50%Q); (4%Z, 35%Q); (5%Z, 50%Q)].

Definition candles_lower_low : list Candle :=
  map (fun '(d, c, h, l) => mkCandle d c (Some h) (Some l))
      [(1%Z, 12%Q, 13%Q, 11%Q); (2%Z, 11%Q, 12%Q, 10%Q);
       (3%Z, 12%Q, 13%Q, 11%Q); (4%Z, 10%Q, 11%Q, 9%Q);
       (5%Z, 12%Q, 13%Q, 11%Q)].

Definition candles_close_only : list Candle :=
  map (fun p => mkCandle (c_date p) (c_close p) None None) candles_lower_low.

(** ** calculatePeakPoints *)

(** The grouping [forEach] of calculatePeakPoints over any kind of item
    ([group_by_period] is its instance on points of date and close). *)
Fixpoint push_to_group {A : Type} (key : PeriodKey) (item : A)
    (groups : list (PeriodKey * list A)) : list (PeriodKey * list A) :=
  match groups with
  | [] => [(key, [item])]
  | (k, items) :: rest =>
      if decide (k = key) then (k, items ++ [item]) :: rest
      else (k, items) :: push_to_group key item rest
  end.

Definition group_by_key {A : Type} (kf : A -> PeriodKey) (data : list A)
    : list (PeriodKey * list A) :=
  fold_left (fun groups item => push_to_group (kf item) item groups) data [].

(** [groups.get(key)] *)
Fixpoint group_items {A : Type} (key : PeriodKey)
    (groups : list (PeriodKey * list A)) : option (list A) :=
  match groups with
  | [] => None
  | (k, items) :: rest =>
      if decide (k = key) then Some items else group_items key rest
  end.

(** A marker of the price chart. *)
Record PeakPoint := mkPeak {
  pk_date : string;
  pk_type : string;
  pk_value : Q
}.

(** [(item.high !== undefined && item.high !== null) ? item.high : item.close]
    and the same for [low]. *)
Definition high_or_close (item : Candle) : Q :=
  match c_high item with Some h => h | None => c_close item end.

Definition low_or_close (item : Candle) : Q :=
  match c_low item with Some l => l | None => c_close item end.

(** One round of [items.forEach] on the pair [(highItem, lowItem)]. *)
Definition peak_step (st : Candle * Candle) (item : Candle) : Candle * Candle :=
  let '(highItem, lowItem) := st in
  (if Qltb (high_or_close highItem) (high_or_close item) then item else highItem,
   if Qltb (low_or_close item) (low_or_close lowItem) then item else lowItem).

Definition typePrefix (periodType : PeriodType) : string :=
  match periodType with
  | week => "weekly"
  | month => "monthly"
  | _ => "yearly"
  end%string.

Section PeakPoints.

(** The host's offset from UTC and its [toLocaleDateString('th-TH', ...)]. *)
Variable tz_offset : Z.
Variable formatDate : Z -> string.

(** The body of [groups.forEach((items) => ...)]: the two markers pushed for
    one bucket. *)
Definition bucket_peaks (periodType : PeriodType) (items : list Candle)
    : list PeakPoint :=
  match items with
  | [] => []
  | first :: _ =>
      let '(highItem, lowItem) := fold_left peak_step items (first, first) in
      [mkPeak (formatDate (c_date highItem))
              (typePrefix periodType ++ "High") (high_or_close highItem);
       mkPeak (formatDate (c_date lowItem))
              (typePrefix periodType ++ "Low") (low_or_close lowItem)]
  end%string.

Definition peak_key (periodType : PeriodType) (item : Candle) : PeriodKey :=
  getPeriodKey tz_offset periodType (c_date item).

(** [data] is [None] when it is not an array. *)
Definition calculatePeakPoints (data : option (list Candle))
    (periodType : PeriodType) : list PeakPoint :=
  match data with
  | None => []
  | Some [] => []
  | Some data =>
      flat_map (fun g => bucket_peaks periodType g.2)
               (group_by_key (peak_key periodType) data)
  end.

End PeakPoints.

(** The bars of the week around new year 2025 with their highs and lows, and
    a date format that prints the timestamp's day number. *)
Definition candle_2025_01_03 : Candle :=
  mkCandle (utc_midnight 2025 1 3) 12 (Some 14%Q) None.

Definition candles_new_year : list Candle :=
  [mkCandle (utc_midnight 2024 12 30) 10 (Some 12%Q) (Some 9%Q);
   mkCandle (utc_midnight 2024 12 31) 11 None None;
   mkCandle (utc_midnight 2025 1 2) 13 (Some 14%Q) (Some 8%Q);
   candle_2025_01_03].

Definition day_number_format (t : Z) : string :=
  match (t / Calendar.ms_per_day)%Z with
  | 20087%Z => "30 Dec 2024"
  | 20088%Z => "31 Dec 2024"
  | 20090%Z => "2 Jan 2025"
  | 20091%Z => "3 Jan 2025"
  | _ => "other"
  end%string.

(** The item kept by a [forEach] that replaces the kept item whenever a
    strictly greater value of [v] comes by. *)
Definition keep_greater (v : Candle -> Q) (kept item : Candle) : Candle :=
  if Qltb (v kept) (v item) then item else kept.

(** ** Signals and zones of calculateGoldenDeathCross *)

(** Bar [i] is a strict crossover of kind [k]: both averages are known on
    the bar and on the bar before, and the short average, which was not
    above (below) the long one, is now strictly above (below) it. *)
Definition crossover (data : list PricePoint) (sma50Map sma200Map : gmap Z Q)
    (i : nat) (k : CrossKind) : Prop :=
  exists sma50 sma200 prevSma50 prevSma200,
    sma50Map !! date (at_index data i) = Some sma50
    /\ sma200Map !! date (at_index data i) = Some sma200
    /\ sma50Map !! date (at_index data (i - 1)) = Some prevSma50
    /\ sma200Map !! date (at_index data (i - 1)) = Some prevSma200
    /\ match k with
       | golden => (prevSma50 <= prevSma200 /\ sma200 < sma50)%Q
       | death => (prevSma200 <= prevSma50 /\ sma50 < sma200)%Q
       end.

(** The signal pushed for bar [i]. *)
Definition signal_at (data : list PricePoint) (i : nat) (k : CrossKind) : Signal :=
  mkSignal (date (at_index data i)) k (close (at_index data i)).

(** Start and type of a zone; date and type of a signal as a zone has them. *)
Definition zone_opening (z : Zone) : Z * option CrossKind := (z_start z, z_type z).
Definition signal_opening (s : Signal) : Z * option CrossKind :=
  (sig_date s, Some (sig_type s)).

(** The zones opened so far: the closed ones and the one still open. *)
Definition opened (st : CrossState) : list (Z * option CrossKind) :=
  map zone_opening (zones st)
  ++ match zoneStart st with
     | Some s => [(s, currentZoneType st)]
     | None => []
     end.

(** ** The zoom window of the page: handleWheel and updatePan *)

(** [Math.round]: the nearest integer, a half rounding up. *)
Definition Math_round (x : Q) : Z := Qfloor (x + (1 # 2)).

(** The state [zoomWindow]: the bars [startIndex .. endIndex - 1] are shown. *)
Record ZoomWindow := mkZoomWindow {
  startIndex : Z;
  endIndex : Z
}.

Section ZoomAndPan.
Local Open Scope Z_scope.

(** [chartData.price?.length || 0] *)
Variable dataLength : Z.

(** The updater that handleWheel passes to [setZoomWindow] in pan mode;
    [direction] is [1] or [-1]. *)
Definition wheel_pan (direction : Z) (prev : ZoomWindow) : ZoomWindow :=
  let currentRange := endIndex prev - startIndex prev in
  let panDelta := Z.max 1 (Math_round (inject_Z currentRange * 0.2)) in
  let shift := panDelta * direction in
  let newStart := startIndex prev + shift in
  let newEnd := endIndex prev + shift in
  let '(newStart, newEnd) :=
    if newStart <? 0 then (0, currentRange) else (newStart, newEnd) in
  let '(newStart, newEnd) :=
    if dataLength <? newEnd then (dataLength - currentRange, dataLength)
    else (newStart, newEnd) in
  mkZoomWindow (Z.max 0 newStart) (Z.min dataLength newEnd).

(** The updater of zoom mode; [direction] is [1] (out) or [-1] (in) and
    [mouseXRatio] the position of the pointer across the chart. *)
Definition wheel_zoom (direction : Z) (mouseXRatio : Q) (prev : ZoomWindow)
    : ZoomWindow :=
  let MIN_WINDOW_SIZE := 10 in
  let currentRange := endIndex prev - startIndex prev in
  let delta := Z.max 1 (Math_round (inject_Z currentRange * 0.1)) in
  let leftDelta := Math_round (inject_Z delta * mouseXRatio) in
  let rightDelta := delta - leftDelta in
  let '(newStart, newEnd) :=
    if direction <? 0 then
      let newStart := startIndex prev + leftDelta in
      let newEnd := endIndex prev - rightDelta in
      if newEnd - newStart <? MIN_WINDOW_SIZE then
        let center := Math_round (inject_Z (newStart + newEnd) / 2) in
        (center - MIN_WINDOW_SIZE / 2, center + Calendar.ceil_quot MIN_WINDOW_SIZE 2)
      else (newStart, newEnd)
    else (startIndex prev - leftDelta, endIndex prev + rightDelta) in
  let newStart := Z.max 0 newStart in
  let newEnd := Z.min dataLength newEnd in
  let newEnd := if dataLength <? newEnd then dataLength else newEnd in
  let newStart := if newStart <? 0 then 0 else newStart in
  mkZoomWindow newStart newEnd.

(** updatePan while dragging: [deltaX] is the distance dragged since the
    mouse went down, [offsetWidth] the width of the chart (if the chart is
    mounted) and [grabbed] the window at that moment.  [None]: the window is
    left as it is. *)
Definition updatePan (isDragging : bool) (deltaX : Q) (offsetWidth : option Q)
    (grabbed : ZoomWindow) : option ZoomWindow :=
  if negb isDragging then None
  else if dataLength =? 0 then None
  else if Qltb (Qabs deltaX) 3 then None
  else
    let containerWidth :=
      match offsetWidth with
      | Some w => if Qeqb w 0 then 800%Q else w
      | None => 800%Q
      end in
    let currentRange := endIndex grabbed - startIndex grabbed in
    let pixelsPerPoint := (containerWidth / inject_Z (Z.max 1 currentRange))%Q in
    let sensitivity := 0.8%Q in
    let indexShift := Math_round ((- deltaX / pixelsPerPoint) * sensitivity) in
    if indexShift =? 0 then None
    else
      let newStart := startIndex grabbed + indexShift in
      let newEnd := endIndex grabbed + indexShift in
      let '(newStart, newEnd) :=
        if newStart <? 0 then (0, 0 + currentRange) else (newStart, newEnd) in
      let '(newStart, newEnd) :=
        if dataLength <? newEnd
        then (Z.max 0 (newStart - (newEnd - dataLength)), dataLength)
        else (newStart, newEnd) in
      let newStart := Z.max 0 (Z.min (dataLength - 1) newStart) in
      let newEnd := Z.max (newStart + 1) (Z.min dataLength newEnd) in
      Some (mkZoomWindow newStart newEnd).

(** A window that lies within the data. *)
Definition window_within (w : ZoomWindow) : Prop :=
  0 <= startIndex w /\ startIndex w <= endIndex w /\ endIndex w <= dataLength.

End ZoomAndPan.

Definition window_size (w : ZoomWindow) : Z := (endIndex w - startIndex w)%Z.

(** ** HorizontalNavigator: dragging the thumb and its handles *)

(** [dragAction]: ['move'], ['left-resize'], ['right-resize'] or [null]. *)
Inductive DragAction :=
| drag_move
| drag_left_resize
| drag_right_resize
| drag_none.

Section HorizontalNavigator.
Local Open Scope Z_scope.

Variable totalItems : Z.

(** [Math.max(10, Math.floor(totalItems * 0.01))] *)
Definition minWindowSize : Z := Z.max 10 (Qfloor (inject_Z totalItems * 0.01)).

(** handleMouseMove of the navigator.  [rectWidth] is the (positive) width
    of the container, [None] while it is not mounted; [deltaPixels] is
    [e.clientX - startX]; [initialWindow] is the window at mouse down
    ([start], [end]) and [visible] the window shown now.  The result is the
    call [onZoomChange(newStart, newEnd)], [None] when nothing is called. *)
Definition navigator_mouse_move (isDragging : bool) (rectWidth : option Q)
    (dragAction : DragAction) (deltaPixels : Q)
    (initialWindow visible : ZoomWindow) : option ZoomWindow :=
  match rectWidth with
  | None => None
  | Some width =>
      if negb isDragging || (totalItems <=? 0) then None
      else
        let pixelsPerItem := (width / inject_Z totalItems)%Q in
        let deltaItems := Math_round (deltaPixels / pixelsPerItem) in
        let is_move :=
          match dragAction with drag_move => true | _ => false end in
        if (deltaItems =? 0) && negb is_move then None
        else
          let '(newStart, newEnd) :=
            match dragAction with
            | drag_move =>
                let span := endIndex initialWindow - startIndex initialWindow in
                let newStart := startIndex initialWindow + deltaItems in
                let newEnd := newStart + span in
                let '(newStart, newEnd) :=
                  if newStart <? 0 then (0, span) else (newStart, newEnd) in
                if totalItems <? newEnd then (totalItems - span, totalItems)
                else (newStart, newEnd)
            | drag_left_resize =>
                let newStart := startIndex initialWindow + deltaItems in
                let newStart :=
                  if endIndex initialWindow - minWindowSize <? newStart
                  then endIndex initialWindow - minWindowSize else newStart in
                let newStart := if newStart <? 0 then 0 else newStart in
                (newStart, endIndex initialWindow)
            | drag_right_resize =>
                let newEnd := endIndex initialWindow + deltaItems in
                let newEnd :=
                  if newEnd <? startIndex initialWindow + minWindowSize
                  then startIndex initialWindow + minWindowSize else newEnd in
                let newEnd := if totalItems <? newEnd then totalItems else newEnd in
                (startIndex initialWindow, newEnd)
            | drag_none => (startIndex initialWindow, endIndex initialWindow)
            end in
          if negb (newStart =? startIndex visible)
             || negb (newEnd =? endIndex visible)
          then Some (mkZoomWindow newStart newEnd)
          else None
  end.

End HorizontalNavigator.

(** ** The backend: cacheManager, circuitBreaker and findPriceForDate *)

Definition CACHE_TTL : Z := (60 * 60 * 1000)%Z.
Definition FX_CACHE_TTL : Z := (15 * 60 * 1000)%Z.
Definition BLOCK_DURATION : Z := (1 * 1000)%Z.

Section CacheManager.

(** What is cached: prices, rates, whole responses. *)
Variable Data : Type.

(** A value of the [cache] map.  [set] writes [{ data, timestamp }]; a value
    read from the cache file may come without a timestamp. *)
Record CacheEntry := mkCacheEntry {
  ce_data : Data;
  ce_timestamp : option Z
}.

(** [key.startsWith('fx_') ? FX_CACHE_TTL : CACHE_TTL] *)
Definition ttl_of (key : string) : Z :=
  if String.prefix "fx_" key then FX_CACHE_TTL else CACHE_TTL.

(** [cacheManager.get(key)] at the time [now] of [Date.now()]: the value
    returned ([None] for [null]) and the cache afterwards.  (The copy of the
    cache that [save] writes to disk is not modelled.) *)
Definition cache_get (now : Z) (key : string) (cache : gmap string CacheEntry)
    : option Data * gmap string CacheEntry :=
  match cache !! key with
  | None => (None, cache)
  | Some cached =>
      match ce_timestamp cached with
      | Some ts =>
          if negb (ts =? 0)%Z && (now - ts <? ttl_of key)%Z
          then (Some (ce_data cached), cache)
          else (None, delete key cache)
      | None => (None, delete key cache)
      end
  end.

(** [cacheManager.set(key, data)] at the time [now]. *)
Definition cache_set (now : Z) (key : string) (data : Data)
    (cache : gmap string CacheEntry) : gmap string CacheEntry :=
  <[key := mkCacheEntry data (Some now)]> cache.

End CacheManager.

Arguments mkCacheEntry {Data} _ _.
Arguments ce_data {Data} _.
Arguments ce_timestamp {Data} _.
Arguments cache_get {Data} _ _ _.
Arguments cache_set {Data} _ _ _ _.

(** The state of [circuitBreaker]. *)
Record Breaker := mkBreaker {
  isBlocked : bool;
  blockUntil : Z
}.

Definition breaker_initial : Breaker := mkBreaker false 0.

(** [trip()] at the time [now]. *)
Definition trip (now : Z) (b : Breaker) : Breaker :=
  mkBreaker true (now + BLOCK_DURATION).

(** [check(res)] at the time [now]: whether the request is rejected (with
    status 503), and the breaker afterwards. *)
Definition check (now : Z) (b : Breaker) : bool * Breaker :=
  if isBlocked b then
    if (now <? blockUntil b)%Z then (true, b)
    else (false, mkBreaker false 0)
  else (false, b).

(** The answers to requests checked one after the other at the given times. *)
Fixpoint checks (times : list Z) (b : Breaker) : list bool :=
  match times with
  | [] => []
  | now :: rest => (check now b).1 :: checks rest (check now b).2
  end.

(** A row of the series made by parseQuoteSeries. *)
Record Quote := mkQuote {
  q_date : Z;
  q_close : Q;
  q_volume : option Q
}.

(** The loop [for (let i = series.length - 1; i >= 0; i -= 1)] of
    findPriceForDate, with [n] indices still to visit. *)
Fixpoint scan_back (series : list Quote) (targetDate : Z) (n : nat)
    : option Quote :=
  match n with
  | 0 => None
  | S i =>
      match series !! i with
      | Some row =>
          if (q_date row <=? targetDate)%Z then Some row
          else scan_back series targetDate i
      | None => scan_back series targetDate i
      end
  end.

Definition findPriceForDate (series : list Quote) (targetDate : option Z)
    : option Quote :=
  match targetDate with
  | None => None
  | Some t => scan_back series t (length series)
  end.

(** Three daily closes, two days apart. *)
Definition quotes_1_3_5 : list Quote :=
  [mkQuote 1 10 None; mkQuote 3 11 None; mkQuote 5 12 None].

(** ** validateTicker *)

(** Strings are sequences of code units below 256; a string with any other
    code unit fails [TICKER_REGEX] just as one with a space does. *)
Definition is_upper (c : ascii) : bool :=
  (65 <=? nat_of_ascii c) && (nat_of_ascii c <=? 90).
Definition is_lower (c : ascii) : bool :=
  (97 <=? nat_of_ascii c) && (nat_of_ascii c <=? 122).
Definition is_digit (c : ascii) : bool :=
  (48 <=? nat_of_ascii c) && (nat_of_ascii c <=? 57).

(** The class [[A-Za-z0-9.\-]]. *)
Definition ticker_char (c : ascii) : bool :=
  is_upper c || is_lower c || is_digit c
  || Ascii.eqb c "."%char || Ascii.eqb c "-"%char.

Fixpoint string_forall (p : ascii -> bool) (s : string) : bool :=
  match s with
  | EmptyString => true
  | String c s' => p c && string_forall p s'
  end.

(** [TICKER_REGEX.test(ticker)] for [/^[A-Za-z0-9.\-]{1,20}$/]. *)
Definition TICKER_REGEX_test (ticker : string) : bool :=
  (1 <=? String.length ticker) && (String.length ticker <=? 20)
  && string_forall ticker_char ticker.

(** White space among the code units below 256: tab, line feed, vertical
    tab, form feed, carriage return, space and no-break space. *)
Definition is_space (c : ascii) : bool :=
  ((9 <=? nat_of_ascii c) && (nat_of_ascii c <=? 13))
  || (nat_of_ascii c =? 32) || (nat_of_ascii c =? 160).

Fixpoint trimStart (s : string) : string :=
  match s with
  | EmptyString => EmptyString
  | String c s' => if is_space c then trimStart s' else s
  end.

Fixpoint trimEnd (s : string) : string :=
  match s with
  | EmptyString => EmptyString
  | String c s' =>
      match trimEnd s' with
      | EmptyString => if is_space c then EmptyString else String c EmptyString
      | rest => String c rest
      end
  end.

Definition trim (s : string) : string := trimEnd (trimStart s).

(** [toUpperCase] on the strings that reach it here, which have passed
    [TICKER_REGEX]: only the letters [a] to [z] change. *)
Definition upper_char (c : ascii) : ascii :=
  if is_lower c then ascii_of_nat (nat_of_ascii c - 32) else c.

Fixpoint toUpperCase (s : string) : string :=
  match s with
  | EmptyString => EmptyString
  | String c s' => String (upper_char c) (toUpperCase s')
  end.

(** [s.includes(pattern)] *)
Fixpoint includes (pattern s : string) : bool :=
  String.prefix pattern s
  || match s with
     | EmptyString => false
     | String _ s' => includes pattern s'
     end.

(** What the middleware does with the request: it answers with a status and
    an error, or it stores the normalised ticker and calls [next()]. *)
Inductive TickerResponse :=
| ticker_rejected (status : Z) (error : string)
| ticker_next (ticker : string).

(** The code unit 92, a backslash. *)
Definition backslash : ascii := ascii_of_nat 92.

(** [['HTTP', 'HTTPS', '..', '//', '\\']]: the last pattern is one backslash. *)
Definition blocked_patterns : list string :=
  ["HTTP"; "HTTPS"; ".."; "//"; String backslash EmptyString]%string.

(** [ticker] is [None] when the route has no such parameter. *)
Definition validateTicker (ticker : option string) : TickerResponse :=
  match ticker with
  | None =>
      ticker_rejected 400
        "Invalid ticker format. Use 1-20 alphanumeric characters, dots, or hyphens only."
  | Some t =>
      if String.eqb t EmptyString || negb (TICKER_REGEX_test t) then
        ticker_rejected 400
          "Invalid ticker format. Use 1-20 alphanumeric characters, dots, or hyphens only."
      else
        let upper := toUpperCase (trim t) in
        if existsb (fun pattern => includes pattern upper) blocked_patterns
        then ticker_rejected 400 "Ticker contains forbidden patterns."
        else ticker_next upper
  end.

(** The characters of an accepted ticker: [A-Z], [0-9], [.] and [-]. *)
Definition normal_ticker_char (c : ascii) : bool :=
  is_upper c || is_digit c || Ascii.eqb c "."%char || Ascii.eqb c "-"%char.

(** ** getFxRate *)

Section FxRate.

(** [await fetchForexRate(symbol)]: the rate quoted for a pair symbol, or
    [null].  The table is taken as fixed while one conversion is computed,
    and the caching of the results is left out. *)
Variable fetchForexRate : string -> option Q.

(** A currency code that is not falsy. *)
Definition currency_given (c : option string) : bool :=
  match c with
  | Some EmptyString => false
  | Some _ => true
  | None => false
  end.

(** A number that is not falsy. *)
Definition nonzero (x : Q) : bool := negb (Qeqb x 0).

(** [getFxRate(fromCurrency, toCurrency)] with a bound on the depth of the
    calls to itself: [None] when the bound is reached, otherwise [Some] of
    the rate or of [null]. *)
Fixpoint getFxRate_within (depth : nat) (fromCurrency toCurrency : option string)
    : option (option Q) :=
  match depth with
  | 0 => None
  | S depth' =>
      match fromCurrency, toCurrency with
      | Some from, Some to =>
          if negb (currency_given fromCurrency) || negb (currency_given toCurrency)
          then Some None
          else if String.eqb from to then Some (Some 1%Q)
          else if String.eqb from "USD" then
            Some (fetchForexRate (String.append to "=X"))
          else if String.eqb to "USD" then
            match fetchForexRate (String.append from "=X") with
            | Some rate => Some (if nonzero rate then Some (1 / rate)%Q else None)
            | None => Some None
            end
          else
            match getFxRate_within depth' fromCurrency (Some "USD"%string) with
            | None => None
            | Some toUsd =>
                match getFxRate_within depth' (Some "USD"%string) toCurrency with
                | None => None
                | Some usdToTarget =>
                    match toUsd, usdToTarget with
                    | Some a, Some b =>
                        Some (if nonzero a && nonzero b
                              then Some (a * b)%Q else None)
                    | _, _ => Some None
                    end
                end
            end
      | _, _ => Some None
      end
  end.

End FxRate.

(** A table with the baht and the pound against the dollar. *)
Definition fx_table (symbol : string) : option Q :=
  if String.eqb symbol "THB=X" then Some 36%Q
  else if String.eqb symbol "GBP=X" then Some 0.8%Q
  else None.

(** ** MacdHistogramChart: the range of the Y axis *)

(** [chartRows.map(d => d.histogram).filter(v => Number.isFinite(v))]: a
    histogram entry that is not a finite number is [None]. *)
Definition finite_values (histogram : list (option Q)) : list Q :=
  omap (fun v => v) histogram.

(** [values.length ? Math.max(...values.map(v => Math.abs(v))) : 1] *)
Definition absMax (values : list Q) : Q :=
  match map Qabs values with
  | [] => 1
  | a :: rest => Math_max a rest
  end.

(** [Math.max(absMax * 1.15, 0.5)]; the axis runs over [[-pad, pad]]. *)
Definition pad (values : list Q) : Q := Qmax (absMax values * 1.15) 0.5.

(** * Properties *)

(** ** Comparisons of numbers *)

Lemma Qltb_lt a b : Qltb a b = true <-> (a < b)%Q.
Proof.
  unfold Qltb. rewrite Qlt_alt.
  destruct (a ?= b)%Q; split; intros H; congruence.
Qed.

Lemma Qltb_ge a b : Qltb a b = false <-> (b <= a)%Q.
Proof.
  split; intros H.
  - apply Qnot_lt_le. intros Hlt. apply Qltb_lt in Hlt. congruence.
  - destruct (Qltb a b) eqn:E; [|reflexivity].
    apply Qltb_lt in E. lra.
Qed.

Lemma Qleb_le a b : Qleb a b = true <-> (a <= b)%Q.
Proof. apply Qle_bool_iff. Qed.

Lemma Qleb_gt a b : Qleb a b = false <-> (b < a)%Q.
Proof.
  split; intros H.
  - apply Qnot_le_lt. intros Hle. apply Qleb_le in Hle. congruence.
  - destruct (Qleb a b) eqn:E; [|reflexivity].
    apply Qleb_le in E. lra.
Qed.

Lemma Qnat_nonneg n : (0 <= Qnat n)%Q.
Proof. unfold Qnat, Qle. simpl. lia. Qed.

Lemma Qdiv_nonneg a b : (0 <= a)%Q -> (0 < b)%Q -> (0 <= a / b)%Q.
Proof.
  intros Ha Hb. apply Qle_shift_div_l; [exact Hb|]. lra.
Qed.

(** ** Sums and prefix sums *)

Lemma Qsum_snoc l x : Qsum (l ++ [x]) = (Qsum l + x)%Q.
Proof. unfold Qsum. now rewrite fold_left_app. Qed.

Lemma fold_Qplus_shift l a : (fold_left Qplus l a == a + Qsum l)%Q.
Proof.
  unfold Qsum. revert a.
  induction l as [|x l IH]; intros a; simpl.
  - lra.
  - rewrite (IH (a + x)%Q), (IH (0 + x)%Q). lra.
Qed.

Lemma Qsum_app l1 l2 : (Qsum (l1 ++ l2) == Qsum l1 + Qsum l2)%Q.
Proof.
  unfold Qsum at 1. rewrite fold_left_app.
  apply fold_Qplus_shift.
Qed.

Lemma firstn_snoc_nth {A} (l : list A) d m :
  m < length l -> firstn (S m) l = firstn m l ++ [nth m l d].
Proof.
  revert m. induction l as [|x l IH]; intros m Hm; simpl in *.
  - lia.
  - destruct m as [|m]; simpl; [reflexivity|].
    f_equal. apply IH. lia.
Qed.

Lemma prefix_sum_S data m :
  m < length data ->
  prefix_sum data (S m) = (prefix_sum data m + close (at_index data m))%Q.
Proof.
  intros Hm. unfold prefix_sum, at_index.
  rewrite (firstn_snoc_nth data point0 m Hm), map_app. simpl.
  apply Qsum_snoc.
Qed.

Lemma prefix_sum_0 data : prefix_sum data 0 = 0%Q.
Proof. reflexivity. Qed.

Lemma window_sum data period i :
  period <= i + 1 ->
  (Qsum (window data period i)
   == prefix_sum data (i + 1) - prefix_sum data (i + 1 - period))%Q.
Proof.
  intros Hp. unfold window, prefix_sum.
  replace (i + 1) with ((i + 1 - period) + period) at 2 by lia.
  rewrite <- take_take_drop, map_app, Qsum_app. lra.
Qed.

Lemma Qnat_pos n : 1 <= n -> (0 < Qnat n)%Q.
Proof.
  intros H. unfold Qnat, Qlt. simpl. lia.
Qed.

(** State of the SMA loop after [m] iterations. *)
Lemma sma_loop_invariant data period m :
  1 <= period -> m <= length data ->
  forall sum out,
    fold_left (sma_step data period) (seq 0 m) (0%Q, []) = (sum, out) ->
    (sum == prefix_sum data m - prefix_sum data (m - period))%Q
    /\ Forall2 (is_window_mean data period) out
               (seq (period - 1) (m - (period - 1))).
Proof.
  intros Hp. induction m as [|m IH]; intros Hm sum out Hrun.
  - simpl in Hrun. injection Hrun as <- <-. split.
    + change (0 - period) with 0. rewrite prefix_sum_0. lra.
    + simpl. constructor.
  - rewrite seq_S, fold_left_app in Hrun. simpl in Hrun.
    destruct (fold_left (sma_step data period) (seq 0 m) (0%Q, []))
      as [sum0 out0] eqn:Hprev.
    destruct (IH ltac:(lia) sum0 out0 eq_refl) as [Hsum Hout].
    unfold sma_step in Hrun.
    assert (Hsum' :
      ((if period <=? m
        then sum0 + close (at_index data m) - close (at_index data (m - period))
        else sum0 + close (at_index data m))
       == prefix_sum data (S m) - prefix_sum data (S m - period))%Q).
    { rewrite (prefix_sum_S data m) by lia.
      destruct (Nat.leb_spec period m) as [Hle|Hlt].
      - replace (S m - period) with (S (m - period)) by lia.
        rewrite (prefix_sum_S data (m - period)) by lia.
        rewrite Hsum. lra.
      - replace (S m - period) with 0 by lia.
        replace (m - period) with 0 in Hsum by lia.
        rewrite Hsum. rewrite prefix_sum_0. lra. }
    destruct (Nat.leb_spec (period - 1) m) as [Hle|Hlt].
    + injection Hrun as <- <-. split; [exact Hsum'|].
      replace (S m - (period - 1)) with (S (m - (period - 1))) by lia.
      rewrite seq_S. apply Forall2_app; [exact Hout|].
      replace (period - 1 + (m - (period - 1))) with m by lia.
      constructor; [|constructor].
      split; [reflexivity|]. simpl.
      rewrite Hsum'. rewrite window_sum by lia.
      replace (m + 1) with (S m) by lia. reflexivity.
    + injection Hrun as <- <-. split; [exact Hsum'|].
      replace (S m - (period - 1)) with 0 by lia.
      replace (m - (period - 1)) with 0 in Hout by lia. exact Hout.
Qed.

(** ** calculateSMA *)

Lemma calculateSMA_points data period :
  1 <= period -> period <= length data ->
  exists out,
    calculateSMA data period = Some out
    /\ Forall2 (is_window_mean data period) out
               (seq (period - 1) (length data - (period - 1))).
Proof.
  intros Hp Hn. unfold calculateSMA.
  destruct (Nat.ltb_spec (length data) period); [lia|].
  destruct (fold_left (sma_step data period) (seq 0 (length data)) (0%Q, []))
    as [sum out] eqn:Hrun.
  destruct (sma_loop_invariant data period (length data) Hp (le_n _) _ _ Hrun)
    as [_ Hout].
  exists out. split; [reflexivity|exact Hout].
Qed.

(** In exact arithmetic the moving average is what the specification says:
    for a period of at least one bar, a series shorter than the period gives
    no output at all ([null]); a series of length [n >= period] gives one
    point per input index [period-1 .. n-1] and nothing else, and the point
    for index [i] carries the date of bar [i] and the arithmetic mean of the
    [period] closes of the window that ends at [i]. *)
Lemma calculateSMA_exact_window_means (data : list PricePoint) (period : nat) :
  1 <= period ->
  (length data < period -> calculateSMA data period = None)
  /\ (period <= length data ->
      exists out,
        calculateSMA data period = Some out
        /\ length out = length data - (period - 1)
        /\ forall i, period - 1 <= i < length data ->
             exists pt, out !! (i - (period - 1)) = Some pt
                        /\ is_window_mean data period pt i).
Proof.
  intros Hp. split; intros Hn.
  - unfold calculateSMA.
    destruct (Nat.ltb_spec (length data) period); [reflexivity|lia].
  - destruct (calculateSMA_points data period Hp Hn) as (out & Hsome & Hout).
    exists out. split; [exact Hsome|]. split.
    + rewrite (Forall2_length _ _ _ Hout). apply length_seq.
    + intros i Hi.
      destruct (Forall2_lookup_r _ _ _ (i - (period - 1)) i Hout) as (pt & Hpt & HR).
      { rewrite lookup_seq. lia. }
      exists pt. split; assumption.
Qed.

(** *** calculateSMA in binary64 *)

Lemma b64_sum_snoc l x : Binary64.sum (l ++ [x]) = (Binary64.sum l + x)%float.
Proof. unfold Binary64.sum. now rewrite fold_left_app. Qed.

Lemma b64_firstn_snoc (data : list Binary64.PricePoint) m :
  m < length data ->
  firstn (S m) data = firstn m data ++ [Binary64.at_index data m].
Proof.
  unfold Binary64.at_index. revert m.
  induction data as [|a l IH]; intros m Hm; simpl in Hm; [lia|].
  destruct m as [|m]; simpl; [reflexivity|].
  f_equal. apply IH. lia.
Qed.

(** State of the loop after [m] iterations. *)
Lemma b64_sma_loop data period m :
  1 <= period -> m <= length data ->
  fold_left (Binary64.sma_step data period) (seq 0 m) (0%float, [])
  = if m <? period
    then (Binary64.sum (map Binary64.close (firstn m data)), [])
    else (Binary64.running_sum data period (m - period),
          map (fun j => Binary64.mkIndicatorPoint
                          (Binary64.date (Binary64.at_index data (period - 1 + j)))
                          (Binary64.running_sum data period j
                           / Binary64.of_nat period)%float)
              (seq 0 (m - (period - 1)))).
Proof.
  intros Hp. induction m as [|m IH]; intros Hm.
  - destruct (Nat.ltb_spec 0 period); [reflexivity|lia].
  - rewrite seq_S, fold_left_app, IH by lia. cbn [fold_left Nat.add].
    destruct (Nat.ltb_spec m period) as [Hlt|Hge].
    + (* the window is still filling *)
      unfold Binary64.sma_step.
      destruct (Nat.leb_spec period m); [lia|].
      rewrite <- b64_sum_snoc.
      change [Binary64.close (Binary64.at_index data m)]
        with (map Binary64.close [Binary64.at_index data m]).
      rewrite <- map_app, <- b64_firstn_snoc by lia.
      destruct (Nat.leb_spec (period - 1) m) as [Hfull|Hnot].
      * assert (Hm' : S m = period) by lia.
        destruct (Nat.ltb_spec (S m) period); [lia|].
        replace (S m - period) with 0 by lia.
        replace (S m - (period - 1)) with 1 by lia.
        cbn [seq map app Binary64.running_sum]. rewrite Hm'.
        replace (period - 1 + 0) with m by lia. reflexivity.
      * destruct (Nat.ltb_spec (S m) period); [reflexivity|lia].
    + (* the window slides *)
      unfold Binary64.sma_step.
      destruct (Nat.leb_spec period m); [|lia].
      destruct (Nat.leb_spec (period - 1) m); [|lia].
      destruct (Nat.ltb_spec (S m) period); [lia|].
      replace (S m - period) with (S (m - period)) by lia.
      replace (S m - (period - 1)) with (S (m - (period - 1))) by lia.
      rewrite seq_S, map_app. cbn [map Binary64.running_sum Nat.add].
      replace (period + (m - period)) with m by lia.
      replace (period - 1 + (m - (period - 1))) with m by lia.
      replace (m - (period - 1)) with (S (m - period)) by lia.
      cbn [Binary64.running_sum].
      replace (period + (m - period)) with m by lia.
      reflexivity.
Qed.

(** C6 (as amended). In binary64, for a period of at least one bar: a series
    shorter than the period gives no output at all ([null]); a series of
    length [n >= period] gives one point per input index [period-1 .. n-1]
    and nothing else, and the point for index [i] carries the date of bar
    [i] and the running sum divided by the period, the running sum being
    the sum of the first [period] closes and then, bar by bar, plus the
    close that enters the window and minus the close that leaves it. *)
Theorem calculateSMA_running_sums (data : list Binary64.PricePoint)
    (period : nat) :
  1 <= period ->
  (length data < period -> Binary64.calculateSMA data period = None)
  /\ (period <= length data ->
      exists out,
        Binary64.calculateSMA data period = Some out
        /\ length out = length data - (period - 1)
        /\ forall i, period - 1 <= i < length data ->
             out !! (i - (period - 1))
             = Some (Binary64.mkIndicatorPoint
                       (Binary64.date (Binary64.at_index data i))
                       (Binary64.running_sum data period (i - (period - 1))
                        / Binary64.of_nat period)%float)).
Proof.
  intros Hp. unfold Binary64.calculateSMA. split; intros Hn.
  - destruct (Nat.ltb_spec (length data) period); [reflexivity|lia].
  - destruct (Nat.ltb_spec (length data) period); [lia|].
    rewrite (b64_sma_loop data period (length data) Hp (le_n _)).
    destruct (Nat.ltb_spec (length data) period); [lia|]. cbn [snd].
    eexists. split; [reflexivity|]. split.
    + now rewrite length_map, length_seq.
    + intros i Hi.
      change (map ?f ?l) with (f <$> l).
      rewrite list_lookup_fmap, lookup_seq_lt by lia. cbn.
      replace (period - 1 + (i - (period - 1))) with i by lia. reflexivity.
Qed.

Lemma calculateSMA_running_sums_witness :
  (length (Binary64.bars closes_large_first) < 2 ->
     Binary64.calculateSMA (Binary64.bars closes_large_first) 2 = None)
  /\ (2 <= length (Binary64.bars closes_large_first) ->
      exists out,
        Binary64.calculateSMA (Binary64.bars closes_large_first) 2 = Some out
        /\ length out = length (Binary64.bars closes_large_first) - (2 - 1)
        /\ forall i, 2 - 1 <= i < length (Binary64.bars closes_large_first) ->
             out !! (i - (2 - 1))
             = Some (Binary64.mkIndicatorPoint
                       (Binary64.date
                          (Binary64.at_index (Binary64.bars closes_large_first) i))
                       (Binary64.running_sum (Binary64.bars closes_large_first)
                          2 (i - (2 - 1))
                        / Binary64.of_nat 2)%float)).
Proof.
  apply (calculateSMA_running_sums (Binary64.bars closes_large_first) 2). lia.
Defined.

(** C6 as stated fails in binary64, where the running sum carries its
    rounding errors along.  After a close of [1e16] has passed through the
    window, the windows that hold the closes 1 and 1, whose mean is 1, get
    the value 0; and the moving average of the constant series 0.7 is
    0.6999999999999998, not 0.7. *)
Lemma calculateSMA_not_window_mean :
  (exists out,
     Binary64.calculateSMA (Binary64.bars closes_large_first) 2 = Some out
     /\ map Binary64.value out = [5e15; 0; 0; 0]%float
     /\ Binary64.window (Binary64.bars closes_large_first) 2 2 = [1; 1]%float
     /\ (Binary64.sum [1; 1] / 2 = 1)%float
     /\ PrimFloat.eqb 0 1 = false)
  /\ (exists out,
        Binary64.calculateSMA (Binary64.bars closes_constant) 3 = Some out
        /\ map Binary64.value out
           = [0.6999999999999998; 0.6999999999999998]%float
        /\ PrimFloat.eqb 0.6999999999999998 0.7 = false).
Proof.
  split.
  - eexists. split; [vm_compute; reflexivity|]. repeat split.
  - eexists. split; [vm_compute; reflexivity|]. repeat split.
Qed.

(** The worked example of the specification: closes 1..5 with period 3 give
    the means 2, 3, 4 (as the fractions 6/3, 9/3, 12/3) at days 2, 3, 4. *)
Example calculateSMA_1_to_5 :
  calculateSMA bars_1_to_5 3
  = Some [mkIndicatorPoint (2 * 86400000) (6 # 3);
          mkIndicatorPoint (3 * 86400000) (9 # 3);
          mkIndicatorPoint (4 * 86400000) (12 # 3)].
Proof. reflexivity. Qed.

(** ** calculateBollingerBands *)

Lemma fold_left_map_acc {A} (f : A -> Q) l a :
  fold_left (fun s v => (s + f v)%Q) l a = fold_left Qplus (map f l) a.
Proof.
  revert a. induction l as [|x l IH]; intros a; simpl; [reflexivity|apply IH].
Qed.

Lemma calculateSD_population_sd sqrt arr :
  calculateSD sqrt arr = population_sd sqrt arr.
Proof.
  unfold calculateSD, population_sd, population_variance, mean, Qsum.
  now rewrite fold_left_map_acc.
Qed.

Lemma window_length data period i :
  period <= i + 1 -> i < length data -> length (window data period i) = period.
Proof.
  intros H1 H2. unfold window.
  rewrite length_map, length_take, length_drop. lia.
Qed.

(** In exact arithmetic the bands are what the specification says: at every
    index where they are defined ([period-1 .. n-1], for a period of at
    least one bar and a series no shorter than the period), [upper - lower]
    equals [2 * devs * sigma], where [sigma] is the population standard
    deviation of the [period] closes ending at that index, and [middle]
    equals the value that [calculateSMA] gives for the same period at the
    same index and date.  The square-root function is arbitrary. *)
Lemma bollinger_exact_width_and_middle (Math_sqrt : Q -> Q)
    (data : list PricePoint) (period : nat) (devs : Q) :
  1 <= period -> period <= length data ->
  exists bb sma,
    calculateBollingerBands Math_sqrt data period devs = Some bb
    /\ calculateSMA data period = Some sma
    /\ length bb = length data - (period - 1)
    /\ forall i, period - 1 <= i < length data ->
         exists b pt,
           bb !! (i - (period - 1)) = Some b
           /\ sma !! (i - (period - 1)) = Some pt
           /\ bb_date b = date (at_index data i)
           /\ ip_date pt = bb_date b
           /\ (upper b - lower b
               == 2 * devs * population_sd Math_sqrt (window data period i))%Q
           /\ (middle b == value pt)%Q.
Proof.
  intros Hp Hn.
  destruct (calculateSMA_points data period Hp Hn) as (sma & Hsma & Hpts).
  unfold calculateBollingerBands.
  destruct (Nat.ltb_spec (length data) period); [lia|].
  eexists. exists sma. split; [reflexivity|]. split; [exact Hsma|]. split.
  - now rewrite length_map, length_seq.
  - intros i Hi.
    destruct (Forall2_lookup_r _ _ _ (i - (period - 1)) i Hpts)
      as (pt & Hpt & Hdate & Hval).
    { rewrite lookup_seq. lia. }
    eexists. exists pt. split.
    { rewrite list_lookup_fmap, lookup_seq_lt by lia.
      replace (period - 1 + (i - (period - 1))) with i by lia. reflexivity. }
    split; [exact Hpt|]. simpl.
    split; [reflexivity|]. split; [exact Hdate|].
    split.
    + rewrite calculateSD_population_sd. ring.
    + rewrite Hval. reflexivity.
Qed.

(** *** calculateBollingerBands in binary64 *)




(** ** calculateRSI *)

Lemma rsi_value_range g l :
  (0 <= g)%Q -> (0 <= l)%Q -> (0 <= rsi_value g l <= 100)%Q.
Proof.
  intros Hg Hl. unfold rsi_value.
  set (rs := if Qeqb l 0 then 100%Q else (g / l)%Q).
  assert (Hrs : (0 <= rs)%Q).
  { subst rs. unfold Qeqb. destruct (Qeq_bool l 0) eqn:E; [lra|].
    apply Qeq_bool_neq in E. apply Qdiv_nonneg; [exact Hg|].
    destruct (Qle_lt_or_eq _ _ Hl) as [H|H]; [exact H|].
    exfalso. apply E. symmetry. exact H. }
  assert (H1 : (100 / (1 + rs) <= 100)%Q).
  { apply Qle_shift_div_r; lra. }
  assert (H2 : (0 <= 100 / (1 + rs))%Q).
  { apply Qdiv_nonneg; lra. }
  lra.
Qed.

Lemma rsi_value_zero_loss g l :
  (l == 0)%Q -> rsi_value g l = (10000 # 101)%Q.
Proof.
  intros Hl. unfold rsi_value, Qeqb.
  apply Qeq_bool_iff in Hl. rewrite Hl. reflexivity.
Qed.

Lemma rsi_seed_nonneg changes l g0 l0 :
  (0 <= g0)%Q -> (0 <= l0)%Q ->
  let st := fold_left (rsi_seed_step changes) l (g0, l0) in
  (0 <= st.1)%Q /\ (0 <= st.2)%Q.
Proof.
  revert g0 l0. induction l as [|i l IH]; intros g0 l0 Hg Hl; simpl.
  - split; assumption.
  - destruct (Qltb 0 (nth i changes 0%Q)) eqn:E.
    + apply Qltb_lt in E. apply IH; lra.
    + apply Qltb_ge in E. apply IH; lra.
Qed.

Lemma rsi_init_ok data period : 1 <= period -> rsi_state_ok (rsi_init data period).
Proof.
  intros Hp. unfold rsi_init.
  pose proof (rsi_seed_nonneg (price_changes data) (seq 0 period) 0 0
                ltac:(lra) ltac:(lra)) as H.
  destruct (fold_left _ _ _) as [g l]. simpl in H. destruct H as [Hg Hl].
  repeat split; simpl; try (apply Qdiv_nonneg; [assumption|now apply Qnat_pos]).
  constructor.
Qed.

Lemma rsi_step_ok data changes period st i :
  1 <= period -> rsi_state_ok st ->
  rsi_state_ok (rsi_step data changes period st i).
Proof.
  intros Hp (Hg & Hl & Hout). unfold rsi_step.
  pose proof (Qnat_pos period Hp) as Hpp.
  pose proof (Qnat_nonneg (period - 1)) as Hp1.
  pose proof (Qmult_le_0_compat _ _ Hg Hp1) as Hgp.
  pose proof (Qmult_le_0_compat _ _ Hl Hp1) as Hlp.
  destruct (Qltb 0 (nth i changes 0%Q)) eqn:E;
    [apply Qltb_lt in E | apply Qltb_ge in E].
  all: split; [|split]; simpl.
  all: try (apply Qdiv_nonneg; [lra|exact Hpp]).
  all: apply Forall_app; split; [exact Hout|]; constructor; [|constructor]; simpl.
  all: apply rsi_value_range; apply Qdiv_nonneg; try lra; exact Hpp.
Qed.

Lemma rsi_state_after_S data period m :
  rsi_state_after data period (S m)
  = rsi_step data (price_changes data) period
      (rsi_state_after data period m) (period + m).
Proof.
  unfold rsi_state_after. now rewrite seq_S, fold_left_app.
Qed.

Lemma rsi_state_after_ok data period m :
  1 <= period -> rsi_state_ok (rsi_state_after data period m).
Proof.
  intros Hp. induction m as [|m IH].
  - apply rsi_init_ok, Hp.
  - rewrite rsi_state_after_S. apply rsi_step_ok; assumption.
Qed.

Lemma rsi_step_last data changes period st i :
  let st' := rsi_step data changes period st i in
  exists pt, last (rsi_out st') = Some pt
             /\ value pt = rsi_value (avgGain st') (avgLoss st').
Proof.
  unfold rsi_step.
  destruct (Qltb 0 (nth i changes 0%Q)); simpl;
    (eexists; split; [apply last_snoc|reflexivity]).
Qed.

(** X31. For a period of at least one bar, every value that calculateRSI
    emits lies in [[0,100]]. *)
Theorem calculateRSI_range (data : list PricePoint) (period : nat)
    (out : list IndicatorPoint) :
  1 <= period ->
  calculateRSI data period = Some out ->
  Forall (fun pt => (0 <= value pt <= 100)%Q) out.
Proof.
  intros Hp Hout. unfold calculateRSI in Hout.
  destruct (length data <? period + 1); [discriminate|].
  injection Hout as <-.
  apply (rsi_state_after_ok data period _ Hp).
Qed.

Lemma calculateRSI_range_witness :
  exists out,
    calculateRSI bars_one_loss 2 = Some out
    /\ Forall (fun pt => (0 <= value pt <= 100)%Q) out.
Proof.
  eexists. split; [reflexivity|].
  apply (calculateRSI_range bars_one_loss 2); [lia|reflexivity].
Defined.

(** C1. The claim fails on the code where the running [avgLoss] is 0.  On
    the closes 1000, 1100, 1101, 1200 with period 2 no close falls, the
    smoothing loop ends its only iteration with [avgLoss = 0], and the value
    emitted is [100 - 100/(1 + 100) = 10000/101] (about 99.01), not 100: the
    code sets [RS], not the RSI, to 100.  With one small fall in their place
    (1000, 1100, 1099, 1200) the value is [30200/303] (about 99.67), which
    is greater: removing the only loss lowers the RSI.  The same happens on
    the closes 1, 2, 3 with period 1. *)
Theorem calculateRSI_zero_loss_not_100 :
  (exists pt,
     calculateRSI bars_no_loss 2 = Some [pt]
     /\ (avgLoss (rsi_state_after bars_no_loss 2 1) == 0)%Q
     /\ (value pt == 10000 # 101)%Q
     /\ ~ (value pt == 100)%Q
     /\ exists pt',
          calculateRSI bars_one_loss 2 = Some [pt']
          /\ ~ (avgLoss (rsi_state_after bars_one_loss 2 1) == 0)%Q
          /\ (value pt' == 30200 # 303)%Q
          /\ (value pt < value pt')%Q)
  /\ (exists pt,
        calculateRSI bars_rising 1 = Some [pt]
        /\ (avgLoss (rsi_state_after bars_rising 1 1) == 0)%Q
        /\ (value pt == 10000 # 101)%Q
        /\ ~ (value pt == 100)%Q).
Proof.
  split.
  - eexists. split; [vm_compute; reflexivity|].
    split; [vm_compute; reflexivity|]. split; [vm_compute; reflexivity|].
    split; [vm_compute; discriminate|].
    eexists. split; [vm_compute; reflexivity|].
    split; [vm_compute; discriminate|]. split; [vm_compute; reflexivity|].
    vm_compute. reflexivity.
  - eexists. split; [vm_compute; reflexivity|].
    split; [vm_compute; reflexivity|]. split; [vm_compute; reflexivity|].
    vm_compute. discriminate.
Qed.

(** Sixteen daily closes that rise by exactly 1, with the default period 14:
    the single defined point is [10000/101]. *)
Example calculateRSI_rising_16 :
  calculateRSI (bars [1; 2; 3; 4; 5; 6; 7; 8; 9; 10; 11; 12; 13; 14; 15; 16]%Z) 14
  = Some [mkIndicatorPoint (15 * 86400000) (10000 # 101)].
Proof. vm_compute. reflexivity. Qed.

(** With exactly fifteen such closes no point is defined at all. *)
Example calculateRSI_rising_15 :
  calculateRSI (bars [1; 2; 3; 4; 5; 6; 7; 8; 9; 10; 11; 12; 13; 14; 15]%Z) 14
  = Some [].
Proof. vm_compute. reflexivity. Qed.

(** ** calculateEMA and calculateMACD *)

Lemma map_nth_seq_drop {A} (l : list A) d s :
  map (fun i => nth i l d) (seq s (length l - s)) = drop s l.
Proof.
  revert s. induction l as [|x l IH]; intros s.
  - now destruct s.
  - destruct s as [|s].
    + simpl. f_equal. rewrite <- seq_shift, map_map. simpl.
      specialize (IH 0). rewrite Nat.sub_0_r in IH. exact IH.
    + simpl. rewrite <- seq_shift, map_map. simpl. apply IH.
Qed.

Lemma dates_from_index data s :
  map (fun i => date (at_index data i)) (seq s (length data - s))
  = map date (drop s data).
Proof.
  unfold at_index. rewrite <- (map_nth_seq_drop data point0 s), map_map.
  reflexivity.
Qed.

Lemma ema_loop_dates data period k l ema out :
  map ip_date (fold_left (ema_step data period k) l (ema, out)).2
  = map ip_date out ++ map (fun i => date (at_index data i)) l.
Proof.
  revert ema out. induction l as [|i l IH]; intros ema out; simpl.
  - now rewrite app_nil_r.
  - rewrite IH, map_app, <- app_assoc. reflexivity.
Qed.

Lemma calculateEMA_dates data period out :
  calculateEMA data period = Some out ->
  map ip_date out = map date (drop (period - 1) data).
Proof.
  unfold calculateEMA. destruct (length data <? period); [discriminate|].
  intros [= <-]. rewrite ema_loop_dates. simpl. apply dates_from_index.
Qed.

Lemma calculateEMA_some data period :
  period <= length data -> is_Some (calculateEMA data period).
Proof.
  intros H. unfold calculateEMA.
  destruct (Nat.ltb_spec (length data) period); [lia|]. eauto.
Qed.

(** How a MACD result is put together. *)
Lemma calculateMACD_shape data fast slow sig r :
  calculateMACD data fast slow sig = Some r ->
  map ip_date (macdLine r) = map date (drop (slow - 1) data)
  /\ calculateEMA (map as_price (macdLine r)) sig = Some (signalLine r)
  /\ histogram r
     = map (fun ml =>
              mkIndicatorPoint (ip_date ml)
                (value ml - default 0%Q (value_map (signalLine r) !! ip_date ml))%Q)
           (macdLine r).
Proof.
  unfold calculateMACD. destruct (length data <? slow + sig); [discriminate|].
  destruct (calculateEMA data fast) as [emaFast|]; [|discriminate].
  destruct (calculateEMA data slow) as [emaSlow|]; [|discriminate].
  match goal with |- context [calculateEMA (map as_price ?m) sig] =>
    set (macd := m) end.
  destruct (calculateEMA (map as_price macd) sig) as [signal|] eqn:Hsig;
    [|discriminate].
  intros [= <-]. simpl. split; [|split; [exact Hsig|reflexivity]].
  subst macd. rewrite map_map. simpl. apply dates_from_index.
Qed.

(** The three series of a MACD result, by dates. *)
Lemma calculateMACD_dates data fast slow sig r :
  calculateMACD data fast slow sig = Some r ->
  map ip_date (macdLine r) = map date (drop (slow - 1) data)
  /\ map ip_date (histogram r) = map ip_date (macdLine r)
  /\ map ip_date (signalLine r) = drop (sig - 1) (map ip_date (macdLine r)).
Proof.
  intros Hr. destruct (calculateMACD_shape _ _ _ _ _ Hr) as (Hm & Hsig & Hh).
  split; [exact Hm|]. split.
  - rewrite Hh, map_map. reflexivity.
  - rewrite (calculateEMA_dates _ _ _ Hsig), !skipn_map, !map_map. reflexivity.
Qed.

Lemma calculateMACD_some data fast slow sig :
  fast <= length data -> slow + sig <= length data -> 1 <= slow ->
  is_Some (calculateMACD data fast slow sig).
Proof.
  intros Hf Hs H1. unfold calculateMACD.
  destruct (Nat.ltb_spec (length data) (slow + sig)); [lia|].
  destruct (calculateEMA_some data fast Hf) as [ef ->].
  destruct (calculateEMA_some data slow ltac:(lia)) as [es ->].
  match goal with |- context [calculateEMA ?d sig] =>
    destruct (calculateEMA_some d sig) as [sg ->] end.
  - rewrite !length_map, length_seq. lia.
  - eauto.
Qed.

(** C2 (as amended). For every input accepted by MACD (periods of at least
    one bar, [fast] and [slow + sig] no longer than the series), [macdLine]
    and [histogram] carry exactly the dates of the bars from index
    [slow - 1] on, in order, while [signalLine] carries only the dates from
    index [slow + sig - 2] on: it lacks the first [sig - 1] dates of the
    other two series. *)
Theorem macd_series_dates (data : list PricePoint) (fast slow sig : nat) :
  1 <= fast <= length data -> 1 <= slow -> 1 <= sig ->
  slow + sig <= length data ->
  exists r,
    calculateMACD data fast slow sig = Some r
    /\ map ip_date (macdLine r) = map date (drop (slow - 1) data)
    /\ map ip_date (histogram r) = map date (drop (slow - 1) data)
    /\ map ip_date (signalLine r) = map date (drop (slow + sig - 2) data).
Proof.
  intros Hf Hs Hg Hn.
  destruct (calculateMACD_some data fast slow sig) as [r Hr]; [lia..|].
  exists r. split; [exact Hr|].
  destruct (calculateMACD_dates _ _ _ _ _ Hr) as (Hm & Hh & Hsg).
  split; [exact Hm|]. split; [now rewrite Hh|].
  rewrite Hsg, Hm, skipn_map, drop_drop.
  replace (slow - 1 + (sig - 1)) with (slow + sig - 2) by lia. reflexivity.
Qed.

Lemma macd_series_dates_witness :
  exists r,
    calculateMACD bars_1_to_4 1 2 2 = Some r
    /\ map ip_date (macdLine r) = map date (drop (2 - 1) bars_1_to_4)
    /\ map ip_date (histogram r) = map date (drop (2 - 1) bars_1_to_4)
    /\ map ip_date (signalLine r) = map date (drop (2 + 2 - 2) bars_1_to_4).
Proof. apply (macd_series_dates bars_1_to_4 1 2 2); simpl; lia. Defined.

(** C2 as stated fails: for the closes 1, 2, 3, 4 with [fast = 1],
    [slow = 2], [sig = 2] the date of day 1 is in [macdLine] and in
    [histogram] but not in [signalLine]. *)
Lemma macd_signal_lacks_first_dates :
  exists r,
    calculateMACD bars_1_to_4 1 2 2 = Some r
    /\ length bars_1_to_4 >= 2 + 2
    /\ In 86400000%Z (map ip_date (macdLine r))
    /\ In 86400000%Z (map ip_date (histogram r))
    /\ ~ In 86400000%Z (map ip_date (signalLine r)).
Proof.
  eexists. split; [vm_compute; reflexivity|]. simpl.
  split; [lia|]. split; [now left|]. split; [now left|].
  intros [H|[H|[]]]; discriminate.
Qed.

(** With the default periods 12, 26, 9 on 35 bars: ten dates in [macdLine]
    and [histogram], two in [signalLine]. *)
Example calculateMACD_default_lengths :
  option_map (fun r => (length (macdLine r), length (signalLine r),
                        length (histogram r)))
    (calculateMACD (bars (map Z.of_nat (seq 1 35))) 12 26 9)
  = Some (10, 2, 10).
Proof. vm_compute. reflexivity. Qed.

Lemma js_map_of_fold_notin {V} (l : list (Z * V)) (m : gmap Z V) k :
  k ∉ l.*1 ->
  fold_left (fun (m : gmap Z V) p => <[p.1 := p.2]> m) l m !! k = m !! k.
Proof.
  revert m. induction l as [|[k' v'] l IH]; intros m Hk; simpl; [reflexivity|].
  rewrite fmap_cons, not_elem_of_cons in Hk. destruct Hk as [Hne Hk].
  rewrite IH by exact Hk. simpl in *. now rewrite lookup_insert_ne.
Qed.

Lemma js_map_of_lookup {V} (l : list (Z * V)) k v :
  NoDup l.*1 -> (k, v) ∈ l -> js_map_of l !! k = Some v.
Proof.
  unfold js_map_of. generalize (∅ : gmap Z V).
  induction l as [|[k' v'] l IH]; intros m Hnd Hin.
  - now apply elem_of_nil in Hin.
  - rewrite fmap_cons in Hnd. apply NoDup_cons in Hnd as [Hk' Hnd].
    apply elem_of_cons in Hin as [Heq|Hin]; simpl.
    + injection Heq as -> ->.
      rewrite js_map_of_fold_notin by exact Hk'. apply lookup_insert_eq.
    + apply IH; assumption.
Qed.

Lemma value_map_lookup xs ts v :
  NoDup (map ip_date xs) -> In (mkIndicatorPoint ts v) xs ->
  value_map xs !! ts = Some v.
Proof.
  intros Hnd Hin. unfold value_map. apply js_map_of_lookup.
  - change (NoDup (map fst (map (fun e => (ip_date e, value e)) xs))).
    rewrite map_map. exact Hnd.
  - apply list_elem_of_In.
    apply (in_map (fun e => (ip_date e, value e))) in Hin. exact Hin.
Qed.

Lemma NoDup_dates_unique xs ts v1 v2 :
  NoDup (map ip_date xs) ->
  In (mkIndicatorPoint ts v1) xs -> In (mkIndicatorPoint ts v2) xs -> v1 = v2.
Proof.
  intros Hnd H1 H2.
  pose proof (value_map_lookup xs ts v1 Hnd H1) as E1.
  pose proof (value_map_lookup xs ts v2 Hnd H2) as E2.
  congruence.
Qed.

(** C7. In a MACD result computed, with periods of at least one bar, from
    bars with pairwise distinct dates, for every date that occurs in all three series the histogram value at
    that date is the macdLine value minus the signalLine value at that
    date, as the very same difference. *)
Theorem macd_histogram_is_difference (data : list PricePoint)
    (fast slow sig : nat) (r : MacdResult) :
  1 <= fast -> 1 <= slow -> 1 <= sig ->
  NoDup (map date data) ->
  calculateMACD data fast slow sig = Some r ->
  forall ts m s h,
    In (mkIndicatorPoint ts m) (macdLine r) ->
    In (mkIndicatorPoint ts s) (signalLine r) ->
    In (mkIndicatorPoint ts h) (histogram r) ->
    h = (m - s)%Q.
Proof.
  intros _ _ _ Hnd Hr ts m s h Hm Hs Hh.
  destruct (calculateMACD_dates _ _ _ _ _ Hr) as (Hdm & Hdh & Hds).
  assert (Hndm : NoDup (map ip_date (macdLine r))).
  { rewrite Hdm, <- skipn_map. apply (sublist_NoDup _ _ Hnd (sublist_drop _ _)). }
  assert (Hnds : NoDup (map ip_date (signalLine r))).
  { rewrite Hds. apply (sublist_NoDup _ _ Hndm (sublist_drop _ _)). }
  destruct (calculateMACD_shape _ _ _ _ _ Hr) as (_ & _ & Hhist).
  rewrite Hhist in Hh.
  apply in_map_iff in Hh as ([ts' m'] & Heq & Hin). simpl in Heq.
  injection Heq as -> <-.
  rewrite (value_map_lookup (signalLine r) ts s Hnds Hs). simpl.
  now rewrite (NoDup_dates_unique (macdLine r) ts m' m Hndm Hin Hm).
Qed.

Lemma macd_histogram_is_difference_witness :
  exists r m s h,
    calculateMACD bars_1_to_4 1 2 2 = Some r
    /\ In (mkIndicatorPoint (2 * 86400000) m) (macdLine r)
    /\ In (mkIndicatorPoint (2 * 86400000) s) (signalLine r)
    /\ In (mkIndicatorPoint (2 * 86400000) h) (histogram r)
    /\ h = (m - s)%Q.
Proof.
  eexists. eexists. eexists. eexists.
  split; [vm_compute; reflexivity|].
  split; [right; left; reflexivity|].
  split; [left; reflexivity|].
  split; [right; left; reflexivity|].
  eapply (macd_histogram_is_difference bars_1_to_4 1 2 2).
  - lia.
  - lia.
  - lia.
  - apply (bool_decide_unpack (NoDup (map date bars_1_to_4))). exact I.
  - reflexivity.
  - right; left; reflexivity.
  - left; reflexivity.
  - right; left; reflexivity.
Defined.

(** ** Pivot tests *)

Lemma none_bad_spec lb bad :
  none_bad lb bad = true <-> forall j, 1 <= j <= lb -> bad j = false.
Proof.
  unfold none_bad. rewrite forallb_forall. split; intros H j Hj.
  - apply negb_true_iff, H, in_seq. lia.
  - apply negb_true_iff, H. apply in_seq in Hj. lia.
Qed.

(** C5. For an index [i] with [lookbackLeft <= i < n - lookbackRight]:
    [isPivotLow] accepts [i] exactly when every left neighbour within
    [lookbackLeft] bars is at least the value at [i] and every right
    neighbour within [lookbackRight] bars is strictly greater; [isPivotHigh]
    is the mirror image (left neighbours at most the value, right
    neighbours strictly less). *)
Theorem pivot_tests_spec (arr : list Q) (i lbL lbR : nat) :
  lbL <= i < length arr - lbR ->
  (isPivotLow arr i lbL lbR = true <->
     (forall j, 1 <= j <= lbL -> (num_at arr i <= num_at arr (i - j))%Q)
     /\ (forall j, 1 <= j <= lbR -> (num_at arr i < num_at arr (i + j))%Q))
  /\ (isPivotHigh arr i lbL lbR = true <->
     (forall j, 1 <= j <= lbL -> (num_at arr (i - j) <= num_at arr i)%Q)
     /\ (forall j, 1 <= j <= lbR -> (num_at arr (i + j) < num_at arr i)%Q)).
Proof.
  intros Hi. unfold isPivotLow, isPivotHigh.
  destruct (Nat.ltb_spec i lbL); [lia|].
  destruct (Nat.leb_spec (length arr - lbR) i); [lia|]. simpl.
  rewrite !andb_true_iff, !none_bad_spec.
  split; (split; intros [HL HR]; (split; intros j Hj));
    first [apply Qltb_ge, HL, Hj | apply Qleb_gt, HR, Hj].
Qed.

Lemma pivot_tests_spec_witness :
  (isPivotLow [3; 2; 1; 2; 3]%Q 2 2 2 = true <->
     (forall j, 1 <= j <= 2 ->
        (num_at [3; 2; 1; 2; 3] 2 <= num_at [3; 2; 1; 2; 3] (2 - j))%Q)
     /\ (forall j, 1 <= j <= 2 ->
        (num_at [3; 2; 1; 2; 3] 2 < num_at [3; 2; 1; 2; 3] (2 + j))%Q))
  /\ (isPivotHigh [3; 2; 1; 2; 3]%Q 2 2 2 = true <->
     (forall j, 1 <= j <= 2 ->
        (num_at [3; 2; 1; 2; 3] (2 - j) <= num_at [3; 2; 1; 2; 3] 2)%Q)
     /\ (forall j, 1 <= j <= 2 ->
        (num_at [3; 2; 1; 2; 3] (2 + j) < num_at [3; 2; 1; 2; 3] 2)%Q)).
Proof. apply (pivot_tests_spec [3; 2; 1; 2; 3]%Q 2 2 2). simpl. lia. Defined.

(** A tie on the left is accepted, a tie on the right is not. *)
Example isPivotLow_tie_left : isPivotLow [1; 1; 2]%Q 1 1 1 = true.
Proof. reflexivity. Qed.

Example isPivotLow_tie_right : isPivotLow [2; 1; 1]%Q 1 1 1 = false.
Proof. reflexivity. Qed.

(** ** resampleData *)

Lemma filter_index_sublist {A} keep i (l : list A) :
  filter_index keep i l `sublist_of` l.
Proof.
  revert i. induction l as [|x l IH]; intros i; simpl.
  - constructor.
  - destruct (keep i); [apply sublist_skip|apply sublist_cons]; apply IH.
Qed.

Lemma filter_index_head {A} keep i (l : list A) :
  keep i = true -> head (filter_index keep i l) = head l.
Proof. intros H. destruct l; simpl; [reflexivity|now rewrite H]. Qed.

Lemma filter_index_last {A} keep i (l : list A) :
  keep (i + length l - 1) = true -> last (filter_index keep i l) = last l.
Proof.
  revert i. induction l as [|x l IH]; intros i H; simpl; [reflexivity|].
  destruct l as [|y l].
  - simpl in *. replace (i + 1 - 1) with i in H by lia. now rewrite H.
  - assert (Hl : last (filter_index keep (S i) (y :: l)) = last (y :: l)).
    { apply IH. simpl in *. rewrite <- H. f_equal. lia. }
    rewrite (last_cons x (y :: l)).
    destruct (keep i); [rewrite last_cons|]; rewrite Hl; [reflexivity|].
    destruct (last_is_Some (y :: l)) as [_ [z Hz]]; [discriminate|].
    now rewrite Hz.
Qed.

(** Number of indices [i0 <= i < i0 + n] that [keep] keeps. *)
Lemma filter_index_length {A} keep i (l : list A) :
  length (filter_index keep i l)
  = length (List.filter keep (seq i (length l))).
Proof.
  revert i. induction l as [|x l IH]; intros i; simpl; [reflexivity|].
  destruct (keep i); simpl; now rewrite IH.
Qed.

Lemma count_multiples_bound step n :
  1 <= step ->
  length (List.filter (fun i => i mod step =? 0) (seq 0 n)) * step < n + step.
Proof.
  intros Hs. induction n as [|n IH]; [simpl; lia|].
  rewrite seq_S, List.filter_app, length_app. simpl.
  destruct (Nat.eqb_spec (n mod step) 0) as [E|E]; simpl; [|lia].
  pose proof (Nat.div_mod_eq n step) as Hdm. rewrite E in Hdm.
  set (c := length (List.filter (fun i => i mod step =? 0) (seq 0 n))) in *.
  set (q := n / step) in *.
  assert (c <= q) by nia. nia.
Qed.

Lemma filter_or_length {A} (f g : A -> bool) l :
  length (List.filter (fun x => f x || g x) l)
  <= length (List.filter f l) + length (List.filter g l).
Proof.
  induction l as [|x l IH]; simpl; [lia|].
  destruct (f x), (g x); simpl; lia.
Qed.

Lemma filter_eqb_above k s n :
  k < s -> List.filter (fun i => i =? k) (seq s n) = [].
Proof.
  revert s. induction n as [|n IH]; intros s Hk; simpl; [reflexivity|].
  destruct (Nat.eqb_spec s k); [lia|]. apply IH. lia.
Qed.

Lemma filter_eqb_length k s n :
  length (List.filter (fun i => i =? k) (seq s n)) <= 1.
Proof.
  revert s. induction n as [|n IH]; intros s; simpl; [lia|].
  destruct (Nat.eqb_spec s k) as [->|Hne]; simpl; [|apply IH].
  rewrite filter_eqb_above by lia. simpl. lia.
Qed.

Lemma ceil_div_bound n m : 1 <= m -> n <= ceil_div n m * m.
Proof.
  intros Hm. unfold ceil_div.
  pose proof (Nat.div_mod_eq (n + m - 1) m) as Hdm.
  pose proof (Nat.mod_upper_bound (n + m - 1) m ltac:(lia)) as Hub.
  nia.
Qed.

(** C10. For every array longer than [maxPoints] (with [maxPoints >= 1])
    the resampler returns a subsequence of the input, in the input's order,
    whose first and last elements are the first and last elements of the
    input and which has at most [maxPoints + 1] elements; and for some such
    inputs it has exactly [maxPoints + 1] elements. *)
Theorem resampleData_keeps_ends_and_bound :
  (forall (A : Type) (data : list A) (maxPoints : nat),
     1 <= maxPoints -> maxPoints < length data ->
     resampleData data maxPoints `sublist_of` data
     /\ head (resampleData data maxPoints) = head data
     /\ last (resampleData data maxPoints) = last data
     /\ length (resampleData data maxPoints) <= maxPoints + 1)
  /\ (exists (data : list nat) (maxPoints : nat),
        1 <= maxPoints /\ maxPoints < length data
        /\ length (resampleData data maxPoints) = maxPoints + 1).
Proof.
  split.
  - intros A data maxPoints Hm Hn. unfold resampleData.
    destruct (Nat.leb_spec (length data) maxPoints); [lia|].
    set (step := ceil_div (length data) maxPoints).
    pose proof (ceil_div_bound (length data) maxPoints Hm) as Hstep.
    fold step in Hstep.
    assert (Hs1 : 1 <= step) by nia.
    split; [apply filter_index_sublist|].
    split; [apply filter_index_head; now rewrite Nat.Div0.mod_0_l|].
    split.
    { apply filter_index_last. simpl. rewrite Nat.eqb_refl. apply orb_true_r. }
    rewrite filter_index_length.
    pose proof (filter_or_length (fun i => i mod step =? 0)
                  (fun i => i =? length data - 1) (seq 0 (length data))) as Hor.
    pose proof (filter_eqb_length (length data - 1) 0 (length data)) as H1.
    pose proof (count_multiples_bound step (length data) Hs1) as Hc.
    set (c := length (List.filter (fun i => i mod step =? 0) (seq 0 (length data)))) in *.
    assert (c <= maxPoints) by nia. lia.
  - exists [0; 1; 2; 3], 2. simpl. split; [lia|]. split; [lia|]. reflexivity.
Qed.

Lemma resampleData_keeps_ends_and_bound_witness :
  resampleData [0; 1; 2; 3; 4] 2 `sublist_of` [0; 1; 2; 3; 4]
  /\ head (resampleData [0; 1; 2; 3; 4] 2) = head [0; 1; 2; 3; 4]
  /\ last (resampleData [0; 1; 2; 3; 4] 2) = last [0; 1; 2; 3; 4]
  /\ length (resampleData [0; 1; 2; 3; 4] 2) <= 2 + 1.
Proof.
  apply (proj1 resampleData_keeps_ends_and_bound nat [0; 1; 2; 3; 4] 2);
    simpl; lia.
Defined.

Example resampleData_4_by_2 : resampleData [0; 1; 2; 3] 2 = [0; 2; 3].
Proof. reflexivity. Qed.

(** ** calculateFibonacci *)

Lemma Qmax_cases a b : Qmax a b = a \/ Qmax a b = b.
Proof.
  unfold Qmax, GenericMinMax.gmax. destruct (a ?= b)%Q; auto.
Qed.

Lemma Qmin_cases a b : Qmin a b = a \/ Qmin a b = b.
Proof.
  unfold Qmin, GenericMinMax.gmin. destruct (a ?= b)%Q; auto.
Qed.

Lemma Math_max_is_maximum c cs : is_maximum (Math_max c cs) (c :: cs).
Proof.
  unfold Math_max. revert c. induction cs as [|x cs IH]; intros c; simpl.
  - split; [now left|]. intros y [<-|[]]. lra.
  - destruct (IH (Qmax c x)) as [Hin Hle]. split.
    + destruct Hin as [Hin|Hin]; [|now right; right].
      rewrite <- Hin. destruct (Qmax_cases c x) as [->| ->]; simpl; auto.
    + pose proof (Q.le_max_l c x). pose proof (Q.le_max_r c x).
      pose proof (Hle (Qmax c x) (or_introl eq_refl)).
      intros y [<-|[<-|Hy]]; [eapply Qle_trans; eassumption..|].
      apply Hle. now right.
Qed.

Lemma Math_min_is_minimum c cs : is_minimum (Math_min c cs) (c :: cs).
Proof.
  unfold Math_min. revert c. induction cs as [|x cs IH]; intros c; simpl.
  - split; [now left|]. intros y [<-|[]]. lra.
  - destruct (IH (Qmin c x)) as [Hin Hle]. split.
    + destruct Hin as [Hin|Hin]; [|now right; right].
      rewrite <- Hin. destruct (Qmin_cases c x) as [->| ->]; simpl; auto.
    + pose proof (Q.le_min_l c x). pose proof (Q.le_min_r c x).
      pose proof (Hle (Qmin c x) (or_introl eq_refl)).
      intros y [<-|[<-|Hy]]; [eapply Qle_trans; eassumption..|].
      apply Hle. now right.
Qed.

Lemma numeric_closes_length raw : length (numeric_closes raw) <= length raw.
Proof.
  unfold numeric_closes, omap. induction raw as [|[v|] raw IH]; simpl; lia.
Qed.

(** C9. For every input with at least two numeric closes, the levels read
    from the ["0% (High)"] label to the ["100% (Low)"] label are decreasing
    in value (no level is above the one before it), the ["100% (Low)"]
    level is exactly the minimum of the numeric closes and the ["0% (High)"]
    level is exactly their maximum. *)
Theorem fibonacci_levels_spec (raw : list (option Q)) :
  2 <= length (numeric_closes raw) ->
  exists r,
    calculateFibonacci raw = Some r
    /\ map level (rev (levels r))
       = ["0% (High)"; "23.6%"; "38.2%"; "50%"; "61.8%"; "78.6%"; "100% (Low)"]%string
    /\ StronglySorted (fun a b => (b <= a)%Q) (map fib_value (rev (levels r)))
    /\ (forall lv, In lv (levels r) -> level lv = "100% (Low)"%string ->
          fib_value lv = fib_low r)
    /\ (forall lv, In lv (levels r) -> level lv = "0% (High)"%string ->
          fib_value lv = fib_high r)
    /\ is_minimum (fib_low r) (numeric_closes raw)
    /\ is_maximum (fib_high r) (numeric_closes raw).
Proof.
  intros Hn. pose proof (numeric_closes_length raw) as Hlen.
  unfold calculateFibonacci.
  destruct (Nat.ltb_spec (length raw) 2); [lia|].
  destruct (numeric_closes raw) as [|c0 [|c1 rest]]; simpl in Hn; [lia|lia|].
  pose proof (Math_max_is_maximum c0 (c1 :: rest)) as Hmax.
  pose proof (Math_min_is_minimum c0 (c1 :: rest)) as Hmin.
  set (high := Math_max c0 (c1 :: rest)) in *.
  set (low := Math_min c0 (c1 :: rest)) in *.
  assert (Hlh : (low <= high)%Q).
  { destruct Hmax as [_ Hmax], Hmin as [_ Hmin].
    specialize (Hmax c0 (or_introl eq_refl)).
    specialize (Hmin c0 (or_introl eq_refl)). lra. }
  eexists. split; [reflexivity|]. simpl.
  split; [reflexivity|]. split.
  { repeat (constructor; [|repeat (constructor; [lra|]); constructor]).
    constructor. }
  split.
  { intros lv Hin Hlab.
    repeat (destruct Hin as [<-|Hin]; [try reflexivity; discriminate Hlab|]).
    destruct Hin. }
  split.
  { intros lv Hin Hlab.
    repeat (destruct Hin as [<-|Hin]; [try reflexivity; discriminate Hlab|]).
    destruct Hin. }
  split; assumption.
Qed.

Lemma fibonacci_levels_spec_witness :
  exists r,
    calculateFibonacci closes_1_x_3 = Some r
    /\ map level (rev (levels r))
       = ["0% (High)"; "23.6%"; "38.2%"; "50%"; "61.8%"; "78.6%"; "100% (Low)"]%string
    /\ StronglySorted (fun a b => (b <= a)%Q) (map fib_value (rev (levels r)))
    /\ (forall lv, In lv (levels r) -> level lv = "100% (Low)"%string ->
          fib_value lv = fib_low r)
    /\ (forall lv, In lv (levels r) -> level lv = "0% (High)"%string ->
          fib_value lv = fib_high r)
    /\ is_minimum (fib_low r) (numeric_closes closes_1_x_3)
    /\ is_maximum (fib_high r) (numeric_closes closes_1_x_3).
Proof. apply (fibonacci_levels_spec closes_1_x_3). simpl. lia. Defined.

Example calculateFibonacci_1_x_3 :
  option_map (fun r => map fib_value (levels r)) (calculateFibonacci closes_1_x_3)
  = Some [1; 3 - (3 - 1) * (786 # 1000); 3 - (3 - 1) * (618 # 1000);
          3 - (3 - 1) * (5 # 10); 3 - (3 - 1) * (382 # 1000);
          3 - (3 - 1) * (236 # 1000); 3]%Q.
Proof. reflexivity. Qed.

(** ** calculateGoldenDeathCross *)

Lemma ascending_dates data i j :
  StronglySorted Z.lt (map date data) ->
  i < j < length data ->
  (date (at_index data i) < date (at_index data j))%Z.
Proof.
  unfold at_index. revert i j.
  induction data as [|p data IH]; intros i j Hs Hij; simpl in *; [lia|].
  apply StronglySorted_inv in Hs as [Hs Hall].
  destruct j as [|j]; [lia|]. destruct i as [|i].
  - rewrite Forall_forall in Hall. apply Hall.
    apply list_elem_of_In, in_map, nth_In. lia.
  - apply IH; [exact Hs|lia].
Qed.

Lemma zone_chain_snoc zs s e t :
  zone_chain zs s -> (s < e)%Z -> zone_chain (zs ++ [mkZone s e t]) e.
Proof.
  intros Hc Hse. induction zs as [|z zs IH]; simpl in *.
  - auto.
  - destruct Hc as (H1 & H2 & H3). split; [exact H1|]. split; [|auto].
    destruct zs; simpl; assumption.
Qed.

Lemma zone_chain_close zs s e t :
  zone_chain zs s -> (s <= e)%Z -> back_to_back (zs ++ [mkZone s e t]).
Proof.
  intros Hc Hse. induction zs as [|z zs IH]; simpl in *.
  - auto.
  - destruct Hc as (H1 & H2 & H3). split; [lia|]. split; [|auto].
    destruct zs as [|z' zs]; simpl in *; (split; [exact H2|lia]).
Qed.

Lemma zone_chain_back_to_back zs s : zone_chain zs s -> back_to_back zs.
Proof.
  induction zs as [|z zs IH]; simpl; [auto|].
  intros (H1 & H2 & H3). split; [lia|]. split; [|auto].
  destruct zs as [|z' zs]; [exact I|]. simpl in H3. split; [exact H2|lia].
Qed.

Lemma back_to_back_later z zs :
  back_to_back (z :: zs) ->
  Forall (fun z' => (z_end z <= z_start z')%Z /\ (z_start z < z_start z')%Z) zs.
Proof.
  revert z. induction zs as [|z1 zs IH]; intros z Hb; [constructor|].
  destruct Hb as (H1 & [H2 H3] & Hb).
  constructor; [lia|].
  eapply Forall_impl; [apply IH, Hb|].
  simpl. intros z' [Ha Hb']. lia.
Qed.

Lemma back_to_back_ordered zs :
  back_to_back zs ->
  StronglySorted (fun z z' => (z_start z < z_start z')%Z) zs
  /\ StronglySorted (fun z z' => (z_end z <= z_start z')%Z) zs
  /\ Forall (fun z => (z_start z <= z_end z)%Z) zs.
Proof.
  induction zs as [|z zs IH]; intros Hb.
  - repeat split; constructor.
  - pose proof (back_to_back_later z zs Hb) as Hl.
    destruct Hb as (H1 & _ & Hb). destruct (IH Hb) as (I1 & I2 & I3).
    repeat split; constructor; try assumption.
    + eapply Forall_impl; [exact Hl|]. simpl. tauto.
    + eapply Forall_impl; [exact Hl|]. simpl. tauto.
Qed.

Lemma back_to_back_contiguous zs k z z' :
  back_to_back zs -> zs !! k = Some z -> zs !! S k = Some z' ->
  z_end z = z_start z'.
Proof.
  revert k. induction zs as [|z0 zs IH]; intros k Hb Hz Hz'; [discriminate|].
  destruct Hb as (_ & Hnext & Hb).
  destruct k as [|k]; simpl in *.
  - injection Hz as ->. destruct zs as [|z1 zs]; [discriminate|].
    simpl in Hz'. injection Hz' as ->. tauto.
  - eapply IH; eassumption.
Qed.

Lemma cross_inv_weaken data m st :
  cross_inv data m st -> cross_inv data (S m) st.
Proof.
  unfold cross_inv. destruct (zoneStart st); [|auto].
  intros [(j & Hj & ->) Hc]. split; [|exact Hc]. exists j. split; [lia|reflexivity].
Qed.

Lemma cross_step_inv data m50 m200 m st :
  StronglySorted Z.lt (map date data) -> S m < length data ->
  cross_inv data m st ->
  cross_inv data (S m) (cross_step data m50 m200 st (S m)).
Proof.
  intros Hs Hm Hinv. unfold cross_step.
  destruct (m50 !! date (at_index data (S m))) as [sma50|];
    [|now apply cross_inv_weaken].
  destruct (m200 !! date (at_index data (S m))) as [sma200|];
    [|now apply cross_inv_weaken].
  destruct (m50 !! date (at_index data (S m - 1))) as [prevSma50|];
    [|now apply cross_inv_weaken].
  destruct (m200 !! date (at_index data (S m - 1))) as [prevSma200|];
    [|now apply cross_inv_weaken].
  assert (Hfresh : exists j, 1 <= j <= S m
                     /\ date (at_index data (S m)) = date (at_index data j)).
  { exists (S m). split; [lia|reflexivity]. }
  match goal with |- context [match ?sig with Some _ => _ | None => _ end] =>
    destruct sig as [k|] end.
  - unfold cross_inv in *. simpl.
    split; [exact Hfresh|].
    destruct (zoneStart st) as [s|].
    + destruct Hinv as [(j & Hj & ->) Hc].
      apply zone_chain_snoc; [exact Hc|].
      apply ascending_dates; [exact Hs|lia].
    + rewrite Hinv. exact I.
  - destruct (zoneStart st) as [s|] eqn:Hzs.
    + now apply cross_inv_weaken.
    + unfold cross_inv in *. rewrite Hzs in Hinv. simpl.
      split; [exact Hfresh|]. rewrite Hinv. exact I.
Qed.

Lemma cross_loop_inv data m50 m200 m :
  StronglySorted Z.lt (map date data) -> m < length data ->
  cross_inv data m
    (fold_left (cross_step data m50 m200) (seq 1 m) (mkCrossState [] [] None None)).
Proof.
  intros Hs. induction m as [|m IH]; intros Hm.
  - reflexivity.
  - rewrite seq_S, fold_left_app. simpl.
    apply cross_step_inv; [exact Hs|exact Hm|]. apply IH. lia.
Qed.

Lemma last_date data :
  0 < length data ->
  last (map date data) = Some (date (at_index data (length data - 1))).
Proof.
  intros Hn. unfold at_index.
  rewrite last_lookup, length_map.
  change (map date data) with (date <$> data). rewrite list_lookup_fmap.
  replace (Init.Nat.pred (length data)) with (length data - 1) by lia.
  destruct (nth_lookup_or_length data (length data - 1) point0) as [H|H]; [|lia].
  now rewrite H.
Qed.

(** C4. For every series whose dates are strictly ascending (the invariant
    of the input series), the zones returned by the golden/death cross
    detector are ordered by start date, contiguous (each zone ends on the
    date on which the next one starts), non-overlapping (a zone ends no
    later than any later zone starts, and no zone ends before it starts),
    and the final zone ends at the last date of the series. *)
Theorem golden_death_zones_wellformed (data : list PricePoint)
    (sma50List sma200List : option (list IndicatorPoint)) :
  StronglySorted Z.lt (map date data) ->
  let zs := res_zones (calculateGoldenDeathCross data sma50List sma200List) in
  StronglySorted (fun z z' => (z_start z < z_start z')%Z) zs
  /\ (forall k z z', zs !! k = Some z -> zs !! S k = Some z' ->
        z_end z = z_start z')
  /\ StronglySorted (fun z z' => (z_end z <= z_start z')%Z) zs
  /\ Forall (fun z => (z_start z <= z_end z)%Z) zs
  /\ (forall z, last zs = Some z -> Some (z_end z) = last (map date data)).
Proof.
  intros Hs zs.
  assert (Hb : back_to_back zs
               /\ (forall z, last zs = Some z ->
                      Some (z_end z) = last (map date data))).
  { subst zs. unfold calculateGoldenDeathCross.
    destruct sma50List as [l50|]; [|split; [exact I|discriminate]].
    destruct sma200List as [l200|]; [|split; [exact I|discriminate]].
    simpl.
    destruct (Nat.ltb_spec 0 (length data)) as [Hn|Hn].
    - pose proof (cross_loop_inv data (value_map l50) (value_map l200)
                    (length data - 1) Hs ltac:(lia)) as Hinv.
      unfold cross_inv in Hinv.
      destruct (zoneStart _) as [s|].
      + destruct Hinv as [(j & Hj & ->) Hc]. split.
        * apply zone_chain_close; [exact Hc|].
          destruct (Nat.eq_dec j (length data - 1)) as [->|Hne]; [lia|].
          apply Z.lt_le_incl, ascending_dates; [exact Hs|lia].
        * intros z. rewrite last_snoc. intros [= <-]. simpl.
          symmetry. apply last_date, Hn.
      + rewrite Hinv. split; [exact I|discriminate].
    - assert (Hnil : data = []) by (destruct data; [reflexivity|simpl in Hn; lia]).
      subst data. simpl. split; [exact I|discriminate]. }
  destruct Hb as [Hb Hlast].
  destruct (back_to_back_ordered zs Hb) as (H1 & H2 & H3).
  split; [exact H1|]. split; [|split; [exact H2|split; [exact H3|exact Hlast]]].
  intros k z z'. apply back_to_back_contiguous, Hb.
Qed.

Lemma golden_death_zones_wellformed_witness :
  let zs := res_zones (calculateGoldenDeathCross bars_zigzag
                         (calculateSMA bars_zigzag 1) (calculateSMA bars_zigzag 2)) in
  StronglySorted (fun z z' => (z_start z < z_start z')%Z) zs
  /\ (forall k z z', zs !! k = Some z -> zs !! S k = Some z' ->
        z_end z = z_start z')
  /\ StronglySorted (fun z z' => (z_end z <= z_start z')%Z) zs
  /\ Forall (fun z => (z_start z <= z_end z)%Z) zs
  /\ (forall z, last zs = Some z -> Some (z_end z) = last (map date bars_zigzag)).
Proof.
  apply (golden_death_zones_wellformed bars_zigzag).
  simpl. repeat (constructor; [|repeat (constructor; [reflexivity|]); constructor]).
  constructor.
Defined.

(** Closes 1, 2, 3, 2, 1, 2, 3 with SMA(1) against SMA(2): a first zone
    opened at day 2 from the relation of the averages, a death cross at day
    3, a golden cross at day 5, and the final zone closed at day 6. *)
Example calculateGoldenDeathCross_zigzag :
  res_zones (calculateGoldenDeathCross bars_zigzag
               (calculateSMA bars_zigzag 1) (calculateSMA bars_zigzag 2))
  = [mkZone (2 * 86400000) (3 * 86400000) (Some golden);
     mkZone (3 * 86400000) (5 * 86400000) (Some death);
     mkZone (5 * 86400000) (6 * 86400000) (Some golden)].
Proof. vm_compute. reflexivity. Qed.

(** ** getPeriodKey and the weekly buckets *)















Example weekly_keys_around_new_year :
  getPeriodKey bangkok week (date bar_mon_2024_12_30) = WeekKey 2024 53
  /\ getPeriodKey bangkok week (date bar_thu_2025_01_02) = WeekKey 2025 1
  /\ iso_week_key bangkok (date bar_mon_2024_12_30) = (2025, 1)%Z
  /\ iso_week_key bangkok (date bar_thu_2025_01_02) = (2025, 1)%Z.
Proof. repeat split; vm_compute; reflexivity. Qed.

Example weekly_groups_around_new_year :
  group_by_period bangkok week [bar_mon_2024_12_30; bar_thu_2025_01_02]
  = [(WeekKey 2024 53, [bar_mon_2024_12_30]);
     (WeekKey 2025 1, [bar_thu_2025_01_02])].
Proof. vm_compute. reflexivity. Qed.

(** * Further properties of the indicator functions *)

Lemma ema_loop_trace data period k l ema out :
  (fold_left (ema_step data period k) l (ema, out)).2
  = out ++ ema_trace data period k ema l.
Proof.
  revert ema out. induction l as [|i l IH]; intros ema out; simpl.
  - now rewrite app_nil_r.
  - rewrite IH, <- app_assoc. reflexivity.
Qed.

Lemma calculateEMA_trace data period :
  period <= length data ->
  calculateEMA data period
  = Some (ema_trace data period (2 / (Qnat period + 1))
            (Qsum (map close (firstn period data)) / Qnat period)
            (seq (period - 1) (length data - (period - 1)))).
Proof.
  intros Hn. unfold calculateEMA.
  destruct (Nat.ltb_spec (length data) period); [lia|].
  now rewrite ema_loop_trace.
Qed.

Lemma ema_trace_length data period k ema l :
  length (ema_trace data period k ema l) = length l.
Proof.
  revert ema. induction l as [|i l IH]; intros ema; simpl; [reflexivity|].
  now rewrite IH.
Qed.

Lemma ema_trace_adjacent data period k l :
  forall ema j a b i,
    ema_trace data period k ema l !! j = Some a ->
    ema_trace data period k ema l !! S j = Some b ->
    l !! S j = Some i -> period - 1 < i ->
    value b = (close (at_index data i) * k + value a * (1 - k))%Q.
Proof.
  induction l as [|i0 l IH]; intros ema j a b i Ha Hb Hi Hlt; [discriminate|].
  destruct j as [|j].
  - destruct l as [|i1 l]; [discriminate|]. simpl in *.
    injection Ha as <-. injection Hb as <-. injection Hi as ->. simpl.
    destruct (Nat.ltb_spec (period - 1) i); [reflexivity|lia].
  - simpl in Ha, Hb, Hi. eapply IH; eassumption.
Qed.

(** X1. calculateEMA, for a period of at least one bar: a series shorter than
    the period gives [null]; otherwise the output has one point per bar from
    index [period - 1] on, and its first point carries the date of bar
    [period - 1] and, as its value, the arithmetic mean of the first
    [period] closes (the seed). *)
Theorem calculateEMA_seed_and_shape (data : list PricePoint) (period : nat) :
  1 <= period ->
  (length data < period -> calculateEMA data period = None)
  /\ (period <= length data ->
      exists pt rest,
        calculateEMA data period = Some (pt :: rest)
        /\ length (pt :: rest) = length data - (period - 1)
        /\ ip_date pt = date (at_index data (period - 1))
        /\ value pt = (Qsum (map close (firstn period data)) / Qnat period)%Q).
Proof.
  intros Hp. split; intros Hn.
  - unfold calculateEMA.
    destruct (Nat.ltb_spec (length data) period); [reflexivity|lia].
  - rewrite (calculateEMA_trace data period Hn).
    replace (length data - (period - 1)) with (S (length data - period)) by lia.
    simpl. eexists. eexists. split; [reflexivity|]. simpl.
    rewrite ema_trace_length, length_seq.
    split; [reflexivity|]. split; [reflexivity|].
    destruct (Nat.ltb_spec (period - 1) (period - 1)); [lia|reflexivity].
Qed.

Lemma calculateEMA_seed_and_shape_witness :
  (length bars_1_to_5 < 3 -> calculateEMA bars_1_to_5 3 = None)
  /\ (3 <= length bars_1_to_5 ->
      exists pt rest,
        calculateEMA bars_1_to_5 3 = Some (pt :: rest)
        /\ length (pt :: rest) = length bars_1_to_5 - (3 - 1)
        /\ ip_date pt = date (at_index bars_1_to_5 (3 - 1))
        /\ value pt = (Qsum (map close (firstn 3 bars_1_to_5)) / Qnat 3)%Q).
Proof. apply (calculateEMA_seed_and_shape bars_1_to_5 3). lia. Defined.

(** X2. calculateEMA: every point after the first is obtained from the point
    before it by [ema = close * k + ema_prev * (1 - k)] with
    [k = 2 / (period + 1)], where [close] is the close of the bar the point
    is dated with. *)
Theorem calculateEMA_recurrence (data : list PricePoint) (period : nat)
    (out : list IndicatorPoint) :
  1 <= period ->
  calculateEMA data period = Some out ->
  forall j a b,
    out !! j = Some a -> out !! S j = Some b ->
    ip_date b = date (at_index data (period + j))
    /\ value b = (close (at_index data (period + j)) * (2 / (Qnat period + 1))
                  + value a * (1 - 2 / (Qnat period + 1)))%Q.
Proof.
  intros Hp Hout j a b Ha Hb.
  assert (Hn : period <= length data).
  { unfold calculateEMA in Hout.
    destruct (Nat.ltb_spec (length data) period); [discriminate|lia]. }
  rewrite (calculateEMA_trace data period Hn) in Hout. injection Hout as <-.
  assert (Hj : S j < length data - (period - 1)).
  { apply lookup_lt_Some in Hb. now rewrite ema_trace_length, length_seq in Hb. }
  split.
  - pose proof (calculateEMA_trace data period Hn) as Htr.
    apply calculateEMA_dates in Htr.
    assert (Hd : map ip_date (ema_trace data period (2 / (Qnat period + 1))
               (Qsum (map close (take period data)) / Qnat period)
               (seq (period - 1) (length data - (period - 1)))) !! S j
            = Some (ip_date b)).
    { change (map ip_date ?l) with (ip_date <$> l).
      rewrite list_lookup_fmap, Hb. reflexivity. }
    rewrite Htr in Hd.
    change (map date ?l) with (date <$> l) in Hd.
    rewrite list_lookup_fmap, lookup_drop in Hd.
    replace (period - 1 + S j) with (period + j) in Hd by lia.
    unfold at_index.
    destruct (nth_lookup_or_length data (period + j) point0) as [H|H]; [|lia].
    rewrite H in Hd. simpl in Hd. now injection Hd as <-.
  - eapply ema_trace_adjacent; [exact Ha|exact Hb| |lia].
    rewrite lookup_seq. split; lia.
Qed.

Lemma calculateEMA_recurrence_witness :
  exists out a b,
    calculateEMA bars_1_to_5 3 = Some out
    /\ out !! 0 = Some a /\ out !! 1 = Some b
    /\ ip_date b = date (at_index bars_1_to_5 (3 + 0))
    /\ value b = (close (at_index bars_1_to_5 (3 + 0)) * (2 / (Qnat 3 + 1))
                  + value a * (1 - 2 / (Qnat 3 + 1)))%Q.
Proof.
  eexists. eexists. eexists.
  split; [reflexivity|]. split; [reflexivity|]. split; [reflexivity|].
  eapply (calculateEMA_recurrence bars_1_to_5 3).
  - lia.
  - reflexivity.
  - reflexivity.
  - reflexivity.
Defined.

Lemma price_changes_length data : length (price_changes data) = length data - 1.
Proof. unfold price_changes. now rewrite length_map, length_seq. Qed.

Lemma price_changes_nth data i :
  i < length data - 1 ->
  nth i (price_changes data) 0%Q
  = (close (at_index data (S i)) - close (at_index data i))%Q.
Proof.
  intros Hi. unfold price_changes. rewrite nth_lookup.
  change (map ?f ?l) with (f <$> l).
  rewrite list_lookup_fmap, lookup_seq_lt by exact Hi. simpl.
  now rewrite Nat.sub_0_r.
Qed.

Lemma rsi_out_dates data period m :
  map ip_date (rsi_out (rsi_state_after data period m))
  = map (fun i => date (at_index data (i + 1))) (seq period m).
Proof.
  induction m as [|m IH].
  - unfold rsi_state_after, rsi_init. simpl.
    destruct (fold_left _ _ _). reflexivity.
  - rewrite rsi_state_after_S, seq_S, map_app. simpl. rewrite <- IH.
    unfold rsi_step.
    destruct (Qltb 0 (nth (period + m) (price_changes data) 0%Q)); simpl;
      now rewrite map_app.
Qed.

(** X5. calculateRSI returns [null] for fewer than [period + 1] bars;
    otherwise it returns exactly one point for each bar from index
    [period + 1] on, dated with that bar (the bar at index [period] itself
    gets no point). *)
Theorem calculateRSI_shape (data : list PricePoint) (period : nat) :
  (length data < period + 1 -> calculateRSI data period = None)
  /\ (period + 1 <= length data ->
      exists out,
        calculateRSI data period = Some out
        /\ map ip_date out = map date (drop (period + 1) data)).
Proof.
  unfold calculateRSI. split; intros Hn.
  - destruct (Nat.ltb_spec (length data) (period + 1)); [reflexivity|lia].
  - destruct (Nat.ltb_spec (length data) (period + 1)); [lia|].
    eexists. split; [reflexivity|].
    rewrite rsi_out_dates, price_changes_length.
    rewrite <- dates_from_index.
    replace (length data - (period + 1)) with (length data - 1 - period) by lia.
    replace (period + 1) with (S period) by lia.
    rewrite <- seq_shift, map_map.
    apply map_ext. intros i. now replace (i + 1) with (S i) by lia.
Qed.

Lemma calculateRSI_shape_witness :
  (length bars_1_to_5 < 2 + 1 -> calculateRSI bars_1_to_5 2 = None)
  /\ (2 + 1 <= length bars_1_to_5 ->
      exists out,
        calculateRSI bars_1_to_5 2 = Some out
        /\ map ip_date out = map date (drop (2 + 1) bars_1_to_5)).
Proof. apply (calculateRSI_shape bars_1_to_5 2). Defined.

Lemma rsi_seed_falling changes l :
  (forall i, In i l -> (nth i changes 0 < 0)%Q) ->
  forall g0 l0,
    (fold_left (rsi_seed_step changes) l (g0, l0)).1 = g0
    /\ (l0 <= (fold_left (rsi_seed_step changes) l (g0, l0)).2)%Q
    /\ (l <> [] -> (l0 < (fold_left (rsi_seed_step changes) l (g0, l0)).2)%Q).
Proof.
  induction l as [|i l IH]; intros Hneg g0 l0.
  - simpl. split; [reflexivity|]. split; [lra|congruence].
  - assert (Hi : (nth i changes 0 < 0)%Q) by (apply Hneg; now left).
    assert (Hstep : rsi_seed_step changes (g0, l0) i
                    = (g0, (l0 + - nth i changes 0)%Q)).
    { unfold rsi_seed_step.
      destruct (Qltb 0 (nth i changes 0%Q)) eqn:E; [|reflexivity].
      apply Qltb_lt in E. lra. }
    cbn [fold_left]. rewrite Hstep.
    destruct (IH (fun j Hj => Hneg j (or_intror Hj)) g0 (l0 + - nth i changes 0)%Q)
      as (H1 & H2 & _).
    split; [exact H1|]. split; [lra|]. intros _. lra.
Qed.

Lemma rsi_value_no_gain g l :
  (g == 0)%Q -> (0 < l)%Q -> (rsi_value g l == 0)%Q.
Proof.
  intros Hg Hl. unfold rsi_value, Qeqb.
  destruct (Qeq_bool l 0) eqn:E.
  - apply Qeq_bool_iff in E. lra.
  - rewrite Hg. field. lra.
Qed.

Lemma rsi_falling_state data period m :
  1 <= period -> strictly_falling data ->
  m <= length (price_changes data) - period ->
  period <= length (price_changes data) ->
  let st := rsi_state_after data period m in
  (avgGain st == 0)%Q /\ (0 < avgLoss st)%Q
  /\ Forall (fun pt => (value pt == 0)%Q) (rsi_out st).
Proof.
  intros Hp Hfall Hm Hlen.
  rewrite price_changes_length in Hm, Hlen.
  pose proof (Qnat_pos period Hp) as Hpp.
  pose proof (Qnat_nonneg (period - 1)) as Hp1.
  assert (Hneg : forall i, i < length data - 1 ->
                   (nth i (price_changes data) 0 < 0)%Q).
  { intros i Hi. rewrite price_changes_nth by exact Hi.
    pose proof (Hfall (S i) ltac:(lia)) as H.
    replace (S i - 1) with i in H by lia. lra. }
  induction m as [|m IH].
  - unfold rsi_state_after, rsi_init. simpl.
    destruct (rsi_seed_falling (price_changes data) (seq 0 period)
                (fun i Hi => Hneg i ltac:(apply in_seq in Hi; lia)) 0%Q 0%Q)
      as (H1 & H2 & H3).
    destruct (fold_left _ _ _) as [g l]. simpl in *. subst g.
    split; [field; lra|]. split; [|constructor].
    apply Qlt_shift_div_l; [exact Hpp|].
    assert (seq 0 period <> []) by (destruct period; [lia|discriminate]).
    specialize (H3 H). lra.
  - rewrite rsi_state_after_S.
    destruct (IH ltac:(lia)) as (Hg & Hl & Hout).
    set (st := rsi_state_after data period m) in *.
    pose proof (Hneg (period + m) ltac:(lia)) as Hc.
    unfold rsi_step.
    destruct (Qltb 0 (nth (period + m) (price_changes data) 0%Q)) eqn:E;
      [apply Qltb_lt in E; lra|].
    pose proof (Qmult_le_0_compat _ _ (Qlt_le_weak _ _ Hl) Hp1) as Hlp.
    assert (Hg' : (avgGain st * Qnat (period - 1) / Qnat period == 0)%Q).
    { rewrite Hg. field. lra. }
    assert (Hl' : (0 < (avgLoss st * Qnat (period - 1)
                        - nth (period + m) (price_changes data) 0) / Qnat period)%Q).
    { apply Qlt_shift_div_l; [exact Hpp|]. lra. }
    simpl. split; [exact Hg'|]. split; [exact Hl'|].
    apply Forall_app. split; [exact Hout|].
    constructor; [|constructor]. simpl.
    now apply rsi_value_no_gain.
Qed.

(** X6. On a series whose close falls strictly from every bar to the next,
    every RSI value is 0. *)
Theorem calculateRSI_strictly_falling (data : list PricePoint) (period : nat)
    (out : list IndicatorPoint) :
  1 <= period ->
  strictly_falling data ->
  calculateRSI data period = Some out ->
  Forall (fun pt => (value pt == 0)%Q) out.
Proof.
  intros Hp Hfall Hout. unfold calculateRSI in Hout.
  destruct (Nat.ltb_spec (length data) (period + 1)); [discriminate|].
  injection Hout as <-.
  apply (rsi_falling_state data period _ Hp Hfall (le_n _)).
  rewrite price_changes_length. lia.
Qed.

Lemma calculateRSI_strictly_falling_witness :
  exists out,
    calculateRSI bars_falling 2 = Some out
    /\ out <> []
    /\ Forall (fun pt => (value pt == 0)%Q) out.
Proof.
  eexists. split; [reflexivity|]. split; [discriminate|].
  apply (calculateRSI_strictly_falling bars_falling 2).
  - lia.
  - unfold strictly_falling, bars_falling, bars. simpl. intros i Hi.
    destruct i as [|[|[|[|[|i]]]]]; try lia; unfold Qlt; simpl; lia.
  - reflexivity.
Defined.

(** X7. For periods of at least one bar ([fast], [slow] and [sig] all at
    least 1), calculateMACD returns [null] exactly when the series is
    shorter than [slow + sig] or shorter than [fast]. *)
Theorem calculateMACD_none_iff (data : list PricePoint) (fast slow sig : nat) :
  1 <= fast -> 1 <= slow -> 1 <= sig ->
  calculateMACD data fast slow sig = None
  <-> length data < slow + sig \/ length data < fast.
Proof.
  intros _ Hs _. split.
  - intros Hnone.
    destruct (Nat.lt_ge_cases (length data) (slow + sig)) as [H|H]; [now left|].
    destruct (Nat.lt_ge_cases (length data) fast) as [H'|H']; [now right|].
    destruct (calculateMACD_some data fast slow sig H' H Hs) as [r Hr].
    congruence.
  - intros [H|H]; unfold calculateMACD.
    + destruct (Nat.ltb_spec (length data) (slow + sig)); [reflexivity|lia].
    + destruct (length data <? slow + sig); [reflexivity|].
      unfold calculateEMA at 1.
      destruct (Nat.ltb_spec (length data) fast); [reflexivity|lia].
Qed.

Lemma calculateMACD_none_iff_witness :
  calculateMACD bars_1_to_4 1 2 3 = None
  <-> length bars_1_to_4 < 2 + 3 \/ length bars_1_to_4 < 1.
Proof. apply (calculateMACD_none_iff bars_1_to_4 1 2 3); lia. Defined.

Lemma value_map_lookup_None xs ts :
  ~ In ts (map ip_date xs) -> value_map xs !! ts = None.
Proof.
  intros Hnin. unfold value_map, js_map_of.
  rewrite js_map_of_fold_notin; [apply lookup_empty|].
  intros Hin. apply Hnin. apply list_elem_of_In in Hin.
  change (In ts (map fst (map (fun e => (ip_date e, value e)) xs))) in Hin.
  now rewrite map_map in Hin.
Qed.

Lemma value_map_lookup_index xs j pt :
  NoDup (map ip_date xs) -> xs !! j = Some pt ->
  value_map xs !! ip_date pt = Some (value pt).
Proof.
  intros Hnd Hj. apply value_map_lookup; [exact Hnd|].
  destruct pt as [d v]. simpl.
  apply list_elem_of_In. eapply list_elem_of_lookup_2. exact Hj.
Qed.

Lemma calculateMACD_line data fast slow sig r :
  calculateMACD data fast slow sig = Some r ->
  exists emaFast emaSlow,
    calculateEMA data fast = Some emaFast
    /\ calculateEMA data slow = Some emaSlow
    /\ macdLine r
       = map (fun i =>
                mkIndicatorPoint (date (at_index data i))
                  (default 0%Q (value_map emaFast !! date (at_index data i))
                   - default 0%Q (value_map emaSlow !! date (at_index data i)))%Q)
             (seq (slow - 1) (length data - (slow - 1))).
Proof.
  unfold calculateMACD. destruct (length data <? slow + sig); [discriminate|].
  destruct (calculateEMA data fast) as [emaFast|]; [|discriminate].
  destruct (calculateEMA data slow) as [emaSlow|]; [|discriminate].
  match goal with |- context [calculateEMA (map as_price ?m) sig] =>
    set (macd := m) end.
  destruct (calculateEMA (map as_price macd) sig) as [signal|]; [|discriminate].
  intros [= <-]. exists emaFast, emaSlow. auto.
Qed.

Lemma ema_point_at data period out i :
  calculateEMA data period = Some out ->
  period - 1 <= i < length data ->
  exists pt, out !! (i - (period - 1)) = Some pt
             /\ ip_date pt = date (at_index data i).
Proof.
  intros Hout Hi.
  pose proof (calculateEMA_dates _ _ _ Hout) as Hd.
  assert (Hlen : length out = length data - (period - 1)).
  { apply (f_equal length) in Hd.
    now rewrite !length_map, length_drop in Hd. }
  destruct (lookup_lt_is_Some_2 out (i - (period - 1)) ltac:(lia)) as [pt Hpt].
  exists pt. split; [exact Hpt|].
  assert (H1 : map ip_date out !! (i - (period - 1)) = Some (ip_date pt)).
  { change (map ip_date out) with (ip_date <$> out).
    now rewrite list_lookup_fmap, Hpt. }
  rewrite Hd in H1. change (map date ?l) with (date <$> l) in H1.
  rewrite list_lookup_fmap, lookup_drop in H1.
  replace (period - 1 + (i - (period - 1))) with i in H1 by lia.
  unfold at_index.
  destruct (nth_lookup_or_length data i point0) as [H|H]; [|lia].
  rewrite H in H1. simpl in H1. now injection H1 as <-.
Qed.

Lemma calculateEMA_NoDup data period out :
  NoDup (map date data) -> calculateEMA data period = Some out ->
  NoDup (map ip_date out).
Proof.
  intros Hnd Hout. rewrite (calculateEMA_dates _ _ _ Hout), <- skipn_map.
  apply (sublist_NoDup _ _ Hnd (sublist_drop _ _)).
Qed.

(** X8. For [1 <= fast <= slow] and bars with pairwise distinct dates, every
    point of [macdLine] is the fast EMA minus the slow EMA of the same date:
    point [j] of [macdLine] pairs with point [j] of the slow EMA and point
    [j + (slow - fast)] of the fast EMA. *)
Theorem macdLine_is_ema_difference (data : list PricePoint)
    (fast slow sig : nat) (r : MacdResult) :
  1 <= fast <= slow ->
  NoDup (map date data) ->
  calculateMACD data fast slow sig = Some r ->
  exists emaFast emaSlow,
    calculateEMA data fast = Some emaFast
    /\ calculateEMA data slow = Some emaSlow
    /\ forall j m, macdLine r !! j = Some m ->
         exists f s,
           emaFast !! (j + (slow - fast)) = Some f
           /\ emaSlow !! j = Some s
           /\ ip_date f = ip_date m /\ ip_date s = ip_date m
           /\ value m = (value f - value s)%Q.
Proof.
  intros Hfs Hnd Hr.
  destruct (calculateMACD_line _ _ _ _ _ Hr) as (emaFast & emaSlow & Hf & Hs & Hline).
  exists emaFast, emaSlow. split; [exact Hf|]. split; [exact Hs|].
  intros j m Hm. rewrite Hline in Hm.
  rewrite list_lookup_fmap in Hm.
  destruct (seq (slow - 1) (length data - (slow - 1)) !! j) as [i|] eqn:Hi;
    [|discriminate].
  apply lookup_seq in Hi as [-> Hj]. simpl in Hm. injection Hm as <-.
  set (i := slow - 1 + j) in *.
  destruct (ema_point_at data fast emaFast i Hf ltac:(lia)) as (f & Hfj & Hfd).
  destruct (ema_point_at data slow emaSlow i Hs ltac:(lia)) as (s & Hsj & Hsd).
  exists f, s.
  replace (i - (fast - 1)) with (j + (slow - fast)) in Hfj by lia.
  replace (i - (slow - 1)) with j in Hsj by lia.
  split; [exact Hfj|]. split; [exact Hsj|]. simpl.
  split; [exact Hfd|]. split; [exact Hsd|].
  rewrite <- Hfd at 1. rewrite <- Hsd.
  rewrite (value_map_lookup_index emaFast _ f (calculateEMA_NoDup _ _ _ Hnd Hf) Hfj).
  rewrite (value_map_lookup_index emaSlow _ s (calculateEMA_NoDup _ _ _ Hnd Hs) Hsj).
  reflexivity.
Qed.

Lemma macdLine_is_ema_difference_witness :
  exists r emaFast emaSlow,
    calculateMACD bars_1_to_4 1 2 2 = Some r
    /\ calculateEMA bars_1_to_4 1 = Some emaFast
    /\ calculateEMA bars_1_to_4 2 = Some emaSlow
    /\ forall j m, macdLine r !! j = Some m ->
         exists f s,
           emaFast !! (j + (2 - 1)) = Some f
           /\ emaSlow !! j = Some s
           /\ ip_date f = ip_date m /\ ip_date s = ip_date m
           /\ value m = (value f - value s)%Q.
Proof.
  eexists.
  assert (Hnd : NoDup (map date bars_1_to_4)).
  { apply (bool_decide_unpack (NoDup (map date bars_1_to_4))). exact I. }
  destruct (macdLine_is_ema_difference bars_1_to_4 1 2 2 _
              ltac:(lia) Hnd eq_refl)
    as (emaFast & emaSlow & Hf & Hs & H).
  exists emaFast, emaSlow. split; [reflexivity|]. auto.
Defined.

(** X9. For bars with pairwise distinct dates, on the first [sig - 1] dates
    of [macdLine], where the signal line is not yet defined, the histogram
    takes the missing signal value as 0: the histogram point is the macdLine
    value minus 0. *)
Theorem macd_histogram_before_signal (data : list PricePoint)
    (fast slow sig : nat) (r : MacdResult) :
  NoDup (map date data) ->
  calculateMACD data fast slow sig = Some r ->
  forall j m, j < sig - 1 -> macdLine r !! j = Some m ->
    histogram r !! j = Some (mkIndicatorPoint (ip_date m) (value m - 0)%Q).
Proof.
  intros Hnd Hr j m Hj Hm.
  destruct (calculateMACD_dates _ _ _ _ _ Hr) as (Hdm & _ & Hds).
  destruct (calculateMACD_shape _ _ _ _ _ Hr) as (_ & _ & Hhist).
  assert (Hndm : NoDup (map ip_date (macdLine r))).
  { rewrite Hdm, <- skipn_map. apply (sublist_NoDup _ _ Hnd (sublist_drop _ _)). }
  rewrite Hhist, list_lookup_fmap, Hm. simpl.
  rewrite value_map_lookup_None; [reflexivity|].
  rewrite Hds. intros Hin. apply list_elem_of_In in Hin.
  apply list_elem_of_lookup in Hin as [k Hk].
  rewrite lookup_drop in Hk.
  assert (Hjd : map ip_date (macdLine r) !! j = Some (ip_date m)).
  { change (map ip_date ?l) with (ip_date <$> l).
    now rewrite list_lookup_fmap, Hm. }
  pose proof (NoDup_lookup _ _ _ _ Hndm Hk Hjd). lia.
Qed.

Lemma macd_histogram_before_signal_witness :
  exists r m,
    calculateMACD bars_1_to_4 1 2 2 = Some r
    /\ macdLine r !! 0 = Some m
    /\ histogram r !! 0 = Some (mkIndicatorPoint (ip_date m) (value m - 0)%Q).
Proof.
  eexists. eexists. split; [reflexivity|]. split; [reflexivity|].
  eapply (macd_histogram_before_signal bars_1_to_4 1 2 2).
  - apply (bool_decide_unpack (NoDup (map date bars_1_to_4))). exact I.
  - reflexivity.
  - lia.
  - reflexivity.
Defined.

(** X10. calculateBollingerBands returns [null] for a series shorter than the
    period; in every band point, for a non-negative [devs] and a
    square-root function without negative values, the bands are ordered
    [lower <= middle <= upper]. *)
Theorem bollinger_bands_order (Math_sqrt : Q -> Q) (data : list PricePoint)
    (period : nat) (devs : Q) :
  (forall x, 0 <= Math_sqrt x)%Q -> (0 <= devs)%Q ->
  (length data < period ->
     calculateBollingerBands Math_sqrt data period devs = None)
  /\ (forall bb b,
        calculateBollingerBands Math_sqrt data period devs = Some bb ->
        In b bb ->
        (lower b <= middle b <= upper b)%Q).
Proof.
  intros Hsqrt Hdevs. unfold calculateBollingerBands. split.
  - intros Hn. destruct (Nat.ltb_spec (length data) period); [reflexivity|lia].
  - intros bb b Hbb Hin.
    destruct (length data <? period); [discriminate|]. injection Hbb as <-.
    apply in_map_iff in Hin as (i & <- & _). simpl.
    pose proof (Qmult_le_0_compat _ _ Hdevs
                  (Hsqrt (fold_left (fun s v =>
                     (s + (v - Qsum (window data period i)
                               / Qnat (length (window data period i))) ^ 2)%Q)
                     (window data period i) 0
                   / Qnat (length (window data period i)))%Q)) as Hprod.
    unfold calculateSD. lra.
Qed.

Lemma bollinger_bands_order_witness :
  (length bars_1_to_5 < 3 ->
     calculateBollingerBands sqrt_6_decimals bars_1_to_5 3 2 = None)
  /\ (forall bb b,
        calculateBollingerBands sqrt_6_decimals bars_1_to_5 3 2 = Some bb ->
        In b bb ->
        (lower b <= middle b <= upper b)%Q).
Proof.
  apply (bollinger_bands_order sqrt_6_decimals bars_1_to_5 3 2).
  - intros x. unfold sqrt_6_decimals, Qle. cbn [Qnum Qden].
    pose proof (Z.sqrt_nonneg (Qnum x * 10 ^ 12 / Z.pos (Qden x))). lia.
  - unfold Qle. simpl. lia.
Defined.

(** X11. calculateFibonacci returns [null] exactly when fewer than two
    closes are numbers. *)
Theorem calculateFibonacci_none_iff (raw : list (option Q)) :
  calculateFibonacci raw = None <-> length (numeric_closes raw) < 2.
Proof.
  pose proof (numeric_closes_length raw) as Hlen.
  unfold calculateFibonacci.
  destruct (Nat.ltb_spec (length raw) 2) as [H|H].
  - split; [lia|reflexivity].
  - destruct (numeric_closes raw) as [|c0 [|c1 rest]]; simpl.
    + split; [lia|reflexivity].
    + split; [lia|reflexivity].
    + split; [discriminate|lia].
Qed.

(** * Properties of the further functions *)

(** ** calculateRSISmoothing *)

Lemma attach_smoothing_keeps sqrt type values len mult ma i d :
  sp_date (attach_smoothing sqrt type values len mult ma i d) = ip_date d
  /\ sp_value (attach_smoothing sqrt type values len mult ma i d) = value d.
Proof.
  unfold attach_smoothing.
  destruct type, (nth i ma None); try destruct (len - 1 <=? i); auto.
Qed.

(** X12. calculateRSISmoothing passes [null] through and otherwise returns
    the RSI points themselves, in order, with their dates and values
    unchanged, whatever the smoothing type; a series shorter than the
    smoothing length comes back without any smoothing or band field. *)
Theorem smoothing_keeps_rsi_series (Math_sqrt : Q -> Q)
    (rsi : list IndicatorPoint) (type : SmoothingType) (len : nat) (mult : Q) :
  calculateRSISmoothing Math_sqrt None type len mult = None
  /\ exists out,
       calculateRSISmoothing Math_sqrt (Some rsi) type len mult = Some out
       /\ map sp_date out = map ip_date rsi
       /\ map sp_value out = map value rsi
       /\ (length rsi < len ->
           Forall (fun p => smoothing p = None /\ smoothingUpper p = None
                            /\ smoothingLower p = None) out).
Proof.
  split; [reflexivity|]. unfold calculateRSISmoothing.
  destruct (Nat.ltb_spec (length rsi) len) as [Hlt|Hge].
  - eexists. split; [reflexivity|]. rewrite !map_map. simpl.
    split; [reflexivity|]. split; [reflexivity|]. intros _.
    apply Forall_map. apply Forall_forall. intros d _. simpl. auto.
  - eexists. split; [reflexivity|].
    split; [|split; [|lia]].
    + apply list_eq. intros i.
      change (map ?f ?l) with (f <$> l).
      rewrite !list_lookup_fmap, list_lookup_imap.
      destruct (rsi !! i) as [d|]; [|reflexivity]. simpl.
      f_equal. apply attach_smoothing_keeps.
    + apply list_eq. intros i.
      change (map ?f ?l) with (f <$> l).
      rewrite !list_lookup_fmap, list_lookup_imap.
      destruct (rsi !! i) as [d|]; [|reflexivity]. simpl.
      f_equal. apply attach_smoothing_keeps.
Qed.

Lemma smoothing_keeps_rsi_series_witness :
  exists out,
    calculateRSISmoothing sqrt_6_decimals (Some rsi_sample) SMA_BB 5 2 = Some out
    /\ map sp_date out = map ip_date rsi_sample
    /\ map sp_value out = map value rsi_sample
    /\ Forall (fun p => smoothing p = None /\ smoothingUpper p = None
                        /\ smoothingLower p = None) out.
Proof.
  destruct (smoothing_keeps_rsi_series sqrt_6_decimals rsi_sample SMA_BB 5 2)
    as [_ (out & H1 & H2 & H3 & H4)].
  exists out. repeat split; [exact H1|exact H2|exact H3|].
  apply H4. simpl. lia.
Defined.

Lemma calculateStDev_population_sd sqrt arr :
  calculateStDev sqrt arr = population_sd sqrt arr.
Proof.
  unfold calculateStDev, population_sd, population_variance, mean.
  unfold Qsum at 2.
  now rewrite <- (fold_left_map_acc
                    (fun v => ((v - Qsum arr / Qnat (length arr)) ^ 2)%Q)).
Qed.

Lemma smoothing_sma_values_nth values len i :
  i < length values ->
  nth i (smoothing_sma_values values len) None
  = if i <? len - 1 then None
    else Some (Qsum (value_slice values len i) / Qnat len)%Q.
Proof.
  intros Hi. unfold smoothing_sma_values. rewrite nth_lookup.
  change (map ?f ?l) with (f <$> l).
  rewrite list_lookup_fmap, lookup_seq_lt by exact Hi. reflexivity.
Qed.

(** X13. calculateRSISmoothing with type ['SMA'] or ['SMA + Bollinger Bands']
    and [1 <= length <= n]: the points before index [length - 1] carry no
    smoothing and no bands; from index [length - 1] on, [smoothing] is the
    mean of the [length] RSI values ending at the point, and with the
    Bollinger type the bands are [smoothing + sigma * mult] and
    [smoothing - sigma * mult], [sigma] being the population standard
    deviation of the same values (with type ['SMA'] there are no bands). *)
Theorem smoothing_sma_and_bands (Math_sqrt : Q -> Q)
    (rsi : list IndicatorPoint) (type : SmoothingType) (len : nat) (mult : Q)
    (out : list SmoothedPoint) :
  type = SMA \/ type = SMA_BB ->
  1 <= len <= length rsi ->
  calculateRSISmoothing Math_sqrt (Some rsi) type len mult = Some out ->
  forall i p, out !! i = Some p ->
    let slice := value_slice (map value rsi) len i in
    (i < len - 1 ->
       smoothing p = None /\ smoothingUpper p = None /\ smoothingLower p = None)
    /\ (len - 1 <= i ->
          smoothing p = Some (Qsum slice / Qnat len)%Q
          /\ (type = SMA -> smoothingUpper p = None /\ smoothingLower p = None)
          /\ (type = SMA_BB ->
                smoothingUpper p
                = Some (Qsum slice / Qnat len
                        + population_sd Math_sqrt slice * mult)%Q
                /\ smoothingLower p
                   = Some (Qsum slice / Qnat len
                           - population_sd Math_sqrt slice * mult)%Q)).
Proof.
  intros Hty Hlen Hout i p Hp slice.
  unfold calculateRSISmoothing in Hout.
  destruct (Nat.ltb_spec (length rsi) len); [lia|].
  assert (Hout' : out = imap (attach_smoothing Math_sqrt type (map value rsi) len mult
                               (smoothing_sma_values (map value rsi) len)) rsi).
  { destruct Hty as [-> | ->]; now injection Hout as <-. }
  clear Hout. subst out.
  rewrite list_lookup_imap in Hp.
  destruct (rsi !! i) as [d|] eqn:Hd; [|discriminate].
  simpl in Hp. injection Hp as <-.
  assert (Hi : i < length (map value rsi)).
  { rewrite length_map. eapply lookup_lt_Some. exact Hd. }
  unfold attach_smoothing. rewrite (smoothing_sma_values_nth _ _ _ Hi).
  fold slice.
  destruct (Nat.ltb_spec i (len - 1)) as [Hlt|Hge].
  - split; [|lia]. intros _. destruct Hty as [-> | ->]; simpl; auto.
  - split; [lia|]. intros _.
    destruct Hty as [-> | ->]; simpl.
    + split; [reflexivity|]. split; [auto|discriminate].
    + destruct (Nat.leb_spec (len - 1) i); [|lia]. simpl.
      split; [reflexivity|]. split; [discriminate|]. intros _.
      rewrite calculateStDev_population_sd. auto.
Qed.

Lemma smoothing_sma_and_bands_witness :
  exists out p,
    calculateRSISmoothing sqrt_6_decimals (Some rsi_sample) SMA_BB 2 2 = Some out
    /\ out !! 2 = Some p
    /\ let slice := value_slice (map value rsi_sample) 2 2 in
       (2 < 2 - 1 ->
          smoothing p = None /\ smoothingUpper p = None /\ smoothingLower p = None)
       /\ (2 - 1 <= 2 ->
             smoothing p = Some (Qsum slice / Qnat 2)%Q
             /\ (SMA_BB = SMA -> smoothingUpper p = None /\ smoothingLower p = None)
             /\ (SMA_BB = SMA_BB ->
                   smoothingUpper p
                   = Some (Qsum slice / Qnat 2
                           + population_sd sqrt_6_decimals slice * 2)%Q
                   /\ smoothingLower p
                      = Some (Qsum slice / Qnat 2
                              - population_sd sqrt_6_decimals slice * 2)%Q)).
Proof.
  eexists. eexists. split; [vm_compute; reflexivity|]. split; [reflexivity|].
  eapply (smoothing_sma_and_bands sqrt_6_decimals rsi_sample SMA_BB 2 2).
  - right. reflexivity.
  - simpl. lia.
  - vm_compute. reflexivity.
  - reflexivity.
Defined.

Lemma smoothing_ema_loop_trace values len k l ema ma :
  (fold_left (smoothing_ema_step values len k) l (ema, ma)).2
  = ma ++ smoothing_ema_trace values len k ema l.
Proof.
  revert ema ma. induction l as [|i l IH]; intros ema ma; simpl.
  - now rewrite app_nil_r.
  - destruct (i <? len - 1); [|destruct (i =? len - 1)];
      rewrite IH, <- app_assoc; reflexivity.
Qed.

Lemma smoothing_ema_trace_length values len k ema l :
  length (smoothing_ema_trace values len k ema l) = length l.
Proof.
  revert ema. induction l as [|i l IH]; intros ema; simpl; [reflexivity|].
  destruct (i <? len - 1); [|destruct (i =? len - 1)]; simpl; now rewrite IH.
Qed.

Lemma smoothing_ema_trace_before values len k l :
  forall ema j i, l !! j = Some i -> i < len - 1 ->
    smoothing_ema_trace values len k ema l !! j = Some None.
Proof.
  induction l as [|i0 l IH]; intros ema j i Hj Hi; [discriminate|].
  destruct j as [|j]; simpl in *.
  - injection Hj as ->. destruct (Nat.ltb_spec i (len - 1)); [reflexivity|lia].
  - destruct (i0 <? len - 1); [|destruct (i0 =? len - 1)]; simpl; eauto.
Qed.

Lemma smoothing_ema_trace_seed values len k l :
  forall ema j,
    (forall j' i', j' < j -> l !! j' = Some i' -> i' < len - 1) ->
    l !! j = Some (len - 1) ->
    smoothing_ema_trace values len k ema l !! j = Some (Some ema).
Proof.
  induction l as [|i0 l IH]; intros ema j Hbefore Hj; [discriminate|].
  destruct j as [|j]; simpl in *.
  - injection Hj as ->.
    destruct (Nat.ltb_spec (len - 1) (len - 1)); [lia|].
    now rewrite Nat.eqb_refl.
  - pose proof (Hbefore 0 i0 ltac:(lia) eq_refl) as H0.
    destruct (Nat.ltb_spec i0 (len - 1)); [|lia]. simpl.
    apply IH; [|exact Hj].
    intros j' i' Hj' Hl. apply (Hbefore (S j') i'); [lia|exact Hl].
Qed.

Lemma smoothing_ema_trace_next values len k l :
  forall ema j i0 i q,
    l !! j = Some i0 -> len - 1 <= i0 ->
    l !! S j = Some i -> len - 1 < i ->
    smoothing_ema_trace values len k ema l !! j = Some q ->
    exists e, q = Some e
      /\ smoothing_ema_trace values len k ema l !! S j
         = Some (Some (num_at values i * k + e * (1 - k))%Q).
Proof.
  induction l as [|i1 l IH]; intros ema j i0 i q Hj Hi0 Hsj Hi Hq; [discriminate|].
  destruct j as [|j].
  - destruct l as [|i2 l]; [discriminate|]. simpl in *.
    injection Hj as ->. injection Hsj as ->.
    destruct (Nat.ltb_spec i0 (len - 1)); [lia|].
    destruct (Nat.ltb_spec i (len - 1)); [lia|].
    destruct (Nat.eqb_spec i (len - 1)); [lia|].
    destruct (i0 =? len - 1); simpl in *; injection Hq as <-;
      eexists; split; reflexivity.
  - simpl in Hj, Hsj. simpl in Hq |- *.
    destruct (i1 <? len - 1); [|destruct (i1 =? len - 1)]; simpl in *;
      eapply IH; eassumption.
Qed.

(** X14. calculateRSISmoothing with type ['EMA'] and [1 <= length <= n]:
    no point carries bands; the points before index [length - 1] carry no
    smoothing; the point at index [length - 1] carries the mean of the first
    [length] RSI values; and every later point carries
    [rsi * k + previous * (1 - k)] with [k = 2 / (length + 1)], where [rsi]
    is its own RSI value and [previous] the smoothing of the point before. *)
Theorem smoothing_ema_values_spec (Math_sqrt : Q -> Q)
    (rsi : list IndicatorPoint) (len : nat) (mult : Q)
    (out : list SmoothedPoint) :
  1 <= len <= length rsi ->
  calculateRSISmoothing Math_sqrt (Some rsi) EMA len mult = Some out ->
  (forall i p, out !! i = Some p ->
     smoothingUpper p = None /\ smoothingLower p = None
     /\ (i < len - 1 -> smoothing p = None)
     /\ (i = len - 1 ->
         smoothing p = Some (Qsum (firstn len (map value rsi)) / Qnat len)%Q))
  /\ (forall i q p, len - 1 <= i -> out !! i = Some q -> out !! S i = Some p ->
        exists e, smoothing q = Some e
          /\ smoothing p = Some (sp_value p * (2 / (Qnat len + 1))
                                 + e * (1 - 2 / (Qnat len + 1)))%Q).
Proof.
  intros Hlen Hout. unfold calculateRSISmoothing in Hout.
  destruct (Nat.ltb_spec (length rsi) len); [lia|]. injection Hout as <-.
  set (values := map value rsi).
  set (k := (2 / (Qnat len + 1))%Q).
  set (seed := (Qsum (firstn len values) / Qnat len)%Q).
  assert (Hma : smoothing_ema_values values len
                = smoothing_ema_trace values len k seed (seq 0 (length values))).
  { unfold smoothing_ema_values. now rewrite smoothing_ema_loop_trace. }
  assert (Hnv : length values = length rsi) by apply length_map.
  assert (Hat : forall i d, rsi !! i = Some d ->
            attach_smoothing Math_sqrt EMA values len mult
              (smoothing_ema_values values len) i d
            = mkSmoothed (ip_date d) (value d)
                (nth i (smoothing_ema_values values len) None) None None).
  { intros i d _. unfold attach_smoothing.
    destruct (nth i (smoothing_ema_values values len) None); reflexivity. }
  split.
  - intros i p Hp. rewrite list_lookup_imap in Hp.
    destruct (rsi !! i) as [d|] eqn:Hd; [|discriminate].
    cbv [fmap option_fmap option_map] in Hp. injection Hp as <-.
    rewrite ?(Hat i d Hd). simpl.
    pose proof (lookup_lt_Some _ _ _ Hd) as Hi.
    split; [reflexivity|]. split; [reflexivity|].
    rewrite nth_lookup, Hma. split.
    + intros Hlt.
      rewrite (smoothing_ema_trace_before values len k _ seed i i);
        [reflexivity| |exact Hlt].
      rewrite lookup_seq. lia.
    + intros ->.
      rewrite (smoothing_ema_trace_seed values len k _ seed (len - 1)).
      * reflexivity.
      * intros j' i' Hj' Hl. apply lookup_seq in Hl. lia.
      * rewrite lookup_seq. lia.
  - intros i q p Hi Hq Hp. rewrite list_lookup_imap in Hq, Hp.
    destruct (rsi !! i) as [dq|] eqn:Hdq; [|discriminate].
    destruct (rsi !! S i) as [dp|] eqn:Hdp; [|discriminate].
    cbv [fmap option_fmap option_map] in Hq, Hp.
    injection Hq as <-. injection Hp as <-.
    rewrite ?(Hat i dq Hdq), ?(Hat (S i) dp Hdp). simpl.
    pose proof (lookup_lt_Some _ _ _ Hdp) as HSi.
    rewrite !nth_lookup, Hma.
    destruct (lookup_lt_is_Some_2
                (smoothing_ema_trace values len k seed (seq 0 (length values))) i)
      as [qv Hqv].
    { rewrite smoothing_ema_trace_length, length_seq. lia. }
    destruct (smoothing_ema_trace_next values len k (seq 0 (length values))
                seed i i (S i) qv)
      as (e & -> & Hnext); try (rewrite lookup_seq; lia); try lia; try exact Hqv.
    rewrite Hqv, Hnext. simpl. exists e. split; [reflexivity|].
    do 3 f_equal. unfold num_at, values. rewrite nth_lookup.
    change (map value rsi) with (value <$> rsi).
    now rewrite list_lookup_fmap, Hdp.
Qed.

Lemma smoothing_ema_values_spec_witness :
  exists out,
    calculateRSISmoothing sqrt_6_decimals (Some rsi_sample) EMA 2 2 = Some out
    /\ (forall i p, out !! i = Some p ->
          smoothingUpper p = None /\ smoothingLower p = None
          /\ (i < 2 - 1 -> smoothing p = None)
          /\ (i = 2 - 1 ->
              smoothing p
              = Some (Qsum (firstn 2 (map value rsi_sample)) / Qnat 2)%Q))
    /\ (forall i q p, 2 - 1 <= i -> out !! i = Some q -> out !! S i = Some p ->
          exists e, smoothing q = Some e
            /\ smoothing p = Some (sp_value p * (2 / (Qnat 2 + 1))
                                   + e * (1 - 2 / (Qnat 2 + 1)))%Q).
Proof.
  eexists. split; [reflexivity|].
  apply (smoothing_ema_values_spec sqrt_6_decimals rsi_sample 2 2).
  - simpl. lia.
  - reflexivity.
Defined.

(** ** calculateDivergence *)

Lemma last_pivot_low_unique rsiVals lbL lbR i j j' :
  last_pivot_low_before rsiVals lbL lbR i j ->
  last_pivot_low_before rsiVals lbL lbR i j' -> j = j'.
Proof.
  intros (H1 & H2 & H3) (H1' & H2' & H3').
  destruct (Nat.lt_trichotomy j j') as [H|[H|H]]; [|exact H|].
  - rewrite (H3 j') in H2' by lia. discriminate.
  - rewrite (H3' j) in H2 by lia. discriminate.
Qed.

Lemma last_pivot_high_unique rsiVals lbL lbR i j j' :
  last_pivot_high_before rsiVals lbL lbR i j ->
  last_pivot_high_before rsiVals lbL lbR i j' -> j = j'.
Proof.
  intros (H1 & H2 & H3) (H1' & H2' & H3').
  destruct (Nat.lt_trichotomy j j') as [H|[H|H]]; [|exact H|].
  - rewrite (H3 j') in H2' by lia. discriminate.
  - rewrite (H3' j) in H2 by lia. discriminate.
Qed.

Lemma check_bullish_step combined lbL lbR i st :
  bullish_invariant combined lbL lbR i st ->
  bullish_invariant combined lbL lbR (S i) (check_bullish combined lbL lbR st i).
Proof.
  unfold bullish_invariant, check_bullish.
  set (rsiVals := map cp_value combined).
  set (lowVals := map priceLow combined).
  intros [Hlast Hdiv].
  destruct (isPivotLow rsiVals i lbL lbR) eqn:Hpiv.
  - (* a pivot low at [i] *)
    cbn [lastPL divergences]. split.
    { cbn [pv_index pv_rsi pv_price]. split; [|auto].
      split; [lia|]. split; [exact Hpiv|]. intros k Hk. lia. }
    intros d. destruct (lastPL st) as [pl|].
    + destruct Hlast as (Hbefore & Hrsi & Hprice).
      assert (Hiff : lt_defined (nth i lowVals None) (pv_price pl)
                     && Qltb (pv_rsi pl) (num_at rsiVals i) = true
                     <-> bullish_at combined lbL lbR i).
      { unfold bullish_at. fold rsiVals lowVals.
        rewrite andb_true_iff, Qltb_lt, Hrsi, Hprice. split.
        - intros [H1 H2]. split; [exact Hpiv|]. exists (pv_index pl). auto.
        - intros (_ & j & Hj & H1 & H2).
          rewrite (last_pivot_low_unique _ _ _ _ _ _ Hbefore Hj). auto. }
      destruct (lt_defined (nth i lowVals None) (pv_price pl)
                && Qltb (pv_rsi pl) (num_at rsiVals i)) eqn:Hc.
      * rewrite in_app_iff. split.
        -- intros [[Hin|Hin] Hty].
           ++ destruct (proj1 (Hdiv d) (conj Hin Hty)) as (k & Hk & Hb & Hd).
              exists k. split; [lia|]. auto.
           ++ destruct Hin as [<-|[]]. exists i. split; [lia|].
              split; [now apply Hiff|reflexivity].
        -- intros (k & Hk & Hb & ->). split; [|reflexivity].
           destruct (Nat.eq_dec k i) as [->|Hne].
           ++ right. left. reflexivity.
           ++ left. apply (Hdiv (divergence_at combined bull k)).
              exists k. split; [lia|]. auto.
      * split.
        -- intros Hd. destruct (proj1 (Hdiv d) Hd) as (k & Hk & Hb & Hdk).
           exists k. split; [lia|]. auto.
        -- intros (k & Hk & Hb & ->).
           destruct (Nat.eq_dec k i) as [->|Hne].
           ++ apply Hiff in Hb. discriminate.
           ++ apply Hdiv. exists k. split; [lia|]. auto.
    + split.
      * intros Hd. destruct (proj1 (Hdiv d) Hd) as (k & Hk & Hb & Hdk).
        exists k. split; [lia|]. auto.
      * intros (k & Hk & Hb & ->).
        destruct (Nat.eq_dec k i) as [->|Hne].
        -- destruct Hb as (_ & j & (Hj & Hpj & _) & _).
           fold rsiVals in Hpj. rewrite (Hlast j Hj) in Hpj. discriminate.
        -- apply Hdiv. exists k. split; [lia|]. auto.
  - (* no pivot low at [i] *)
    split.
    + destruct (lastPL st) as [pl|].
      * destruct Hlast as ((H1 & H2 & H3) & Hrsi & Hprice).
        split; [|auto]. split; [lia|]. split; [exact H2|].
        intros k Hk. destruct (Nat.eq_dec k i) as [->|Hne]; [exact Hpiv|].
        apply H3. lia.
      * intros k Hk. destruct (Nat.eq_dec k i) as [->|Hne]; [exact Hpiv|].
        apply Hlast. lia.
    + intros d. split.
      * intros Hd. destruct (proj1 (Hdiv d) Hd) as (k & Hk & Hb & Hdk).
        exists k. split; [lia|]. auto.
      * intros (k & Hk & Hb & ->).
        destruct (Nat.eq_dec k i) as [->|Hne].
        -- destruct Hb as [Hb _]. fold rsiVals in Hb. congruence.
        -- apply Hdiv. exists k. split; [lia|]. auto.
Qed.

Lemma check_bearish_step combined lbL lbR i st :
  bearish_invariant combined lbL lbR i st ->
  bearish_invariant combined lbL lbR (S i) (check_bearish combined lbL lbR st i).
Proof.
  unfold bearish_invariant, check_bearish.
  set (rsiVals := map cp_value combined).
  set (highVals := map priceHigh combined).
  intros [Hlast Hdiv].
  destruct (isPivotHigh rsiVals i lbL lbR) eqn:Hpiv.
  - (* a pivot high at [i] *)
    cbn [lastPH divergences]. split.
    { cbn [pv_index pv_rsi pv_price]. split; [|auto].
      split; [lia|]. split; [exact Hpiv|]. intros k Hk. lia. }
    intros d. destruct (lastPH st) as [ph|].
    + destruct Hlast as (Hbefore & Hrsi & Hprice).
      assert (Hiff : lt_defined (pv_price ph) (nth i highVals None)
                     && Qltb (num_at rsiVals i) (pv_rsi ph) = true
                     <-> bearish_at combined lbL lbR i).
      { unfold bearish_at. fold rsiVals highVals.
        rewrite andb_true_iff, Qltb_lt, Hrsi, Hprice. split.
        - intros [H1 H2]. split; [exact Hpiv|]. exists (pv_index ph). auto.
        - intros (_ & j & Hj & H1 & H2).
          rewrite (last_pivot_high_unique _ _ _ _ _ _ Hbefore Hj). auto. }
      destruct (lt_defined (pv_price ph) (nth i highVals None)
                && Qltb (num_at rsiVals i) (pv_rsi ph)) eqn:Hc.
      * rewrite in_app_iff. split.
        -- intros [[Hin|Hin] Hty].
           ++ destruct (proj1 (Hdiv d) (conj Hin Hty)) as (k & Hk & Hb & Hd).
              exists k. split; [lia|]. auto.
           ++ destruct Hin as [<-|[]]. exists i. split; [lia|].
              split; [now apply Hiff|reflexivity].
        -- intros (k & Hk & Hb & ->). split; [|reflexivity].
           destruct (Nat.eq_dec k i) as [->|Hne].
           ++ right. left. reflexivity.
           ++ left. apply (Hdiv (divergence_at combined bear k)).
              exists k. split; [lia|]. auto.
      * split.
        -- intros Hd. destruct (proj1 (Hdiv d) Hd) as (k & Hk & Hb & Hdk).
           exists k. split; [lia|]. auto.
        -- intros (k & Hk & Hb & ->).
           destruct (Nat.eq_dec k i) as [->|Hne].
           ++ apply Hiff in Hb. discriminate.
           ++ apply Hdiv. exists k. split; [lia|]. auto.
    + split.
      * intros Hd. destruct (proj1 (Hdiv d) Hd) as (k & Hk & Hb & Hdk).
        exists k. split; [lia|]. auto.
      * intros (k & Hk & Hb & ->).
        destruct (Nat.eq_dec k i) as [->|Hne].
        -- destruct Hb as (_ & j & (Hj & Hpj & _) & _).
           fold rsiVals in Hpj. rewrite (Hlast j Hj) in Hpj. discriminate.
        -- apply Hdiv. exists k. split; [lia|]. auto.
  - (* no pivot high at [i] *)
    split.
    + destruct (lastPH st) as [ph|].
      * destruct Hlast as ((H1 & H2 & H3) & Hrsi & Hprice).
        split; [|auto]. split; [lia|]. split; [exact H2|].
        intros k Hk. destruct (Nat.eq_dec k i) as [->|Hne]; [exact Hpiv|].
        apply H3. lia.
      * intros k Hk. destruct (Nat.eq_dec k i) as [->|Hne]; [exact Hpiv|].
        apply Hlast. lia.
    + intros d. split.
      * intros Hd. destruct (proj1 (Hdiv d) Hd) as (k & Hk & Hb & Hdk).
        exists k. split; [lia|]. auto.
      * intros (k & Hk & Hb & ->).
        destruct (Nat.eq_dec k i) as [->|Hne].
        -- destruct Hb as [Hb _]. fold rsiVals in Hb. congruence.
        -- apply Hdiv. exists k. split; [lia|]. auto.
Qed.

(** Each block leaves the other block's invariant alone: it does not touch
    the other pivot record and writes divergences of its own type only. *)
Lemma check_bullish_keeps_bearish combined lbL lbR i j st :
  bearish_invariant combined lbL lbR j st ->
  bearish_invariant combined lbL lbR j (check_bullish combined lbL lbR st i).
Proof.
  unfold bearish_invariant, check_bullish. intros [Hlast Hdiv].
  destruct (isPivotLow _ i lbL lbR); [|split; assumption].
  cbn [lastPH divergences]. split; [exact Hlast|].
  intros d. rewrite <- Hdiv.
  destruct (lastPL st) as [pl|]; [|reflexivity].
  destruct (_ && _); [|reflexivity].
  rewrite in_app_iff. split; [|tauto].
  intros [[H|[<-|[]]] Hty]; [tauto|discriminate].
Qed.

Lemma check_bearish_keeps_bullish combined lbL lbR i j st :
  bullish_invariant combined lbL lbR j st ->
  bullish_invariant combined lbL lbR j (check_bearish combined lbL lbR st i).
Proof.
  unfold bullish_invariant, check_bearish. intros [Hlast Hdiv].
  destruct (isPivotHigh _ i lbL lbR); [|split; assumption].
  cbn [lastPL divergences]. split; [exact Hlast|].
  intros d. rewrite <- Hdiv.
  destruct (lastPH st) as [ph|]; [|reflexivity].
  destruct (_ && _); [|reflexivity].
  rewrite in_app_iff. split; [|tauto].
  intros [[H|[<-|[]]] Hty]; [tauto|discriminate].
Qed.

Lemma isPivotLow_range rsiVals i lbL lbR :
  isPivotLow rsiVals i lbL lbR = true -> lbL <= i /\ i < length rsiVals - lbR.
Proof.
  unfold isPivotLow.
  destruct (i <? lbL) eqn:H1; [discriminate|].
  destruct (length rsiVals - lbR <=? i) eqn:H2; [discriminate|].
  intros _. apply Nat.ltb_ge in H1. apply Nat.leb_gt in H2. lia.
Qed.

Lemma isPivotHigh_range rsiVals i lbL lbR :
  isPivotHigh rsiVals i lbL lbR = true -> lbL <= i /\ i < length rsiVals - lbR.
Proof.
  unfold isPivotHigh.
  destruct (i <? lbL) eqn:H1; [discriminate|].
  destruct (length rsiVals - lbR <=? i) eqn:H2; [discriminate|].
  intros _. apply Nat.ltb_ge in H1. apply Nat.leb_gt in H2. lia.
Qed.

Lemma divergence_loop_invariant combined lbL lbR m :
  bullish_invariant combined lbL lbR (lbL + m)
    (divergence_state_after combined lbL lbR m)
  /\ bearish_invariant combined lbL lbR (lbL + m)
    (divergence_state_after combined lbL lbR m).
Proof.
  unfold divergence_state_after. induction m as [|m [IHl IHh]].
  - rewrite Nat.add_0_r. cbn [seq fold_left].
    unfold bullish_invariant, bearish_invariant.
    cbn [lastPL lastPH divergences]. split; split.
    + intros k Hk. destruct (isPivotLow _ k lbL lbR) eqn:Hp; [|reflexivity].
      apply isPivotLow_range in Hp. lia.
    + intros d. split; [intros [[] _]|].
      intros (k & Hk & [Hp _] & _). apply isPivotLow_range in Hp. lia.
    + intros k Hk. destruct (isPivotHigh _ k lbL lbR) eqn:Hp; [|reflexivity].
      apply isPivotHigh_range in Hp. lia.
    + intros d. split; [intros [[] _]|].
      intros (k & Hk & [Hp _] & _). apply isPivotHigh_range in Hp. lia.
  - rewrite seq_S, fold_left_app. cbn [fold_left]. unfold divergence_step.
    rewrite Nat.add_succ_r. split.
    + apply check_bearish_keeps_bullish, check_bullish_step, IHl.
    + apply check_bearish_step, check_bullish_keeps_bearish, IHh.
Qed.

Lemma js_map_of_fold_In {V} (l : list (Z * V)) (m : gmap Z V) k v :
  fold_left (fun acc kv => <[fst kv := snd kv]> acc) l m !! k = Some v ->
  In (k, v) l \/ m !! k = Some v.
Proof.
  revert m. induction l as [|[k' v'] l IH]; intros m; cbn [fold_left].
  - auto.
  - intros H. destruct (IH _ H) as [Hin|Hm]; [left; right; exact Hin|].
    cbn [fst snd] in Hm. destruct (decide (k' = k)) as [->|Hne].
    + rewrite lookup_insert_eq in Hm. injection Hm as ->. left. left. reflexivity.
    + rewrite lookup_insert_ne in Hm by exact Hne. auto.
Qed.

Lemma combine_with_prices_from rsiData priceData c :
  In c (combine_with_prices rsiData priceData) ->
  exists p, In p priceData /\ priceHigh c = c_high p /\ priceLow c = c_low p.
Proof.
  unfold combine_with_prices, js_map_of. intros Hin.
  apply list_elem_of_In, list_elem_of_omap in Hin.
  destruct Hin as (r & _ & Hr).
  destruct (_ !! ip_date r) as [p|] eqn:Hp; [|discriminate].
  injection Hr as <-. exists p. split; [|split; reflexivity].
  apply js_map_of_fold_In in Hp. destruct Hp as [Hp|Hp].
  - apply in_map_iff in Hp. destruct Hp as (p' & Heq & Hin').
    injection Heq as _ ->. exact Hin'.
  - rewrite lookup_empty in Hp. discriminate.
Qed.

Lemma nth_map_None {A B} (f : A -> option B) (l : list A) i :
  (forall a, In a l -> f a = None) -> nth i (map f l) None = None.
Proof.
  revert i. induction l as [|a l IH]; intros [|i] H; cbn [map nth]; auto.
  - apply H. left. reflexivity.
  - apply IH. intros b Hb. apply H. right. exact Hb.
Qed.

(** X15. calculateDivergence reports exactly the divergences that are due:
    an entry is in the result if and only if it is the entry (date and RSI
    value of the point, type bull) of an index where the RSI has a pivot low
    whose price low is below, and whose RSI is above, those of the most
    recent pivot low before it, or the entry (type bear) of an index where
    the RSI has a pivot high whose price high is above, and whose RSI is
    below, those of the most recent pivot high before it. *)
Theorem calculateDivergence_exactly_due
    (rsi : list IndicatorPoint) (prices : list Candle) (lbL lbR : nat)
    (d : Divergence) :
  let combined := combine_with_prices rsi prices in
  In d (calculateDivergence (Some rsi) (Some prices) lbL lbR) <->
  exists i,
    (bullish_at combined lbL lbR i /\ d = divergence_at combined bull i)
    \/ (bearish_at combined lbL lbR i /\ d = divergence_at combined bear i).
Proof.
  intros combined. unfold calculateDivergence. fold combined.
  set (m := length combined - lbR - lbL).
  destruct (divergence_loop_invariant combined lbL lbR m) as [[_ Hl] [_ Hh]].
  split.
  - intros Hin. destruct (dv_type d) eqn:Hty.
    + destruct (proj1 (Hl d) (conj Hin Hty)) as (k & _ & Hb & Hd). eauto.
    + destruct (proj1 (Hh d) (conj Hin Hty)) as (k & _ & Hb & Hd). eauto.
  - intros (i & [[Hb ->]|[Hb ->]]).
    + apply (Hl (divergence_at combined bull i)). exists i.
      split; [|auto]. destruct Hb as [Hp _].
      apply isPivotLow_range in Hp. rewrite length_map in Hp.
      unfold m. lia.
    + apply (Hh (divergence_at combined bear i)). exists i.
      split; [|auto]. destruct Hb as [Hp _].
      apply isPivotHigh_range in Hp. rewrite length_map in Hp.
      unfold m. lia.
Qed.

(** X16. On bars that carry no high and no low (only date and close, as the
    history the backend sends), calculateDivergence finds nothing, whatever
    the RSI series and the lookbacks are. *)
Theorem calculateDivergence_needs_high_low
    (rsiData : option (list IndicatorPoint)) (prices : list Candle)
    (lbL lbR : nat)
    (Hbars : forall p, In p prices -> c_high p = None /\ c_low p = None) :
  calculateDivergence rsiData (Some prices) lbL lbR = [].
Proof.
  destruct rsiData as [rsi|]; [|reflexivity].
  destruct (calculateDivergence (Some rsi) (Some prices) lbL lbR)
    as [|d ds] eqn:Hres; [reflexivity|exfalso].
  assert (Hin : In d (calculateDivergence (Some rsi) (Some prices) lbL lbR))
    by (rewrite Hres; left; reflexivity).
  set (combined := combine_with_prices rsi prices).
  assert (Hlow : forall i, nth i (map priceLow combined) None = None).
  { intros i. apply nth_map_None. intros c Hc.
    destruct (combine_with_prices_from _ _ _ Hc) as (p & Hp & _ & ->).
    apply Hbars, Hp. }
  assert (Hhigh : forall i, nth i (map priceHigh combined) None = None).
  { intros i. apply nth_map_None. intros c Hc.
    destruct (combine_with_prices_from _ _ _ Hc) as (p & Hp & -> & _).
    apply Hbars, Hp. }
  destruct (divergence_loop_invariant combined lbL lbR
              (length combined - lbR - lbL)) as [[_ Hl] [_ Hh]].
  unfold calculateDivergence in Hin. fold combined in Hin.
  destruct (dv_type d) eqn:Hty.
  - destruct (proj1 (Hl d) (conj Hin Hty))
      as (k & _ & (_ & j & _ & Hlt & _) & _).
    rewrite Hlow in Hlt. discriminate.
  - destruct (proj1 (Hh d) (conj Hin Hty))
      as (k & _ & (_ & j & _ & Hlt & _) & _).
    rewrite (Hhigh j) in Hlt. discriminate.
Qed.

Lemma calculateDivergence_needs_high_low_witness :
  calculateDivergence (Some rsi_dip_twice) (Some candles_close_only) 1 1 = [].
Proof.
  apply (calculateDivergence_needs_high_low (Some rsi_dip_twice)
           candles_close_only 1 1).
  intros p Hp. unfold candles_close_only in Hp. cbn [map In] in Hp.
  repeat (destruct Hp as [<-|Hp]; [split; reflexivity|]). destruct Hp.
Defined.

(** On the bars with lows the second dip is reported as a bullish divergence. *)
Example calculateDivergence_second_dip :
  calculateDivergence (Some rsi_dip_twice) (Some candles_lower_low) 1 1
  = [mkDivergence 4%Z bull 35%Q].
Proof. vm_compute. reflexivity. Qed.

(** ** calculatePeakPoints *)

(** On points of date and close the grouping is [group_by_period]. *)
Lemma group_by_period_by_key tz_offset periodType (data : list PricePoint) :
  group_by_period tz_offset periodType data
  = group_by_key (fun item => getPeriodKey tz_offset periodType (date item)) data.
Proof.
  unfold group_by_period, group_by_key. generalize (@nil (PeriodKey * list PricePoint)).
  induction data as [|x data IH]; intros groups; [reflexivity|].
  cbn [fold_left]. rewrite <- IH. f_equal.
  generalize (getPeriodKey tz_offset periodType (date x)). intros key.
  induction groups as [|[k items] rest IHg]; [reflexivity|].
  cbn [groups_push push_to_group]. rewrite IHg. reflexivity.
Qed.

Lemma push_to_group_items {A} key (item : A) groups k :
  group_items k (push_to_group key item groups)
  = if decide (k = key)
    then Some (default [] (group_items key groups) ++ [item])
    else group_items k groups.
Proof.
  induction groups as [|[k0 its] rest IH]; simpl.
  - destruct (decide (key = k)) as [->|Hne].
    + now rewrite decide_True.
    + rewrite decide_False by congruence. reflexivity.
  - destruct (decide (k0 = key)) as [->|Hne]; simpl.
    + destruct (decide (key = k)) as [->|Hne'].
      * now rewrite decide_True.
      * rewrite decide_False by congruence. reflexivity.
    + destruct (decide (k0 = k)) as [->|Hne'].
      * rewrite decide_False by congruence. reflexivity.
      * exact IH.
Qed.

Lemma push_to_group_keys {A} key (item : A) groups :
  (In key (map fst groups)
   /\ map fst (push_to_group key item groups) = map fst groups)
  \/ (~ In key (map fst groups)
      /\ map fst (push_to_group key item groups) = map fst groups ++ [key]).
Proof.
  induction groups as [|[k0 its] rest IH]; simpl.
  - right. split; [tauto|reflexivity].
  - destruct (decide (k0 = key)) as [->|Hne]; simpl.
    + left. split; [tauto|reflexivity].
    + destruct IH as [[Hin ->]|[Hin ->]].
      * left. split; [tauto|reflexivity].
      * right. split; [tauto|reflexivity].
Qed.

Lemma group_items_In {A} key (items : list A) groups :
  List.NoDup (map fst groups) ->
  In (key, items) groups <-> group_items key groups = Some items.
Proof.
  induction groups as [|[k its] rest IH]; simpl; [intros _; split; [tauto|discriminate]|].
  intros Hnd. apply List.NoDup_cons_iff in Hnd as [Hk Hnd].
  destruct (decide (k = key)) as [->|Hne].
  - split.
    + intros [Heq|Hin]; [congruence|].
      exfalso. apply Hk. now apply (in_map fst) in Hin.
    + intros [= ->]. now left.
  - rewrite <- (IH Hnd). split; [|tauto].
    intros [Heq|Hin]; [congruence|exact Hin].
Qed.

(** The buckets after the grouping: distinct keys, and under each key that
    occurs the items of that key in their order. *)
Lemma group_by_key_fold {A} (kf : A -> PeriodKey) data groups :
  let groups' :=
    fold_left (fun groups item => push_to_group (kf item) item groups)
              data groups in
  (List.NoDup (map fst groups) -> List.NoDup (map fst groups'))
  /\ (forall k, In k (map fst groups')
        <-> In k (map fst groups) \/ In k (map kf data))
  /\ (forall k, default [] (group_items k groups')
        = default [] (group_items k groups)
          ++ List.filter (fun x => bool_decide (kf x = k)) data).
Proof.
  revert groups. induction data as [|x data IH]; intros groups; cbn [fold_left].
  - cbn. split; [auto|]. split; [tauto|]. intros k. now rewrite app_nil_r.
  - destruct (IH (push_to_group (kf x) x groups)) as (IH1 & IH2 & IH3).
    cbv zeta. split; [|split].
    + intros Hnd. apply IH1.
      destruct (push_to_group_keys (kf x) x groups) as [[Hb ->]|[Hb ->]];
        [exact Hnd|].
      apply NoDup_ListNoDup, NoDup_app. split; [now apply NoDup_ListNoDup|].
      split; [|apply NoDup_singleton].
      intros k Hk Hk'. apply list_elem_of_In in Hk, Hk'.
      destruct Hk' as [<-|[]]. tauto.
    + intros k. rewrite IH2. cbn [map In].
      destruct (push_to_group_keys (kf x) x groups) as [[Hb ->]|[Hb ->]].
      * split; [tauto|]. intros [H|[<-|H]]; tauto.
      * rewrite in_app_iff. cbn [In]. tauto.
    + intros k. rewrite IH3, push_to_group_items. cbn [List.filter].
      destruct (decide (k = kf x)) as [->|Hne].
      * rewrite bool_decide_eq_true_2 by reflexivity. cbn.
        now rewrite <- app_assoc.
      * rewrite bool_decide_eq_false_2 by congruence. reflexivity.
Qed.

Lemma group_by_key_spec {A} (kf : A -> PeriodKey) data :
  List.NoDup (map fst (group_by_key kf data))
  /\ forall k items,
       In (k, items) (group_by_key kf data)
       <-> items = List.filter (fun x => bool_decide (kf x = k)) data
           /\ items <> [].
Proof.
  destruct (group_by_key_fold kf data []) as (H1 & H2 & H3).
  cbv zeta in H1, H2, H3. fold (group_by_key kf data) in H1, H2, H3.
  assert (Hnd : List.NoDup (map fst (group_by_key kf data)))
    by (apply H1; constructor).
  split; [exact Hnd|]. intros k items.
  rewrite (group_items_In _ _ _ Hnd). specialize (H3 k). cbn in H3.
  specialize (H2 k). cbn [map In] in H2.
  destruct (group_items k (group_by_key kf data)) as [its|] eqn:Hg.
  - cbn in H3. subst its. split.
    + intros [= <-]. split; [reflexivity|].
      apply group_items_In in Hg; [|exact Hnd].
      apply (in_map fst) in Hg. apply H2 in Hg. destruct Hg as [[]|Hg].
      apply in_map_iff in Hg. destruct Hg as (x & Hx & Hin).
      intros Hnil.
      assert (In x (List.filter (fun x => bool_decide (kf x = k)) data)).
      { apply filter_In. split; [exact Hin|]. now apply bool_decide_eq_true_2. }
      rewrite Hnil in H. destruct H.
    + intros [-> _]. reflexivity.
  - split; [discriminate|]. intros [-> Hne]. cbn in H3. congruence.
Qed.

Lemma Qltb_opp a b : Qltb a b = Qltb (- b) (- a).
Proof.
  destruct (Qltb a b) eqn:H1; destruct (Qltb (- b) (- a)) eqn:H2;
    try reflexivity; exfalso.
  - apply Qltb_lt in H1. apply Qltb_ge in H2. lra.
  - apply Qltb_ge in H1. apply Qltb_lt in H2. lra.
Qed.

Lemma peak_fold_split items h0 l0 :
  fold_left peak_step items (h0, l0)
  = (fold_left (keep_greater high_or_close) items h0,
     fold_left (keep_greater (fun c => - low_or_close c)%Q) items l0).
Proof.
  revert h0 l0. induction items as [|x items IH]; intros h0 l0; [reflexivity|].
  cbn [fold_left peak_step]. rewrite IH. unfold keep_greater.
  now rewrite <- Qltb_opp.
Qed.

(** What such a [forEach] keeps: an item of greatest value, and among the
    items of that value the first one (the initial item counting as before
    all others). *)
Lemma keep_greater_fold (v : Candle -> Q) items k0 :
  let kept := fold_left (keep_greater v) items k0 in
  (v k0 <= v kept)%Q
  /\ (forall x, In x items -> (v x <= v kept)%Q)
  /\ (kept = k0
      \/ exists i, items !! i = Some kept /\ (v k0 < v kept)%Q
           /\ forall j x, j < i -> items !! j = Some x -> (v x < v kept)%Q).
Proof.
  revert k0. induction items as [|x items IH]; intros k0; cbn [fold_left].
  - cbv zeta. split; [lra|]. split; [intros x []|]. left. reflexivity.
  - specialize (IH (keep_greater v k0 x)). cbv zeta in IH |- *.
    set (kept := fold_left (keep_greater v) items (keep_greater v k0 x)) in *.
    destruct IH as (Hle & Hall & Hpos).
    unfold keep_greater in Hle, Hpos.
    destruct (Qltb (v k0) (v x)) eqn:Hc.
    + apply Qltb_lt in Hc. split; [lra|]. split.
      * intros y [<-|Hy]; [exact Hle|apply Hall, Hy].
      * right. destruct Hpos as [->|(i & Hi & Hlt & Hbefore)].
        -- exists 0. split; [reflexivity|]. split; [exact Hc|]. intros j y Hj. lia.
        -- exists (S i). split; [exact Hi|]. split; [lra|].
           intros [|j] y Hj; cbn.
           ++ intros [= <-]. exact Hlt.
           ++ apply Hbefore. lia.
    + apply Qltb_ge in Hc. split; [exact Hle|]. split.
      * intros y [<-|Hy]; [lra|apply Hall, Hy].
      * destruct Hpos as [->|(i & Hi & Hlt & Hbefore)]; [left; reflexivity|].
        right. exists (S i). split; [exact Hi|]. split; [exact Hlt|].
        intros [|j] y Hj; cbn.
        -- intros [= <-]. lra.
        -- apply Hbefore. lia.
Qed.

(** The same for a bucket, which starts from its own first item. *)
Lemma keep_greater_bucket (v : Candle -> Q) first rest :
  let items := first :: rest in
  let kept := fold_left (keep_greater v) items first in
  (forall x, In x items -> (v x <= v kept)%Q)
  /\ exists i, items !! i = Some kept
       /\ forall j x, j < i -> items !! j = Some x -> (v x < v kept)%Q.
Proof.
  cbv zeta. destruct (keep_greater_fold v (first :: rest) first) as (_ & Hall & Hpos).
  cbv zeta in Hall, Hpos. split; [exact Hall|].
  destruct Hpos as [Heq|(i & Hi & _ & Hbefore)].
  - exists 0. split; [rewrite Heq; reflexivity|]. intros j x Hj. lia.
  - exists i. split; [exact Hi|exact Hbefore].
Qed.

Lemma bucket_peaks_cons formatDate periodType first rest :
  bucket_peaks formatDate periodType (first :: rest)
  = [mkPeak
       (formatDate (c_date (fold_left (keep_greater high_or_close)
                                      (first :: rest) first)))
       (typePrefix periodType ++ "High")
       (high_or_close (fold_left (keep_greater high_or_close)
                                 (first :: rest) first));
     mkPeak
       (formatDate (c_date (fold_left (keep_greater (fun c => - low_or_close c)%Q)
                                      (first :: rest) first)))
       (typePrefix periodType ++ "Low")
       (low_or_close (fold_left (keep_greater (fun c => - low_or_close c)%Q)
                                (first :: rest) first))]%string.
Proof. unfold bucket_peaks. now rewrite peak_fold_split. Qed.

(** An item of a filtered list sits in the list itself, after every earlier
    item that passes the filter. *)
Lemma filter_lookup_origin {A} (P : A -> bool) (l : list A) p h :
  List.filter P l !! p = Some h ->
  exists i, l !! i = Some h
    /\ forall j x, j < i -> l !! j = Some x -> P x = true ->
         exists q, q < p /\ List.filter P l !! q = Some x.
Proof.
  revert p. induction l as [|a l IH]; intros p; cbn [List.filter].
  - intros H. destruct p; discriminate.
  - destruct (P a) eqn:Ha.
    + destruct p as [|p]; cbn.
      * intros [= ->]. exists 0. split; [reflexivity|]. intros j x Hj. lia.
      * intros H. destruct (IH p H) as (i & Hi & Hbefore).
        exists (S i). split; [exact Hi|].
        intros [|j] x Hj; cbn.
        -- intros [= <-] _. exists 0. split; [lia|reflexivity].
        -- intros Hx HP. destruct (Hbefore j x ltac:(lia) Hx HP) as (q & Hq & Hfq).
           exists (S q). split; [lia|exact Hfq].
    + intros H. destruct (IH p H) as (i & Hi & Hbefore).
      exists (S i). split; [exact Hi|].
      intros [|j] x Hj; cbn.
      * intros [= <-] HP. congruence.
      * intros Hx HP. apply (Hbefore j x); [lia|exact Hx|exact HP].
Qed.

(** The item that one bucket's [forEach] keeps for [v], seen from the data. *)
Lemma bucket_kept_in_data (kf : Candle -> PeriodKey) (v : Candle -> Q)
    data k first rest :
  List.filter (fun x => bool_decide (kf x = k)) data = first :: rest ->
  let kept := fold_left (keep_greater v) (first :: rest) first in
  exists i, data !! i = Some kept /\ kf kept = k
    /\ (forall x, In x data -> kf x = k -> (v x <= v kept)%Q)
    /\ (forall j x, j < i -> data !! j = Some x -> kf x = k ->
          (v x < v kept)%Q).
Proof.
  intros Hf. cbv zeta.
  destruct (keep_greater_bucket v first rest) as (Hall & p & Hp & Hbefore).
  cbv zeta in Hall, Hp, Hbefore.
  set (kept := fold_left (keep_greater v) (first :: rest) first) in *.
  rewrite <- Hf in Hp, Hall, Hbefore.
  destruct (filter_lookup_origin _ _ _ _ Hp) as (i & Hi & Horigin).
  exists i. split; [exact Hi|].
  assert (Hk : In kept (List.filter (fun x => bool_decide (kf x = k)) data)).
  { apply list_elem_of_In, list_elem_of_lookup. eauto. }
  apply filter_In in Hk. destruct Hk as [_ Hk].
  apply bool_decide_eq_true_1 in Hk. split; [exact Hk|]. split.
  - intros x Hx Hkx. apply Hall, filter_In. split; [exact Hx|].
    now apply bool_decide_eq_true_2.
  - intros j x Hj Hx Hkx.
    destruct (Horigin j x Hj Hx) as (q & Hq & Hfq);
      [now apply bool_decide_eq_true_2|].
    apply (Hbefore q x Hq Hfq).
Qed.

(** X17. For every bar of the data, calculatePeakPoints gives a High marker
    and a Low marker of the bar's period: the High marker carries the date
    and the high (the close where the bar has no high) of a bar of that
    period whose value is greatest in the period, and is taken from the
    first bar of the period that reaches it; the Low marker likewise with
    the least low (or close). *)
Theorem calculatePeakPoints_extremes (tz_offset : Z) (formatDate : Z -> string)
    (data : list Candle) (periodType : PeriodType) (item : Candle)
    (Hitem : In item data) :
  let key := peak_key tz_offset periodType in
  let peaks := calculatePeakPoints tz_offset formatDate (Some data) periodType in
  exists ih il highItem lowItem,
    data !! ih = Some highItem /\ data !! il = Some lowItem
    /\ key highItem = key item /\ key lowItem = key item
    /\ In (mkPeak (formatDate (c_date highItem))
                  (typePrefix periodType ++ "High")
                  (high_or_close highItem)) peaks
    /\ In (mkPeak (formatDate (c_date lowItem))
                  (typePrefix periodType ++ "Low")
                  (low_or_close lowItem)) peaks
    /\ (forall x, In x data -> key x = key item ->
          (high_or_close x <= high_or_close highItem)%Q
          /\ (low_or_close lowItem <= low_or_close x)%Q)
    /\ (forall j x, data !! j = Some x -> key x = key item ->
          (j < ih -> (high_or_close x < high_or_close highItem)%Q)
          /\ (j < il -> (low_or_close lowItem < low_or_close x)%Q)).
Proof.
  intros key peaks.
  set (k := key item).
  destruct (List.filter (fun x => bool_decide (key x = k)) data)
    as [|first rest] eqn:Hf.
  { exfalso.
    assert (H : In item (List.filter (fun x => bool_decide (key x = k)) data)).
    { apply filter_In. split; [exact Hitem|]. now apply bool_decide_eq_true_2. }
    rewrite Hf in H. destruct H. }
  destruct (bucket_kept_in_data key high_or_close data k first rest Hf)
    as (ih & Hih & Hkh & Hhall & Hhbefore).
  destruct (bucket_kept_in_data key (fun c => - low_or_close c)%Q
              data k first rest Hf)
    as (il & Hil & Hkl & Hlall & Hlbefore).
  cbv zeta in Hih, Hkh, Hhall, Hhbefore, Hil, Hkl, Hlall, Hlbefore.
  set (highItem := fold_left (keep_greater high_or_close) (first :: rest) first) in *.
  set (lowItem := fold_left (keep_greater (fun c => - low_or_close c)%Q)
                            (first :: rest) first) in *.
  assert (Hpeaks : forall p,
             In p (bucket_peaks formatDate periodType (first :: rest)) ->
             In p peaks).
  { intros p Hp. unfold peaks, calculatePeakPoints.
    destruct data as [|d0 data']; [destruct Hitem|].
    apply in_flat_map. exists (k, first :: rest). split; [|exact Hp].
    apply (proj2 (group_by_key_spec key (d0 :: data'))).
    split; [now rewrite Hf|discriminate]. }
  rewrite bucket_peaks_cons in Hpeaks. fold highItem lowItem in Hpeaks.
  exists ih, il, highItem, lowItem.
  repeat split; try assumption.
  - apply Hpeaks. left. reflexivity.
  - apply Hpeaks. right. left. reflexivity.
  - apply Hhall; assumption.
  - specialize (Hlall x H H0). cbv beta in Hlall. lra.
  - intros Hj. apply (Hhbefore j x Hj H H0).
  - intros Hj. specialize (Hlbefore j x Hj H H0). cbv beta in Hlbefore. lra.
Qed.

Lemma calculatePeakPoints_extremes_witness :
  exists ih il highItem lowItem,
    candles_new_year !! ih = Some highItem
    /\ candles_new_year !! il = Some lowItem
    /\ peak_key bangkok week highItem = peak_key bangkok week candle_2025_01_03
    /\ peak_key bangkok week lowItem = peak_key bangkok week candle_2025_01_03
    /\ In (mkPeak (day_number_format (c_date highItem)) "weeklyHigh"
                  (high_or_close highItem))
          (calculatePeakPoints bangkok day_number_format
             (Some candles_new_year) week)
    /\ In (mkPeak (day_number_format (c_date lowItem)) "weeklyLow"
                  (low_or_close lowItem))
          (calculatePeakPoints bangkok day_number_format
             (Some candles_new_year) week).
Proof.
  destruct (calculatePeakPoints_extremes bangkok day_number_format
              candles_new_year week candle_2025_01_03)
    as (ih & il & hi & lo & H1 & H2 & H3 & H4 & H5 & H6 & _).
  - right. right. right. left. reflexivity.
  - exists ih, il, hi, lo.
    exact (conj H1 (conj H2 (conj H3 (conj H4 (conj H5 H6))))).
Defined.

(** X18. calculatePeakPoints returns no marker for no data, and otherwise
    exactly two markers, a High and then a Low one, for each period that has
    a bar: the types of the result are the pair [High], [Low] repeated
    once per distinct period key of the data. *)
Theorem calculatePeakPoints_two_per_period (tz_offset : Z)
    (formatDate : Z -> string) (data : list Candle) (periodType : PeriodType) :
  calculatePeakPoints tz_offset formatDate None periodType = []
  /\ exists keys,
       List.NoDup keys
       /\ (forall k, In k keys
             <-> exists x, In x data /\ peak_key tz_offset periodType x = k)
       /\ map pk_type
              (calculatePeakPoints tz_offset formatDate (Some data) periodType)
          = flat_map (fun _ => [typePrefix periodType ++ "High";
                                typePrefix periodType ++ "Low"]%string) keys.
Proof.
  split; [reflexivity|].
  set (key := peak_key tz_offset periodType).
  destruct (group_by_key_spec key data) as [Hnd Hspec].
  destruct (group_by_key_fold key data []) as (_ & Hkeys & _).
  cbv zeta in Hkeys. fold (group_by_key key data) in Hkeys.
  exists (map fst (group_by_key key data)). split; [exact Hnd|]. split.
  - intros k. rewrite Hkeys. cbn [map In]. rewrite in_map_iff.
    split; [intros [[]|(x & Hx & Hin)]|intros (x & Hin & Hx)]; eauto.
  - assert (Hne : forall g, In g (group_by_key key data) -> g.2 <> []).
    { intros [k items] Hg. apply Hspec in Hg. apply Hg. }
    assert (Hres : calculatePeakPoints tz_offset formatDate (Some data) periodType
                   = flat_map (fun g => bucket_peaks formatDate periodType g.2)
                              (group_by_key key data)).
    { destruct data; reflexivity. }
    rewrite Hres. clear Hres Hspec Hkeys Hnd.
    induction (group_by_key key data) as [|[k items] groups IH]; [reflexivity|].
    cbn [flat_map map fst snd]. rewrite map_app, IH.
    + destruct items as [|first rest].
      * exfalso. apply (Hne (k, [])); [left|]; reflexivity.
      * rewrite bucket_peaks_cons. reflexivity.
    + intros g Hg. apply Hne. right. exact Hg.
Qed.

(** ** Signals and zones of calculateGoldenDeathCross *)

Lemma cross_step_signals data m50 m200 st i s :
  In s (signals (cross_step data m50 m200 st i))
  <-> In s (signals st)
      \/ exists k, crossover data m50 m200 i k /\ s = signal_at data i k.
Proof.
  unfold cross_step, crossover.
  destruct (m50 !! date (at_index data i)) as [sma50|];
    [|split; [tauto|intros [H|(k & (a & b & c & d & [=] & _) & _)]; exact H]].
  destruct (m200 !! date (at_index data i)) as [sma200|];
    [|split; [tauto|intros [H|(k & (a & b & c & d & _ & [=] & _) & _)]; exact H]].
  destruct (m50 !! date (at_index data (i - 1))) as [prev50|];
    [|split; [tauto|intros [H|(k & (a & b & c & d & _ & _ & [=] & _) & _)]; exact H]].
  destruct (m200 !! date (at_index data (i - 1))) as [prev200|];
    [|split; [tauto|intros [H|(k & (a & b & c & d & _ & _ & _ & [=] & _) & _)]; exact H]].
  destruct (Qleb prev50 prev200 && Qltb sma200 sma50) eqn:Hg.
  - apply andb_true_iff in Hg. destruct Hg as [Hg1 Hg2].
    apply Qleb_le in Hg1. apply Qltb_lt in Hg2.
    cbn [signals]. rewrite in_app_iff. cbn [In]. split.
    + intros [H|[<-|[]]]; [tauto|]. right. exists golden.
      split; [|reflexivity]. exists sma50, sma200, prev50, prev200. auto 10.
    + intros [H|(k & (a & b & c & d & [= <-] & [= <-] & [= <-] & [= <-] & Hk) & ->)];
        [tauto|].
      right. left. destruct k; [reflexivity|]. lra.
  - destruct (Qleb prev200 prev50 && Qltb sma50 sma200) eqn:Hd.
    + apply andb_true_iff in Hd. destruct Hd as [Hd1 Hd2].
      apply Qleb_le in Hd1. apply Qltb_lt in Hd2.
      cbn [signals]. rewrite in_app_iff. cbn [In]. split.
      * intros [H|[<-|[]]]; [tauto|]. right. exists death.
        split; [|reflexivity]. exists sma50, sma200, prev50, prev200. auto 10.
      * intros [H|(k & (a & b & c & d & [= <-] & [= <-] & [= <-] & [= <-] & Hk) & ->)];
          [tauto|].
        right. left. destruct k; [|reflexivity]. lra.
    + assert (Hsame : signals (match zoneStart st with
                               | Some _ => st
                               | None => mkCrossState (signals st) (zones st)
                                           (Some (date (at_index data i)))
                                           (Some (if Qltb sma200 sma50
                                                  then golden else death))
                               end) = signals st)
        by (destruct (zoneStart st); reflexivity).
      rewrite Hsame. split; [tauto|].
      intros [H|(k & (a & b & c & d & [= <-] & [= <-] & [= <-] & [= <-] & Hk) & ->)];
        [exact H|exfalso].
      apply andb_false_iff in Hg, Hd.
      rewrite Qleb_gt, Qltb_ge in Hg, Hd. destruct k; lra.
Qed.

Lemma cross_loop_signals data m50 m200 m s :
  In s (signals (fold_left (cross_step data m50 m200) (seq 1 m)
                           (mkCrossState [] [] None None)))
  <-> exists i k, 1 <= i <= m /\ crossover data m50 m200 i k
                  /\ s = signal_at data i k.
Proof.
  induction m as [|m IH].
  - cbn. split; [tauto|]. intros (i & k & Hi & _). lia.
  - rewrite seq_S, fold_left_app. cbn [fold_left].
    rewrite cross_step_signals, IH. split.
    + intros [(i & k & Hi & H)|(k & H)].
      * exists i, k. split; [lia|exact H].
      * exists (1 + m), k. split; [lia|exact H].
    + intros (i & k & Hi & H).
      destruct (Nat.eq_dec i (1 + m)) as [->|Hne].
      * right. exists k. exact H.
      * left. exists i, k. split; [lia|exact H].
Qed.

(** X19. The signals of calculateGoldenDeathCross are exactly the strict
    crossovers: a signal is in the result if and only if it carries the date
    and close of a bar [i >= 1] on which, both averages being known for the
    bar and for the bar before, the short average is strictly above the long
    one after not being above it (type golden), or strictly below it after
    not being below it (type death). *)
Theorem golden_death_signals_are_crossovers (data : list PricePoint)
    (sma50List sma200List : list IndicatorPoint) (s : Signal) :
  In s (res_signals
          (calculateGoldenDeathCross data (Some sma50List) (Some sma200List)))
  <-> exists i k,
        1 <= i < length data
        /\ crossover data (value_map sma50List) (value_map sma200List) i k
        /\ s = signal_at data i k.
Proof.
  unfold calculateGoldenDeathCross. cbn [res_signals].
  rewrite cross_loop_signals. split.
  - intros (i & k & Hi & H). exists i, k. split; [lia|exact H].
  - intros (i & k & Hi & H). exists i, k. split; [lia|exact H].
Qed.

Lemma cross_step_opened data m50 m200 st i :
  (zoneStart st = None -> signals st = [] /\ zones st = []) ->
  (exists pre, length pre <= 1
     /\ opened st = pre ++ map signal_opening (signals st)) ->
  let st' := cross_step data m50 m200 st i in
  (zoneStart st' = None -> signals st' = [] /\ zones st' = [])
  /\ exists pre, length pre <= 1
       /\ opened st' = pre ++ map signal_opening (signals st').
Proof.
  intros Hnone (pre & Hpre & Hop). cbv zeta. unfold cross_step.
  destruct (m50 !! date (at_index data i)) as [sma50|]; [|eauto].
  destruct (m200 !! date (at_index data i)) as [sma200|]; [|eauto].
  destruct (m50 !! date (at_index data (i - 1))) as [prev50|]; [|eauto].
  destruct (m200 !! date (at_index data (i - 1))) as [prev200|]; [|eauto].
  assert (Hsig : forall k,
    let st' := mkCrossState
                 (signals st ++ [mkSignal (date (at_index data i)) k
                                          (close (at_index data i))])
                 match zoneStart st with
                 | Some s => zones st ++ [mkZone s (date (at_index data i))
                                                 (currentZoneType st)]
                 | None => zones st
                 end (Some (date (at_index data i))) (Some k) in
    (zoneStart st' = None -> signals st' = [] /\ zones st' = [])
    /\ exists pre, length pre <= 1
         /\ opened st' = pre ++ map signal_opening (signals st')).
  { intros k. cbv zeta. split; [discriminate|]. exists pre. split; [exact Hpre|].
    unfold opened in *. cbn [zones zoneStart currentZoneType signals].
    rewrite map_app, app_assoc, <- Hop. cbn [map signal_opening sig_date sig_type].
    destruct (zoneStart st) as [s0|].
    - rewrite map_app. reflexivity.
    - rewrite app_nil_r. reflexivity. }
  destruct (Qleb prev50 prev200 && Qltb sma200 sma50); [apply Hsig|].
  destruct (Qleb prev200 prev50 && Qltb sma50 sma200); [apply Hsig|].
  destruct (zoneStart st) as [s0|] eqn:Hzs; [rewrite Hzs; eauto|].
  destruct (Hnone eq_refl) as [Hs Hz].
  cbn [zoneStart signals zones]. split; [discriminate|].
  eexists [_]. split; [cbn; lia|].
  unfold opened. cbn [zones zoneStart currentZoneType signals].
  rewrite Hs, Hz. reflexivity.
Qed.

(** X20. Every signal of calculateGoldenDeathCross opens a zone of its own
    type on its own date, and at most one zone, the first, is opened without
    a signal: the starts and types of the zones are those of the signals, in
    order, after at most one leading zone. *)
Theorem golden_death_zones_follow_signals (data : list PricePoint)
    (sma50List sma200List : option (list IndicatorPoint)) :
  let r := calculateGoldenDeathCross data sma50List sma200List in
  exists pre,
    length pre <= 1
    /\ map zone_opening (res_zones r)
       = pre ++ map signal_opening (res_signals r).
Proof.
  cbv zeta. unfold calculateGoldenDeathCross.
  destruct sma50List as [l50|]; [|exists []; split; [cbn; lia|reflexivity]].
  destruct sma200List as [l200|]; [|exists []; split; [cbn; lia|reflexivity]].
  cbn [res_zones res_signals].
  assert (Hloop : forall m,
    let st := fold_left (cross_step data (value_map l50) (value_map l200))
                        (seq 1 m) (mkCrossState [] [] None None) in
    (zoneStart st = None -> signals st = [] /\ zones st = [])
    /\ (m = 0 -> zoneStart st = None)
    /\ exists pre, length pre <= 1
         /\ opened st = pre ++ map signal_opening (signals st)).
  { induction m as [|m IH].
    - cbn. split; [auto|]. split; [auto|]. exists []. split; [cbn; lia|reflexivity].
    - rewrite seq_S, fold_left_app. cbn [fold_left]. cbv zeta in IH |- *.
      destruct IH as (IH1 & _ & IH2).
      destruct (cross_step_opened data (value_map l50) (value_map l200) _
                  (1 + m) IH1 IH2) as [H1 H2].
      split; [exact H1|]. split; [lia|exact H2]. }
  specialize (Hloop (length data - 1)). cbv zeta in Hloop.
  destruct Hloop as (Hnone & Hzero & pre & Hpre & Hop).
  exists pre. split; [exact Hpre|]. rewrite <- Hop. unfold opened.
  destruct (zoneStart _) as [s0|] eqn:Hzs.
  - destruct (Nat.ltb_spec 0 (length data)) as [Hn|Hn].
    + rewrite map_app. reflexivity.
    + exfalso. assert (Some s0 = @None Z) by (apply Hzero; lia). discriminate.
  - rewrite app_nil_r. reflexivity.
Qed.

(** ** The zoom window *)

Lemma Math_round_bounds x :
  (x - (1 # 2) < inject_Z (Math_round x) /\ inject_Z (Math_round x) <= x + (1 # 2))%Q.
Proof.
  unfold Math_round.
  pose proof (Qfloor_le (x + (1 # 2))) as H1.
  pose proof (Qlt_floor (x + (1 # 2))) as H2.
  rewrite inject_Z_plus in H2. change (inject_Z 1) with 1%Q in H2.
  split; lra.
Qed.

Lemma Math_round_inject z : Math_round (inject_Z z) = z.
Proof.
  unfold Math_round, Qfloor, inject_Z, Qplus. cbn [Qnum Qden].
  change (Z.pos (1 * 2)) with 2%Z.
  rewrite Z.div_add_l by lia. change (1 * 1 / 2)%Z with 0%Z. lia.
Qed.

Lemma Math_round_mono x y : (x <= y)%Q -> (Math_round x <= Math_round y)%Z.
Proof. intros H. apply Qfloor_resp_le. lra. Qed.

(** X21. A wheel pan of a window that lies within the data keeps the number
    of bars shown and stays within the data; it moves the window towards
    the later bars for direction 1 and towards the earlier bars for
    direction -1, by at least one bar unless the window already touches that
    end of the data. *)
Theorem wheel_pan_keeps_size (dataLength direction : Z) (prev : ZoomWindow)
    (Hprev : window_within dataLength prev) :
  let w := wheel_pan dataLength direction prev in
  window_within dataLength w
  /\ window_size w = window_size prev
  /\ (direction = 1%Z ->
        (startIndex prev <= startIndex w)%Z
        /\ ((endIndex prev < dataLength)%Z ->
            (startIndex prev < startIndex w)%Z))
  /\ (direction = (-1)%Z ->
        (startIndex w <= startIndex prev)%Z
        /\ ((0 < startIndex prev)%Z -> (startIndex w < startIndex prev)%Z)).
Proof.
  destruct prev as [s e]. unfold window_within, window_size in *.
  cbn [startIndex endIndex] in *. unfold wheel_pan. cbn [startIndex endIndex].
  set (panDelta := Z.max 1 (Math_round (inject_Z (e - s) * 0.2))).
  assert (Hpd : (1 <= panDelta)%Z) by (unfold panDelta; lia).
  clearbody panDelta. cbv zeta.
  repeat split; intros; subst;
    repeat match goal with
           | |- context [(?a <? ?b)%Z] => destruct (Z.ltb_spec a b)
           end;
    cbn [startIndex endIndex] in *; lia.
Qed.

Lemma wheel_pan_keeps_size_witness :
  wheel_pan 100 1 (mkZoomWindow 80 95) = mkZoomWindow 83 98
  /\ window_within 100 (wheel_pan 100 1 (mkZoomWindow 80 95))
  /\ window_size (wheel_pan 100 1 (mkZoomWindow 80 95)) = 15%Z.
Proof.
  split; [reflexivity|].
  destruct (wheel_pan_keeps_size 100 1 (mkZoomWindow 80 95)) as (H1 & H2 & _).
  - unfold window_within. cbn. lia.
  - split; [exact H1|exact H2].
Defined.

Lemma Math_round_scaled (n : Z) (p q : positive) :
  let r := Math_round (inject_Z n * (Z.pos p # q)) in
  (2 * Z.pos p * n - Z.pos q < 2 * Z.pos q * r
   /\ 2 * Z.pos q * r <= 2 * Z.pos p * n + Z.pos q)%Z.
Proof.
  cbv zeta. unfold Math_round, Qfloor, inject_Z, Qplus, Qmult. cbn [Qnum Qden].
  rewrite Pos.mul_1_l.
  set (a := (n * Z.pos p * 2 + 1 * Z.pos q)%Z).
  change (Z.pos (q * 2)) with (Z.pos q * 2)%Z.
  pose proof (Z.div_mod a (Z.pos q * 2) ltac:(lia)) as Hdm.
  pose proof (Z.mod_pos_bound a (Z.pos q * 2) ltac:(lia)) as Hmod.
  unfold a in *. lia.
Qed.

Lemma Math_round_unit_interval (d : Z) (x : Q) :
  (0 <= d)%Z -> (0 <= x <= 1)%Q ->
  (0 <= Math_round (inject_Z d * x) <= d)%Z.
Proof.
  intros Hd [H0 H1].
  assert (Hq : (0 <= inject_Z d)%Q)
    by (change 0%Q with (inject_Z 0); now rewrite <- Zle_Qle).
  split.
  - change 0%Z with (Math_round 0). apply Math_round_mono.
    apply Qmult_le_0_compat; assumption.
  - rewrite <- (Math_round_inject d) at 2. apply Math_round_mono.
    rewrite <- (Qmult_1_r (inject_Z d)) at 2.
    rewrite (Qmult_comm (inject_Z d) x), (Qmult_comm (inject_Z d) 1).
    apply Qmult_le_compat_r; assumption.
Qed.

Lemma Math_round_half (n : Z) :
  let c := Math_round (inject_Z n / 2) in
  (n <= 2 * c <= n + 1)%Z.
Proof.
  cbv zeta.
  assert (Heq : (inject_Z n / 2 == inject_Z n * (1 # 2))%Q) by (unfold Qdiv; reflexivity).
  unfold Math_round. rewrite (Qfloor_comp _ _ (Qplus_comp _ _ Heq _ _ (Qeq_refl _))).
  pose proof (Math_round_scaled n 1 2) as H. cbv zeta in H.
  unfold Math_round in H. lia.
Qed.

(** X22. A wheel zoom of a window within the data, with the pointer across
    the chart ([0 <= mouseXRatio <= 1]), gives a window within the data.
    Zooming out, the new window contains the old one.  Zooming in on more
    than ten bars, the new window lies inside the old one, is smaller and
    still has ten bars or more; zooming in on fewer, the window may shrink
    below ten bars at an end of the data, but never below five (or all the
    data there is). *)
Theorem wheel_zoom_window (dataLength direction : Z) (mouseXRatio : Q)
    (prev : ZoomWindow)
    (Hprev : window_within dataLength prev)
    (Hratio : (0 <= mouseXRatio <= 1)%Q) :
  let w := wheel_zoom dataLength direction mouseXRatio prev in
  window_within dataLength w
  /\ ((0 <= direction)%Z ->
      (startIndex w <= startIndex prev)%Z /\ (endIndex prev <= endIndex w)%Z)
  /\ ((direction < 0)%Z -> (11 <= window_size prev)%Z ->
      (startIndex prev <= startIndex w)%Z /\ (endIndex w <= endIndex prev)%Z
      /\ (10 <= window_size w < window_size prev)%Z)
  /\ ((direction < 0)%Z -> (1 <= window_size prev)%Z ->
      (Z.min 5 dataLength <= window_size w)%Z).
Proof.
  destruct prev as [s e]. unfold window_within, window_size in *.
  cbn [startIndex endIndex] in *. unfold wheel_zoom. cbn [startIndex endIndex].
  pose proof (Math_round_scaled (e - s) 1 10) as Hround. cbv zeta in Hround.
  change (Z.pos 1 # 10) with 0.1%Q in Hround.
  set (r := Math_round (inject_Z (e - s) * 0.1)) in *. clearbody r.
  set (delta := Z.max 1 r).
  assert (Hdelta : delta = Z.max 1 r) by reflexivity. clearbody delta.
  pose proof (Math_round_unit_interval delta mouseXRatio ltac:(lia) Hratio)
    as Hleft.
  set (leftDelta := Math_round (inject_Z delta * mouseXRatio)) in *.
  clearbody leftDelta.
  pose proof (Math_round_half (s + leftDelta + (e - (delta - leftDelta))))
    as Hcenter. cbv zeta in Hcenter.
  set (center := Math_round
                   (inject_Z (s + leftDelta + (e - (delta - leftDelta))) / 2))
    in *. clearbody center.
  change (10 / 2)%Z with 5%Z. change (Calendar.ceil_quot 10 2) with 5%Z.
  cbv zeta.
  repeat split; intros;
    repeat match goal with
           | |- context [(?a <? ?b)%Z] => destruct (Z.ltb_spec a b)
           end;
    cbn [startIndex endIndex] in *; lia.
Qed.

Lemma wheel_zoom_window_witness :
  wheel_zoom 100 (-1) (1 # 2) (mkZoomWindow 20 60) = mkZoomWindow 22 58
  /\ window_within 100 (wheel_zoom 100 (-1) (1 # 2) (mkZoomWindow 20 60)).
Proof.
  split; [reflexivity|].
  apply (wheel_zoom_window 100 (-1) (1 # 2) (mkZoomWindow 20 60)).
  - unfold window_within. cbn. lia.
  - split; [apply Qle_bool_iff|apply Qle_bool_iff]; reflexivity.
Defined.

Lemma Math_round_sign x :
  ((x <= 0)%Q -> (Math_round x <= 0)%Z) /\ ((0 <= x)%Q -> (0 <= Math_round x)%Z).
Proof.
  split; intros H.
  - change 0%Z with (Math_round 0). now apply Math_round_mono.
  - change 0%Z with (Math_round 0). now apply Math_round_mono.
Qed.

(** X23. Whenever updatePan moves the window, on data of any length and
    from any window, the new window is not empty and lies within the data.
    If the window grabbed lay within the data and was not empty, the new
    window shows as many bars as before; on a chart of positive width it has
    moved towards the earlier bars when the mouse was dragged to the right
    and towards the later bars when it was dragged to the left. *)
Theorem updatePan_window (dataLength : Z) (isDragging : bool) (deltaX : Q)
    (offsetWidth : option Q) (grabbed w : ZoomWindow)
    (Hlength : (0 <= dataLength)%Z)
    (Hmoved : updatePan dataLength isDragging deltaX offsetWidth grabbed = Some w) :
  ((0 <= startIndex w)%Z /\ (startIndex w < endIndex w)%Z
   /\ (endIndex w <= dataLength)%Z)
  /\ (window_within dataLength grabbed -> (1 <= window_size grabbed)%Z ->
      window_size w = window_size grabbed
      /\ ((forall width, offsetWidth = Some width -> (0 <= width)%Q) ->
          ((0 < deltaX)%Q -> (startIndex w <= startIndex grabbed)%Z)
          /\ ((deltaX < 0)%Q -> (startIndex grabbed <= startIndex w)%Z))).
Proof.
  destruct grabbed as [s e]. unfold window_within, window_size in *.
  cbn [startIndex endIndex] in *. unfold updatePan in Hmoved.
  cbn [startIndex endIndex] in Hmoved.
  destruct isDragging; [|discriminate]. cbn [negb] in Hmoved.
  destruct (Z.eqb_spec dataLength 0) as [|Hne]; [discriminate|].
  destruct (Qltb (Qabs deltaX) 3); [discriminate|].
  set (containerWidth := match offsetWidth with
                         | Some w0 => if Qeqb w0 0 then 800%Q else w0
                         | None => 800%Q
                         end) in *.
  set (ppp := (containerWidth / inject_Z (Z.max 1 (e - s)))%Q) in *.
  assert (Hsign : (forall width, offsetWidth = Some width -> (0 <= width)%Q) ->
                  ((0 < deltaX)%Q -> (Math_round (- deltaX / ppp * 0.8) <= 0)%Z)
                  /\ ((deltaX < 0)%Q -> (0 <= Math_round (- deltaX / ppp * 0.8))%Z)).
  { intros Hwidth.
    assert (Hcw : (0 < containerWidth)%Q).
    { unfold containerWidth. destruct offsetWidth as [w0|]; [|reflexivity].
      destruct (Qeqb w0 0) eqn:Hz; [reflexivity|].
      specialize (Hwidth w0 eq_refl).
      assert (Hnz : ~ (w0 == 0)%Q).
      { intros Heq. unfold Qeqb in Hz. apply Qeq_bool_iff in Heq. congruence. }
      apply Qle_lteq in Hwidth. destruct Hwidth as [Hlt|Heq]; [exact Hlt|].
      exfalso. apply Hnz. symmetry. exact Heq. }
    assert (Hden : (0 < inject_Z (Z.max 1 (e - s)))%Q).
    { change 0%Q with (inject_Z 0). rewrite <- Zlt_Qlt. lia. }
    assert (Hppp : (0 < / ppp)%Q).
    { apply Qinv_lt_0_compat. unfold ppp. apply Qlt_shift_div_l; [exact Hden|].
      lra. }
    split; intros Hd; apply Math_round_sign; unfold Qdiv.
    - assert (0 <= deltaX * / ppp)%Q by (apply Qmult_le_0_compat; lra). lra.
    - assert (0 <= (- deltaX) * / ppp)%Q by (apply Qmult_le_0_compat; lra). lra. }
  set (indexShift := Math_round (- deltaX / ppp * 0.8)) in *.
  clearbody indexShift. clear ppp containerWidth.
  destruct (Z.eqb_spec indexShift 0) as [|Hshift]; [discriminate|].
  revert Hmoved. cbv zeta.
  repeat match goal with
         | |- context [(?a <? ?b)%Z] => destruct (Z.ltb_spec a b)
         end;
    intros [= <-]; cbn [startIndex endIndex];
    (split; [lia|]); intros Hin Hsize; (split; [lia|]);
    intros Hwidth; destruct (Hsign Hwidth) as [Hright Hleft];
    (split; intros Hd; [specialize (Hright Hd)|specialize (Hleft Hd)]); lia.
Qed.

Lemma updatePan_window_witness :
  exists w,
    updatePan 100 true 40 (Some 800%Q) (mkZoomWindow 20 60) = Some w
    /\ w = mkZoomWindow 18 58
    /\ (0 <= startIndex w)%Z /\ (startIndex w < endIndex w)%Z
    /\ (endIndex w <= 100)%Z.
Proof.
  exists (mkZoomWindow 18 58). split; [reflexivity|]. split; [reflexivity|].
  apply (updatePan_window 100 true 40 (Some 800%Q) (mkZoomWindow 20 60)
           (mkZoomWindow 18 58)); [lia|reflexivity].
Defined.

(** ** HorizontalNavigator *)

(** X24. Whatever the navigator (laid out with a positive width) reports
    while its thumb or a handle is dragged from a window within the data,
    the new window lies within the data.  Dragging the thumb keeps the number of items shown.  Dragging the
    left handle keeps the end, and dragging the right handle the start, and
    either leaves at least the minimum window size (ten items, or one
    percent of the data if that is more) or as many items as there are on
    that side. *)
Theorem navigator_drag_window (totalItems : Z) (isDragging : bool)
    (rectWidth : option Q) (dragAction : DragAction) (deltaPixels : Q)
    (initialWindow visible w : ZoomWindow)
    (Hinitial : window_within totalItems initialWindow)
    (Hwidth : forall width, rectWidth = Some width -> (0 < width)%Q)
    (Hcall : navigator_mouse_move totalItems isDragging rectWidth dragAction
               deltaPixels initialWindow visible = Some w) :
  window_within totalItems w
  /\ match dragAction with
     | drag_move => window_size w = window_size initialWindow
     | drag_left_resize =>
         endIndex w = endIndex initialWindow
         /\ (Z.min (minWindowSize totalItems) (endIndex initialWindow)
             <= window_size w)%Z
     | drag_right_resize =>
         startIndex w = startIndex initialWindow
         /\ (Z.min (minWindowSize totalItems)
                   (totalItems - startIndex initialWindow)
             <= window_size w)%Z
     | drag_none => w = initialWindow
     end.
Proof.
  destruct initialWindow as [s e]. unfold window_within, window_size in *.
  cbn [startIndex endIndex] in *. unfold navigator_mouse_move in Hcall.
  cbn [startIndex endIndex] in Hcall.
  destruct rectWidth as [width|]; [|discriminate].
  destruct (negb isDragging || (totalItems <=? 0)%Z); [discriminate|].
  set (deltaItems := Math_round (deltaPixels / (width / inject_Z totalItems))) in *.
  clearbody deltaItems.
  assert (Hmin : (10 <= minWindowSize totalItems)%Z) by (unfold minWindowSize; lia).
  set (minWS := minWindowSize totalItems) in *. clearbody minWS.
  destruct ((deltaItems =? 0)%Z && _); [discriminate|].
  revert Hcall. cbv zeta.
  destruct dragAction;
    repeat match goal with
           | |- context [(?a <? ?b)%Z] => destruct (Z.ltb_spec a b)
           end;
    (destruct (negb _ || negb _); [|discriminate]);
    intros [= <-]; cbn [startIndex endIndex]; repeat split; lia.
Qed.

Lemma navigator_drag_window_witness :
  navigator_mouse_move 200 true (Some 400%Q) drag_move 30
    (mkZoomWindow 100 150) (mkZoomWindow 100 150)
  = Some (mkZoomWindow 115 165)
  /\ window_within 200 (mkZoomWindow 115 165)
  /\ window_size (mkZoomWindow 115 165) = 50%Z.
Proof.
  split; [reflexivity|].
  apply (navigator_drag_window 200 true (Some 400%Q) drag_move 30
           (mkZoomWindow 100 150) (mkZoomWindow 100 150) (mkZoomWindow 115 165)).
  - unfold window_within. cbn. lia.
  - intros width [= <-]. reflexivity.
  - reflexivity.
Defined.

(** ** The backend *)

(** X25. An entry that [set] stored at a time [t0] (not 0) is served by
    [get] unchanged as long as less than the key's time to live has passed:
    15 minutes for keys that start with [fx_], one hour for all others.
    From then on [get] misses and removes the entry, so that every later
    [get], at whatever time, misses as well.  Neither call touches or is
    touched by the entries of other keys. *)
Theorem cache_entry_lifetime (Data : Type) (cache : gmap string (CacheEntry Data))
    (key : string) (data : Data) (t0 t1 : Z)
    (Hclock : t0 <> 0%Z) :
  let stored := cache_set t0 key data cache in
  ttl_of key = (if String.prefix "fx_" key then 900000 else 3600000)%Z
  /\ ((t1 - t0 < ttl_of key)%Z ->
      cache_get t1 key stored = (Some data, stored))
  /\ ((ttl_of key <= t1 - t0)%Z ->
      (cache_get t1 key stored).1 = None
      /\ forall t2, (cache_get t2 key (cache_get t1 key stored).2).1
                    = None)
  /\ (forall key', key' <> key ->
        stored !! key' = cache !! key'
        /\ (cache_get t1 key stored).2 !! key' = cache !! key'
        /\ (cache_get t1 key' stored).1 = (cache_get t1 key' cache).1).
Proof.
  cbv zeta. unfold cache_set, cache_get.
  rewrite lookup_insert_eq. cbn [ce_timestamp ce_data].
  assert (Hnz : negb (t0 =? 0)%Z = true).
  { destruct (Z.eqb_spec t0 0); [contradiction|reflexivity]. }
  rewrite Hnz. cbn [andb].
  split; [unfold ttl_of; destruct (String.prefix _ _); reflexivity|].
  split; [|split].
  - intros Hfresh. destruct (Z.ltb_spec (t1 - t0) (ttl_of key)); [reflexivity|lia].
  - intros Hold. destruct (Z.ltb_spec (t1 - t0) (ttl_of key)); [lia|].
    cbn [fst snd]. split; [reflexivity|]. intros t2.
    rewrite lookup_delete_eq. reflexivity.
  - intros key' Hne. rewrite lookup_insert_ne by congruence.
    split; [reflexivity|]. split.
    + destruct (t1 - t0 <? ttl_of key)%Z; cbn [snd].
      * rewrite lookup_insert_ne by congruence. reflexivity.
      * rewrite lookup_delete_ne by congruence.
        rewrite lookup_insert_ne by congruence. reflexivity.
    + destruct (cache !! key') as [cached|]; [|reflexivity].
      destruct (ce_timestamp cached) as [ts|]; [|reflexivity].
      destruct (negb (ts =? 0)%Z && (t1 - ts <? ttl_of key')%Z); reflexivity.
Qed.

Lemma cache_entry_lifetime_witness :
  cache_get 1700000899999 "fx_THB=X"
    (cache_set 1700000000000 "fx_THB=X" 35.5%Q ∅)
  = (Some 35.5%Q, cache_set 1700000000000 "fx_THB=X" 35.5%Q ∅)
  /\ (cache_get 1700000900000 "fx_THB=X"
        (cache_set 1700000000000 "fx_THB=X" 35.5%Q ∅)).1 = None.
Proof.
  destruct (cache_entry_lifetime Q (∅ : gmap string (CacheEntry Q)) "fx_THB=X" 35.5%Q 1700000000000
              1700000899999 ltac:(lia)) as (_ & Hfresh & _).
  destruct (cache_entry_lifetime Q (∅ : gmap string (CacheEntry Q)) "fx_THB=X" 35.5%Q 1700000000000
              1700000900000 ltac:(lia)) as (_ & _ & Hold & _).
  split.
  - apply Hfresh. vm_compute. reflexivity.
  - apply Hold. vm_compute. discriminate.
Defined.

Lemma checks_open times b :
  isBlocked b = false -> checks times b = map (fun _ => false) times.
Proof.
  revert b. induction times as [|now rest IH]; intros b Hb; [reflexivity|].
  cbn [checks map]. unfold check. rewrite Hb. cbn [fst snd].
  now rewrite IH.
Qed.

Lemma check_tripped now t0 b :
  check now (trip t0 b)
  = if (now <? t0 + 1000)%Z then (true, trip t0 b) else (false, breaker_initial).
Proof. reflexivity. Qed.

(** X26. After the circuit breaker has tripped at a time [t0], a request is
    rejected exactly if it and all requests checked since the trip come
    before [t0 + BLOCK_DURATION] (one second): the first request checked at
    or after that time re-opens the circuit, and from then on no request is
    rejected, whatever the clock says.  A breaker that has not tripped
    rejects nothing. *)
Theorem breaker_blocks_for_block_duration (b : Breaker) (t0 : Z)
    (times : list Z) :
  checks times breaker_initial = map (fun _ => false) times
  /\ forall i r,
       checks times (trip t0 b) !! i = Some r ->
       (r = true <->
        forall j t, j <= i -> times !! j = Some t -> (t < t0 + 1000)%Z).
Proof.
  split; [apply checks_open; reflexivity|].
  induction times as [|now rest IH]; intros i r; [discriminate|].
  cbn [checks]. rewrite check_tripped.
  destruct (Z.ltb_spec now (t0 + 1000)) as [Hlt|Hge]; cbn [fst snd].
  - destruct i as [|i]; cbn.
    + intros [= <-]. split; [|reflexivity].
      intros _ [|j] t Hj; [intros [= <-]; exact Hlt|lia].
    + intros Hr. rewrite (IH i r Hr). split.
      * intros H [|j] t Hj; cbn; [intros [= <-]; exact Hlt|].
        apply H. lia.
      * intros H j t Hj Ht. apply (H (S j) t); [lia|exact Ht].
  - assert (Hall : forall k r', (false :: checks rest breaker_initial) !! k
                                = Some r' -> r' = false).
    { intros k r' Hk. rewrite checks_open in Hk by reflexivity.
      assert (Hin : In r' (map (fun _ : Z => false) (now :: rest))).
      { apply list_elem_of_In, list_elem_of_lookup. exists k. exact Hk. }
      apply in_map_iff in Hin. destruct Hin as (_ & Heq & _). congruence. }
    intros Hr. rewrite (Hall i r Hr). split; [discriminate|].
    intros H. specialize (H 0 now ltac:(lia) eq_refl). lia.
Qed.

Lemma breaker_blocks_for_block_duration_witness :
  checks [1500; 2200; 1300]%Z (trip 1000 breaker_initial) = [true; false; false]
  /\ (true = true <->
      forall j t, j <= 0 -> [1500; 2200; 1300]%Z !! j = Some t ->
        (t < 1000 + 1000)%Z).
Proof.
  split; [reflexivity|].
  apply (proj2 (breaker_blocks_for_block_duration breaker_initial 1000
                  [1500; 2200; 1300]%Z) 0 true).
  reflexivity.
Defined.

Lemma sorted_lookup {A} (R : A -> A -> Prop) (l : list A) i j a b :
  StronglySorted R l -> i < j -> l !! i = Some a -> l !! j = Some b -> R a b.
Proof.
  intros Hs. revert i j. induction Hs as [|x l Hs IH Hx]; intros i j Hij Hi Hj.
  - discriminate.
  - destruct j as [|j]; [lia|]. cbn in Hj. destruct i as [|i]; cbn in Hi.
    + injection Hi as <-. rewrite List.Forall_forall in Hx. apply Hx.
      apply list_elem_of_In, list_elem_of_lookup. eauto.
    + apply (IH i j); [lia|exact Hi|exact Hj].
Qed.

Lemma scan_back_spec series t n :
  n <= length series ->
  match scan_back series t n with
  | Some row =>
      exists i, i < n /\ series !! i = Some row /\ (q_date row <= t)%Z
        /\ forall j x, i < j < n -> series !! j = Some x -> (t < q_date x)%Z
  | None => forall j x, j < n -> series !! j = Some x -> (t < q_date x)%Z
  end.
Proof.
  induction n as [|n IH]; intros Hn; cbn [scan_back].
  - intros j x Hj. lia.
  - destruct (lookup_lt_is_Some_2 series n ltac:(lia)) as [row Hrow].
    rewrite Hrow. destruct (Z.leb_spec (q_date row) t) as [Hle|Hgt].
    + exists n. split; [lia|]. split; [exact Hrow|]. split; [exact Hle|].
      intros j x Hj. lia.
    + specialize (IH ltac:(lia)).
      destruct (scan_back series t n) as [row'|].
      * destruct IH as (i & Hi & Hrow' & Hle & Hafter).
        exists i. split; [lia|]. split; [exact Hrow'|]. split; [exact Hle|].
        intros j x Hj Hx. destruct (Nat.eq_dec j n) as [->|Hne].
        -- rewrite Hrow in Hx. injection Hx as <-. exact Hgt.
        -- apply (Hafter j x); [lia|exact Hx].
      * intros j x Hj Hx. destruct (Nat.eq_dec j n) as [->|Hne].
        -- rewrite Hrow in Hx. injection Hx as <-. exact Hgt.
        -- apply (IH j x); [lia|exact Hx].
Qed.

(** X27. On a series in ascending order of date (as parseQuoteSeries sorts
    it), findPriceForDate returns the latest row that is not after the
    target date: a row of the series, dated at or before the target, such
    that every row dated at or before the target is dated no later than it
    and every row after it in the series is dated after the target.  It
    returns [null] exactly if every row is dated after the target (or there
    is no target). *)
Theorem findPriceForDate_latest_not_after (series : list Quote) (target : Z)
    (Hsorted : StronglySorted (fun a b => (q_date a <= q_date b)%Z) series) :
  findPriceForDate series None = None
  /\ match findPriceForDate series (Some target) with
     | Some row =>
         (q_date row <= target)%Z
         /\ (exists i, series !! i = Some row
               /\ forall j x, i < j -> series !! j = Some x ->
                    (target < q_date x)%Z)
         /\ forall x, In x series -> (q_date x <= target)%Z ->
              (q_date x <= q_date row)%Z
     | None => forall x, In x series -> (target < q_date x)%Z
     end.
Proof.
  split; [reflexivity|]. unfold findPriceForDate.
  pose proof (scan_back_spec series target (length series) (Nat.le_refl _)) as H.
  destruct (scan_back series target (length series)) as [row|].
  - destruct H as (i & Hi & Hrow & Hle & Hafter).
    split; [exact Hle|]. split.
    + exists i. split; [exact Hrow|]. intros j x Hj Hx.
      apply (Hafter j x); [|exact Hx].
      apply lookup_lt_Some in Hx. lia.
    + intros x Hx Hxt. apply list_elem_of_In, list_elem_of_lookup in Hx.
      destruct Hx as [j Hj].
      destruct (Nat.lt_trichotomy j i) as [Hlt|[->|Hgt]].
      * apply (sorted_lookup _ series j i x row Hsorted Hlt Hj Hrow).
      * rewrite Hrow in Hj. injection Hj as <-. lia.
      * pose proof (Hafter j x ltac:(apply lookup_lt_Some in Hj; lia) Hj). lia.
  - intros x Hx. apply list_elem_of_In, list_elem_of_lookup in Hx.
    destruct Hx as [j Hj]. apply (H j x); [|exact Hj].
    apply lookup_lt_Some in Hj. exact Hj.
Qed.

Lemma findPriceForDate_latest_not_after_witness :
  findPriceForDate quotes_1_3_5 (Some 4%Z) = Some (mkQuote 3 11 None)
  /\ match findPriceForDate quotes_1_3_5 (Some 4%Z) with
     | Some row =>
         forall x, In x quotes_1_3_5 -> (q_date x <= 4)%Z ->
           (q_date x <= q_date row)%Z
     | None => True
     end.
Proof.
  split; [reflexivity|].
  assert (Hsorted : StronglySorted (fun a b => (q_date a <= q_date b)%Z)
                      quotes_1_3_5).
  { unfold quotes_1_3_5. repeat constructor; cbn; lia. }
  pose proof (findPriceForDate_latest_not_after quotes_1_3_5 4 Hsorted) as [_ H].
  destruct (findPriceForDate quotes_1_3_5 (Some 4%Z)) as [row|]; [|exact I].
  destruct H as (_ & _ & H). exact H.
Defined.

(** ** validateTicker *)

Lemma ticker_char_facts c :
  ticker_char c = true ->
  is_space c = false
  /\ normal_ticker_char (upper_char c) = true
  /\ (normal_ticker_char c = true -> upper_char c = c).
Proof.
  destruct c as [[] [] [] [] [] [] [] []]; vm_compute;
    intros H; try discriminate H; repeat split; intros; congruence.
Qed.

Lemma normal_ticker_char_facts c :
  normal_ticker_char c = true ->
  ticker_char c = true /\ upper_char c = c
  /\ Ascii.eqb c "/"%char = false /\ Ascii.eqb c backslash = false.
Proof.
  destruct c as [[] [] [] [] [] [] [] []]; vm_compute;
    intros H; try discriminate H; repeat split.
Qed.

Lemma trimStart_id s : string_forall ticker_char s = true -> trimStart s = s.
Proof.
  destruct s as [|c s]; [reflexivity|]. cbn. intros H.
  apply andb_true_iff in H. destruct H as [Hc _].
  now rewrite (proj1 (ticker_char_facts c Hc)).
Qed.

Lemma trimEnd_id s : string_forall ticker_char s = true -> trimEnd s = s.
Proof.
  induction s as [|c s IH]; [reflexivity|]. cbn. intros H.
  apply andb_true_iff in H. destruct H as [Hc Hs].
  rewrite (IH Hs). destruct s; [|reflexivity].
  now rewrite (proj1 (ticker_char_facts c Hc)).
Qed.

Lemma trim_id s : string_forall ticker_char s = true -> trim s = s.
Proof.
  intros H. unfold trim. rewrite (trimStart_id s H). now apply trimEnd_id.
Qed.

Lemma toUpperCase_length s : String.length (toUpperCase s) = String.length s.
Proof. induction s as [|c s IH]; cbn; congruence. Qed.

Lemma toUpperCase_normal s :
  string_forall ticker_char s = true ->
  string_forall normal_ticker_char (toUpperCase s) = true.
Proof.
  induction s as [|c s IH]; [reflexivity|]. cbn. intros H.
  apply andb_true_iff in H. destruct H as [Hc Hs].
  rewrite (IH Hs). destruct (ticker_char_facts c Hc) as (_ & -> & _).
  reflexivity.
Qed.

Lemma normal_ticker s :
  string_forall normal_ticker_char s = true ->
  string_forall ticker_char s = true /\ toUpperCase s = s.
Proof.
  induction s as [|c s IH]; [split; reflexivity|]. cbn. intros H.
  apply andb_true_iff in H. destruct H as [Hc Hs].
  destruct (IH Hs) as [-> ->].
  destruct (normal_ticker_char_facts c Hc) as (-> & -> & _).
  split; reflexivity.
Qed.

(** A pattern whose first character does not occur is not included. *)
Lemma includes_absent (c0 : ascii) (p s : string) :
  string_forall (fun c => negb (Ascii.eqb c c0)) s = true ->
  includes (String c0 p) s = false.
Proof.
  induction s as [|c s IH]; [reflexivity|]. cbn. intros H.
  apply andb_true_iff in H. destruct H as [Hc Hs].
  rewrite (IH Hs), orb_false_r.
  destruct (Ascii.eqb_spec c c0) as [->|Hne]; [discriminate|].
  destruct (ascii_dec c0 c) as [->|Hne']; [contradiction|reflexivity].
Qed.

Lemma normal_ticker_no_slash s :
  string_forall normal_ticker_char s = true ->
  includes "//" s = false /\ includes (String backslash EmptyString) s = false.
Proof.
  intros H. split; apply includes_absent.
  - induction s as [|c s IH]; [reflexivity|]. cbn in *.
    apply andb_true_iff in H. destruct H as [Hc Hs]. rewrite (IH Hs).
    destruct (normal_ticker_char_facts c Hc) as (_ & _ & -> & _). reflexivity.
  - induction s as [|c s IH]; [reflexivity|]. cbn in *.
    apply andb_true_iff in H. destruct H as [Hc Hs]. rewrite (IH Hs).
    destruct (normal_ticker_char_facts c Hc) as (_ & _ & _ & ->). reflexivity.
Qed.

Lemma prefix_HTTPS s :
  String.prefix "HTTPS" s = true -> String.prefix "HTTP" s = true.
Proof.
  destruct s as [|c1 [|c2 [|c3 [|c4 [|c5 s]]]]]; cbn [String.prefix];
    repeat match goal with
           | |- context [ascii_dec ?a ?b] => destruct (ascii_dec a b)
           end; intros H; try discriminate H; reflexivity.
Qed.

Lemma includes_HTTPS s : includes "HTTP" s = false -> includes "HTTPS" s = false.
Proof.
  induction s as [|c s IH]; [reflexivity|].
  cbn [includes]. intros H. apply orb_false_iff in H. destruct H as [H1 H2].
  rewrite (IH H2), orb_false_r.
  destruct (String.prefix "HTTPS" (String c s)) eqn:Hp; [|reflexivity].
  apply prefix_HTTPS in Hp. congruence.
Qed.

Lemma blocked_iff s :
  string_forall normal_ticker_char s = true ->
  existsb (fun pattern => includes pattern s) blocked_patterns = false
  <-> includes "HTTP" s = false /\ includes ".." s = false.
Proof.
  intros H. destruct (normal_ticker_no_slash s H) as [H1 H2].
  unfold blocked_patterns. cbn [existsb]. rewrite H1, H2. split.
  - intros He. repeat (apply orb_false_iff in He; destruct He as [? He]).
    split; assumption.
  - intros [Hh Hd]. rewrite Hh, Hd, (includes_HTTPS s Hh). reflexivity.
Qed.

Lemma validateTicker_regex_ok t :
  TICKER_REGEX_test t = true ->
  validateTicker (Some t)
  = if existsb (fun pattern => includes pattern (toUpperCase t)) blocked_patterns
    then ticker_rejected 400 "Ticker contains forbidden patterns."
    else ticker_next (toUpperCase t).
Proof.
  intros Hre. unfold validateTicker. rewrite Hre. cbn [negb].
  unfold TICKER_REGEX_test in Hre.
  apply andb_true_iff in Hre. destruct Hre as [Hlen Hchars].
  rewrite (trim_id t Hchars). destruct t; [discriminate|]. reflexivity.
Qed.

Lemma TICKER_REGEX_test_upper t :
  TICKER_REGEX_test t = true -> TICKER_REGEX_test (toUpperCase t) = true.
Proof.
  unfold TICKER_REGEX_test. rewrite toUpperCase_length. intros H.
  apply andb_true_iff in H. destruct H as [-> Hchars]. cbn [andb].
  apply (normal_ticker _ (toUpperCase_normal t Hchars)).
Qed.

(** X28. validateTicker lets a ticker through exactly if it has 1 to 20
    characters, all of them letters, digits, dots or hyphens, and its upper
    case form contains neither [HTTP] nor two dots in a row (the patterns
    [HTTPS], [//] and the backslash never decide).  The ticker passed on is
    the upper case form: it has the same length, consists of [A-Z], [0-9],
    [.] and [-] only, and is passed on unchanged when validated again. *)
Theorem validateTicker_accepts (t t' : string) :
  (validateTicker (Some t) = ticker_next t'
   <-> TICKER_REGEX_test t = true /\ t' = toUpperCase t
       /\ includes "HTTP" t' = false /\ includes ".." t' = false)
  /\ (validateTicker (Some t) = ticker_next t' ->
      String.length t' = String.length t
      /\ 1 <= String.length t' <= 20
      /\ string_forall normal_ticker_char t' = true
      /\ validateTicker (Some t') = ticker_next t').
Proof.
  assert (Hiff : validateTicker (Some t) = ticker_next t'
                 <-> TICKER_REGEX_test t = true /\ t' = toUpperCase t
                     /\ includes "HTTP" t' = false /\ includes ".." t' = false).
  { split.
    - intros H. destruct (TICKER_REGEX_test t) eqn:Hre.
      + rewrite (validateTicker_regex_ok t Hre) in H.
        destruct (existsb _ blocked_patterns) eqn:Hb; [discriminate|].
        injection H as <-. split; [reflexivity|]. split; [reflexivity|].
        apply blocked_iff; [|exact Hb].
        apply toUpperCase_normal. unfold TICKER_REGEX_test in Hre.
        apply andb_true_iff in Hre. apply Hre.
      + unfold validateTicker in H. rewrite Hre in H. cbn [negb] in H.
        rewrite orb_true_r in H. discriminate.
    - intros (Hre & -> & Hh & Hd). rewrite (validateTicker_regex_ok t Hre).
      assert (Hn : string_forall normal_ticker_char (toUpperCase t) = true).
      { apply toUpperCase_normal. unfold TICKER_REGEX_test in Hre.
        apply andb_true_iff in Hre. apply Hre. }
      rewrite (proj2 (blocked_iff _ Hn) (conj Hh Hd)). reflexivity. }
  split; [exact Hiff|]. intros H. apply Hiff in H.
  destruct H as (Hre & -> & Hh & Hd).
  assert (Hchars : string_forall ticker_char t = true).
  { unfold TICKER_REGEX_test in Hre. apply andb_true_iff in Hre. apply Hre. }
  pose proof (toUpperCase_normal t Hchars) as Hn.
  split; [apply toUpperCase_length|]. split.
  - rewrite toUpperCase_length. unfold TICKER_REGEX_test in Hre.
    apply andb_true_iff in Hre. destruct Hre as [Hlen _].
    apply andb_true_iff in Hlen. destruct Hlen as [H1 H2].
    apply Nat.leb_le in H1, H2. lia.
  - split; [exact Hn|].
    rewrite (validateTicker_regex_ok _ (TICKER_REGEX_test_upper t Hre)).
    rewrite (proj2 (normal_ticker _ Hn)).
    rewrite (proj2 (blocked_iff _ Hn) (conj Hh Hd)). reflexivity.
Qed.

Lemma validateTicker_accepts_witness :
  validateTicker (Some "ptt.bk"%string) = ticker_next "PTT.BK"
  /\ String.length "PTT.BK" = String.length "ptt.bk"
  /\ 1 <= String.length "PTT.BK" <= 20
  /\ string_forall normal_ticker_char "PTT.BK" = true
  /\ validateTicker (Some "PTT.BK"%string) = ticker_next "PTT.BK".
Proof.
  split; [reflexivity|].
  apply (proj2 (validateTicker_accepts "ptt.bk" "PTT.BK")). reflexivity.
Defined.

(** A ticker that spells [http] is refused, and so is one with a slash. *)
Example validateTicker_refusals :
  validateTicker (Some "http-x"%string)
  = ticker_rejected 400 "Ticker contains forbidden patterns."
  /\ validateTicker (Some "a/b"%string)
     = ticker_rejected 400
         "Invalid ticker format. Use 1-20 alphanumeric characters, dots, or hyphens only.".
Proof. split; reflexivity. Qed.

(** ** getFxRate *)

Lemma nonzero_pos x : (0 < x)%Q -> nonzero x = true.
Proof.
  intros H. unfold nonzero, Qeqb.
  destruct (Qeq_bool x 0) eqn:Heq; [|reflexivity].
  apply Qeq_bool_iff in Heq. lra.
Qed.

(** With a table of positive rates, and two levels of calls allowed, the two
    directions of a conversion are both answered, and both with a rate or
    both with [null]. *)
Lemma getFxRate_both_or_neither (fetchForexRate : string -> option Q)
    (depth : nat) (fromCurrency toCurrency : option string)
    (Hpositive : forall symbol rate,
        fetchForexRate symbol = Some rate -> (0 < rate)%Q)
    (Hdepth : 2 <= depth) :
  match getFxRate_within fetchForexRate depth fromCurrency toCurrency,
        getFxRate_within fetchForexRate depth toCurrency fromCurrency with
  | Some (Some _), Some (Some _) => True
  | Some None, Some None => True
  | _, _ => False
  end.
Proof.
  destruct depth as [|[|depth]]; try lia. clear Hdepth.
  destruct fromCurrency as [from|], toCurrency as [to|];
    try (cbn; exact I).
  destruct from as [|f0 from']; [destruct to; cbn; exact I|].
  destruct to as [|t0 to']; [cbn; exact I|].
  set (from := String f0 from'). set (to := String t0 to').
  assert (Hpos1 : forall symbol,
             match fetchForexRate symbol with
             | Some rate => (0 < rate)%Q /\ nonzero rate = true
               /\ (0 < 1 / rate)%Q /\ nonzero (1 / rate) = true
             | None => True
             end).
  { intros symbol. destruct (fetchForexRate symbol) as [rate|] eqn:Hf; [|exact I].
    pose proof (Hpositive _ _ Hf) as Hr.
    assert (0 < 1 / rate)%Q.
    { unfold Qdiv. rewrite Qmult_1_l. now apply Qinv_lt_0_compat. }
    repeat split; auto using nonzero_pos. }
  assert (Hgf : currency_given (Some from) = true) by reflexivity.
  assert (Hgt : currency_given (Some to) = true) by reflexivity.
  clearbody from to.
  cbn [getFxRate_within]. rewrite Hgf, Hgt. cbn [negb orb currency_given].
  rewrite (String.eqb_sym to from).
  destruct (String.eqb_spec from to) as [Heq|Hne].
  { exact I. }
  destruct (String.eqb_spec from "USD") as [Hfu|Hfu];
    destruct (String.eqb_spec to "USD") as [Htu|Htu]; try congruence.
  - (* from the dollar *)
    pose proof (Hpos1 (String.append to "=X")) as Ht.
    destruct (fetchForexRate (String.append to "=X")) as [rate|]; [|exact I].
    destruct Ht as (Hr & -> & _). exact I.
  - (* to the dollar *)
    pose proof (Hpos1 (String.append from "=X")) as Hf.
    destruct (fetchForexRate (String.append from "=X")) as [rate|]; [|exact I].
    destruct Hf as (Hr & -> & _). exact I.
  - (* a cross rate through the dollar *)
    destruct (String.eqb_spec "USD" to) as [|_]; [congruence|].
    destruct (String.eqb_spec "USD" from) as [|_]; [congruence|].
    cbn [String.eqb Ascii.eqb Bool.eqb andb].
    pose proof (Hpos1 (String.append from "=X")) as Hf.
    pose proof (Hpos1 (String.append to "=X")) as Ht.
    destruct (fetchForexRate (String.append from "=X")) as [rf|];
      destruct (fetchForexRate (String.append to "=X")) as [rt|];
      try exact I.
    + destruct Hf as (Hrf & Hnf & Hif & Hnif).
      destruct Ht as (Hrt & Hnt & Hit & Hnit).
      rewrite Hnf, Hnt, Hnif, Hnit. cbn [andb]. exact I.
    + destruct Hf as (_ & -> & _). exact I.
    + destruct Ht as (_ & -> & _). exact I.
Qed.

(** X29. getFxRate calls itself at most one level deep, and with a table of
    positive rates the two directions of a conversion agree on whether a
    rate is available: both return a rate or both return [null]. *)
Theorem getFxRate_directions_agree (fetchForexRate : string -> option Q)
    (depth : nat) (fromCurrency toCurrency : option string)
    (Hpositive : forall symbol rate,
        fetchForexRate symbol = Some rate -> (0 < rate)%Q)
    (Hdepth : 2 <= depth) :
  exists there back,
    getFxRate_within fetchForexRate depth fromCurrency toCurrency = Some there
    /\ getFxRate_within fetchForexRate depth toCurrency fromCurrency = Some back
    /\ (there = None <-> back = None).
Proof.
  pose proof (getFxRate_both_or_neither fetchForexRate depth fromCurrency
                toCurrency Hpositive Hdepth) as H.
  destruct (getFxRate_within fetchForexRate depth fromCurrency toCurrency)
    as [[there|]|];
    destruct (getFxRate_within fetchForexRate depth toCurrency fromCurrency)
      as [[back|]|]; try contradiction;
    eexists; eexists; (split; [reflexivity|]); (split; [reflexivity|]);
    split; congruence.
Qed.

Lemma getFxRate_directions_agree_witness :
  getFxRate_within fx_table 2 (Some "GBP"%string) (Some "THB"%string)
  = Some (Some ((1 / 0.8) * 36)%Q)
  /\ exists there back,
       getFxRate_within fx_table 2 (Some "GBP"%string) (Some "THB"%string)
       = Some there
       /\ getFxRate_within fx_table 2 (Some "THB"%string) (Some "GBP"%string)
          = Some back
       /\ (there = None <-> back = None).
Proof.
  split; [reflexivity|].
  apply (getFxRate_directions_agree fx_table 2 (Some "GBP"%string)
           (Some "THB"%string)); [|lia].
  intros symbol rate. unfold fx_table.
  destruct (String.eqb symbol "THB=X"); [intros [= <-]; reflexivity|].
  destruct (String.eqb symbol "GBP=X"); [intros [= <-]; reflexivity|].
  discriminate.
Defined.

(** ** MacdHistogramChart *)

(** X30. Every finite histogram value lies strictly inside the Y axis
    [[-pad, pad]] of the MACD histogram chart, and the axis never spans
    less than [[-0.5, 0.5]]. *)
Theorem macd_axis_holds_every_bar (histogram : list (option Q)) (v : Q)
    (Hv : In (Some v) histogram) :
  let p := pad (finite_values histogram) in
  (0.5 <= p)%Q /\ (- p < v)%Q /\ (v < p)%Q.
Proof.
  cbv zeta. set (values := finite_values histogram).
  assert (Hin : In v values).
  { apply list_elem_of_In, list_elem_of_omap. exists (Some v).
    split; [now apply list_elem_of_In|reflexivity]. }
  assert (Habs : (Qabs v <= absMax values)%Q).
  { unfold absMax. apply (in_map Qabs) in Hin.
    destruct (map Qabs values) as [|a rest]; [destruct Hin|].
    apply (proj2 (Math_max_is_maximum a rest)). exact Hin. }
  pose proof (Qabs_nonneg v) as H0.
  pose proof (Q.le_max_l (absMax values * 1.15) 0.5) as Hl.
  pose proof (Q.le_max_r (absMax values * 1.15) 0.5) as Hr.
  fold (pad values) in Hl, Hr.
  assert (Hlt : (Qabs v < pad values)%Q).
  { destruct (Qlt_le_dec 0 (absMax values)) as [Hpos|Hzero]; lra. }
  apply Qabs_Qlt_condition in Hlt. split; [exact Hr|exact Hlt].
Qed.

Lemma macd_axis_holds_every_bar_witness :
  pad (finite_values [Some 2%Q; None; Some (-4)%Q]) == 4.6
  /\ (- pad (finite_values [Some 2%Q; None; Some (-4)%Q]) < -4)%Q.
Proof.
  split; [reflexivity|].
  apply (macd_axis_holds_every_bar [Some 2%Q; None; Some (-4)%Q] (-4)).
  right. right. left. reflexivity.
Defined.
